(** * hud-normalizer: a Rocq model of [hud_normalizer.py]

    The tool rewrites a TF2 HUD directory so that it works on both case
    sensitive and case insensitive file systems: it lowercases file names,
    lowercases font references of clientscheme files, and rewrites [#base]
    paths of [.cfg] and [.res] files.

    Modelling choices.
    - Text is a list of characters ([list ascii]).  The model covers ASCII
      text: [str.lower] is the ASCII lowering, [\s] is the ASCII part of
      Python's white space class, and characters above 127 are treated as
      caseless symbols.
    - Python's [re] module is modelled by a backtracking matcher with
      priorities (greedy and lazy repetition, ordered alternation, capture
      groups, a negative look-ahead, the multi-line [^] anchor and the
      IGNORECASE flag); each pattern of the program is transcribed as a
      [regex] value.
    - The file system is a finite map from resolved absolute paths (lists of
      component names, POSIX conventions, no symbolic links) to nodes.
    - The limits of the operating system on names (a null character, a
      component or a path too long) are modelled where a path comes from
      outside: the command line argument and the [#base] paths of
      clientscheme files.
    - The recursion limit of the interpreter is a parameter, [limit], of the
      recursive walk and of what calls it.
    - The program puts the name of the HUD folder into a replacement
      template of [re.sub].  A template without backslash stands for itself,
      and this is what is modelled: the statements about the rewriting with
      the name assume a name without backslash ([plain_name]). *)

From Stdlib Require Import Ascii String Sorted.
From stdpp Require Import base list strings gmap sets.

Local Open Scope list_scope.

(** ** Text primitives *)

Abbreviation text := (list ascii).

(** A string literal as a text. *)
Definition txt (s : string) : text := list_ascii_of_string s.

(** [c.lower()] for one ASCII character. *)
Definition lower_char (a : ascii) : ascii :=
  let n := nat_of_ascii a in
  if (65 <=? n) && (n <=? 90) then ascii_of_nat (n + 32) else a.

(** [s.lower()] *)
Definition lower (s : text) : text := map lower_char s.

(** The character is an uppercase letter. *)
Definition is_upper (a : ascii) : bool :=
  let n := nat_of_ascii a in (65 <=? n) && (n <=? 90).

(** Python's [\s] on ASCII: TAB, LF, VT, FF, CR, FS, GS, RS, US and SPACE. *)
Definition is_space (a : ascii) : bool :=
  let n := nat_of_ascii a in
  ((9 <=? n) && (n <=? 13)) || ((28 <=? n) && (n <=? 32)).

Definition backslash : ascii := "\"%char.
Definition slash : ascii := "/"%char.
Definition dquote : ascii := "034"%char.
Definition squote : ascii := "'"%char.
Definition newline : ascii := "010"%char.
Definition creturn : ascii := "013"%char.

(** A text between double quotes. *)
Definition quoted (s : text) : text := dquote :: s ++ [dquote].

(** [s.replace(backslash, slash)] *)
Definition to_slashes (s : text) : text :=
  map (fun a => if Ascii.eqb a backslash then slash else a) s.

(** [s.startswith(p)] *)
Fixpoint startswith (p s : text) : bool :=
  match p, s with
  | [], _ => true
  | a :: p', b :: s' => Ascii.eqb a b && startswith p' s'
  | _ :: _, [] => false
  end.

(** [p in s] *)
Fixpoint contains (p s : text) : bool :=
  startswith p s ||
  match s with
  | [] => false
  | _ :: s' => contains p s'
  end.

(** [s.count(sub)]: the number of non-overlapping occurrences, scanning from
    the left; [skip] characters of an occurrence already counted remain. *)
Fixpoint count_from (sub : text) (skip : nat) (s : text) : nat :=
  match s with
  | [] => 0
  | _ :: s' =>
      match skip with
      | S k => count_from sub k s'
      | O => if startswith sub s
             then S (count_from sub (length sub - 1) s')
             else count_from sub 0 s'
      end
  end.

Definition count (sub s : text) : nat := count_from sub 0 s.

(** The text [../] repeated [n] times. *)
Fixpoint ups (n : nat) : text :=
  match n with
  | O => []
  | S n' => "."%char :: "."%char :: "/"%char :: ups n'
  end.

(** The length of the leading run of [../] segments. *)
Fixpoint leading_ups (s : text) : nat :=
  match s with
  | "."%char :: "."%char :: "/"%char :: s' => S (leading_ups s')
  | _ => 0
  end.

(** ** Regular expressions (the fragment of Python's [re] the program uses) *)

Inductive regex : Type :=
| Eps
| Chr (a : ascii)                       (* a literal character *)
| Any                                   (* [.]: anything but a newline *)
| Space                                 (* [\s] *)
| OneOf (l : list ascii)                (* [[...]] *)
| NoneOf (l : list ascii)               (* [[^...]] *)
| Bol                                   (* [^] under MULTILINE *)
| Seq (r1 r2 : regex)
| Alt (r1 r2 : regex)                   (* [r1|r2], [r1] tried first *)
| Star (greedy : bool) (r : regex)      (* [r*] and [r*?] *)
| Group (n : nat) (r : regex)           (* capture group number [n] *)
| NotAhead (r : regex).                 (* [(?!r)] *)

(** A literal string. *)
Fixpoint Lit (s : text) : regex :=
  match s with
  | [] => Eps
  | [a] => Chr a
  | a :: s' => Seq (Chr a) (Lit s')
  end.

(** [r+] and [r?] (both greedy). *)
Definition Plus (r : regex) : regex := Seq r (Star true r).
Definition Opt (r : regex) : regex := Alt r Eps.

Fixpoint Seqs (rs : list regex) : regex :=
  match rs with
  | [] => Eps
  | [r] => r
  | r :: rs' => Seq r (Seqs rs')
  end.

(** Captures: group number and captured text, the latest capture first. *)
Abbreviation caps := (list (nat * text)).

(** [m.group(n)] for a group that took part in the match. *)
Fixpoint group (n : nat) (c : caps) : text :=
  match c with
  | [] => []
  | (i, w) :: c' => if Nat.eqb i n then w else group n c'
  end.

(** Character comparison, case-insensitive under IGNORECASE. *)
Definition chr_eq (ic : bool) (a x : ascii) : bool :=
  if ic then Ascii.eqb (lower_char a) (lower_char x) else Ascii.eqb a x.

Definition chr_in (ic : bool) (l : list ascii) (x : ascii) : bool :=
  existsb (fun a => chr_eq ic a x) l.

(** [^] under MULTILINE: at the start of the text or just after a newline. *)
Definition at_bol (prev : option ascii) : bool :=
  match prev with
  | None => true
  | Some a => Ascii.eqb a newline
  end.

(** A continuation receives the last character consumed so far, the rest of
    the input and the captures. *)
Abbreviation cont A := (option ascii -> text -> caps -> option A).

(** The backtracking matcher.  [rmatch ic A r prev s c k] matches [r] at the
    front of [s] ([prev] is the character before [s]) and passes what is
    left to [k]; when [k] fails the next alternative is tried, in the
    priority order of Python's engine.  Every repeated sub-pattern of the
    program consumes at least one character per iteration, so an iteration
    has to make progress. *)
Fixpoint rmatch (ic : bool) (A : Type) (r : regex)
    (prev : option ascii) (s : text) (c : caps) (k : cont A) {struct r} : option A :=
  match r with
  | Eps => k prev s c
  | Chr a =>
      match s with
      | x :: s' => if chr_eq ic a x then k (Some x) s' c else None
      | [] => None
      end
  | Any =>
      match s with
      | x :: s' => if Ascii.eqb x newline then None else k (Some x) s' c
      | [] => None
      end
  | Space =>
      match s with
      | x :: s' => if is_space x then k (Some x) s' c else None
      | [] => None
      end
  | OneOf l =>
      match s with
      | x :: s' => if chr_in ic l x then k (Some x) s' c else None
      | [] => None
      end
  | NoneOf l =>
      match s with
      | x :: s' => if chr_in ic l x then None else k (Some x) s' c
      | [] => None
      end
  | Bol => if at_bol prev then k prev s c else None
  | Seq r1 r2 =>
      rmatch ic A r1 prev s c (fun p' s' c' => rmatch ic A r2 p' s' c' k)
  | Alt r1 r2 =>
      match rmatch ic A r1 prev s c k with
      | Some x => Some x
      | None => rmatch ic A r2 prev s c k
      end
  | Star g r0 =>
      (fix loop (fuel : nat) (prev : option ascii) (s : text) (c : caps)
           {struct fuel} : option A :=
         match fuel with
         | O => None
         | S fuel' =>
             if g then
               match rmatch ic A r0 prev s c
                       (fun p' s' c' =>
                          if length s' <? length s then loop fuel' p' s' c' else None)
               with
               | Some x => Some x
               | None => k prev s c
               end
             else
               match k prev s c with
               | Some x => Some x
               | None =>
                   rmatch ic A r0 prev s c
                     (fun p' s' c' =>
                        if length s' <? length s then loop fuel' p' s' c' else None)
               end
         end) (S (length s)) prev s c
  | Group n r0 =>
      rmatch ic A r0 prev s c
        (fun p' s' c' => k p' s' ((n, take (length s - length s') s) :: c'))
  | NotAhead r0 =>
      match rmatch ic unit r0 prev s c (fun _ _ _ => Some tt) with
      | Some _ => None
      | None => k prev s c
      end
  end.

(** [pattern.match] at one position: the captures and the unconsumed rest. *)
Definition match_at (ic : bool) (r : regex) (prev : option ascii) (s : text)
  : option (caps * text) :=
  rmatch ic (caps * text) r prev s [] (fun _ s' c' => Some (c', s')).

(** The result of scanning a text: a character outside every match, or a
    match with its whole text ([group(0)]) and its captures. *)
Inductive piece : Type :=
| Skip (a : ascii)
| Hit (whole : text) (c : caps).

(** Left-to-right scan for non-overlapping matches, as [re.sub] and
    [finditer] do it.  After a match of [n] characters the next [n - 1]
    positions lie inside it and are passed over ([skip]). *)
Fixpoint scan (ic : bool) (r : regex) (prev : option ascii) (s : text) (skip : nat)
  : list piece :=
  match s with
  | [] => []
  | a :: s' =>
      match skip with
      | S n => scan ic r (Some a) s' n
      | O =>
          match match_at ic r prev s with
          | Some (c, rest) =>
              match length s - length rest with
              | O => Skip a :: scan ic r (Some a) s' 0
              | S n => Hit (take (S n) s) c :: scan ic r (Some a) s' n
              end
          | None => Skip a :: scan ic r (Some a) s' 0
          end
      end
  end.

(** The text a piece stands for in the input. *)
Definition raw (p : piece) : text :=
  match p with
  | Skip a => [a]
  | Hit w _ => w
  end.

(** [re.sub(pattern, repl, s)] with a function [repl] of the match. *)
Definition re_sub (ic : bool) (r : regex) (repl : text -> caps -> text) (s : text) : text :=
  concat (map (fun p => match p with
                        | Skip a => [a]
                        | Hit w c => repl w c
                        end) (scan ic r None s 0)).

(** The text [re.sub] puts together from the pieces of a scan: a character
    outside the matches is copied, a match is replaced by what [repl]
    returns for it. *)
Definition render (repl : text -> caps -> text) (pieces : list piece) : text :=
  concat (map (fun p => match p with
                        | Skip a => [a]
                        | Hit w c => repl w c
                        end) pieces).

(** [pattern.finditer(s)]: the matches in order. *)
Definition re_finditer (ic : bool) (r : regex) (s : text) : list (text * caps) :=
  omap (fun p => match p with
                 | Skip _ => None
                 | Hit w c => Some (w, c)
                 end) (scan ic r None s 0).

(** ** The patterns of the program *)

(** [(DQ font DQ \s+ DQ)(.*?)(DQ)], where DQ is the double quote character *)
Definition font_re : regex :=
  Seqs [ Group 1 (Seqs [Lit (quoted (txt "font")); Plus Space; Chr dquote]);
         Group 2 (Star false Any);
         Group 3 (Chr dquote) ].

(** [^#base\s+ DQ ([^DQ]+) DQ] with MULTILINE *)
Definition base_pattern : regex :=
  Seqs [ Bol; Lit (txt "#base"); Plus Space; Chr dquote;
         Group 1 (Plus (NoneOf [dquote])); Chr dquote ].

(** [(echo\s+ Q? #base Q? \s+ Q?)(.*?\.(?:res|vmt))(Q? REST)] with IGNORECASE,
    where Q is the class of the double and the single quote and REST is a
    greedy run of any characters but newlines *)
Definition echo_re : regex :=
  Seqs [ Group 1 (Seqs [Lit (txt "echo"); Plus Space; Opt (OneOf [dquote; squote]);
                        Lit (txt "#base"); Opt (OneOf [dquote; squote]);
                        Plus Space; Opt (OneOf [dquote; squote])]);
         Group 2 (Seqs [Star false Any; Chr "."%char;
                        Alt (Lit (txt "res")) (Lit (txt "vmt"))]);
         Group 3 (Seq (Opt (OneOf [dquote; squote])) (Star true Any)) ].

(** [(\.\./)+resource/] and [(\.\./)+scripts/] *)
Definition ups_resource_re : regex :=
  Seq (Plus (Group 1 (Lit (txt "../")))) (Lit (txt "resource/")).
Definition ups_scripts_re : regex :=
  Seq (Plus (Group 1 (Lit (txt "../")))) (Lit (txt "scripts/")).

(** [(#base\s+ DQ)(.*?cfg[^DQ]+)(DQ)] with IGNORECASE *)
Definition cfg_base_re : regex :=
  Seqs [ Group 1 (Seqs [Lit (txt "#base"); Plus Space; Chr dquote]);
         Group 2 (Seqs [Star false Any; Lit (txt "cfg"); Plus (NoneOf [dquote])]);
         Group 3 (Chr dquote) ].

(** [(#base\s+ DQ)((?:(?!cfg)[^DQ])+\.res)(DQ)] with IGNORECASE *)
Definition res_base_re : regex :=
  Seqs [ Group 1 (Seqs [Lit (txt "#base"); Plus Space; Chr dquote]);
         Group 2 (Seqs [Plus (Seq (NotAhead (Lit (txt "cfg"))) (NoneOf [dquote]));
                        Lit (txt ".res")]);
         Group 3 (Chr dquote) ].

(** [(DQ)((?:resource|scripts)[/\][^DQ]+)] with IGNORECASE, the class holding
    the slash and the backslash *)
Definition schema_re : regex :=
  Seqs [ Group 1 (Chr dquote);
         Group 2 (Seqs [Alt (Lit (txt "resource")) (Lit (txt "scripts"));
                        OneOf [slash; backslash];
                        Plus (NoneOf [dquote])]) ].

(** ** The text normalizers *)

(** [extract_path_after_parents]: strip every leading [../]. *)
Fixpoint extract_path_after_parents (path : text) : text :=
  match path with
  | "."%char :: "."%char :: "/"%char :: path' => extract_path_after_parents path'
  | _ => path
  end.

(** files need (depth + 2) levels of ../ to reach tf/cfg/ *)
Definition CFG_DEPTH_OFFSET : nat := 2.

(** The replacement callback of [normalize_clientscheme_font_paths]. *)
Definition font_repl (_ : text) (m : caps) : text :=
  group 1 m ++ lower (to_slashes (group 2 m)) ++ group 3 m.

(** The text transformation of [normalize_clientscheme_font_paths]. *)
Definition normalize_font_text (content : text) : text :=
  re_sub false font_re font_repl content.

(** The name of the HUD folder holds no backslash.  The code hands the
    canonical prefix, which holds the name, to [re.sub] as a replacement
    template; in a template a backslash starts an escape or a group
    reference, which [re] expands or rejects, and a template without
    backslash stands for itself.  The two rewritings below are the code for
    such names; what is stated about them assumes [plain_name]. *)
Definition plain_name (hud_name : text) : Prop :=
  existsb (Ascii.eqb backslash) hud_name = false.

(** The first rewriting of [normalize_echo_path]: normalize resource paths
    to the explicit format (for a [plain_name]). *)
Definition explicit_resource (hud_name : text) (path : text) : text :=
  if contains (txt "/resource/") path
     && negb (contains (txt "/custom/" ++ hud_name ++ txt "/resource/") path)
  then re_sub false ups_resource_re
         (fun _ _ => txt "../../custom/" ++ hud_name ++ txt "/resource/") path
  else path.

(** The second rewriting: normalize scripts paths to the explicit format
    (for a [plain_name]). *)
Definition explicit_scripts (hud_name : text) (path : text) : text :=
  if contains (txt "/scripts/") path
     && negb (contains (txt "/custom/" ++ hud_name ++ txt "/scripts/") path)
  then re_sub false ups_scripts_re
         (fun _ _ => txt "../../custom/" ++ hud_name ++ txt "/scripts/") path
  else path.

(** The [path] computed by [normalize_echo_path] from group 2. *)
Definition echo_path (hud_name : text) (path : text) : text :=
  let path := to_slashes path in
  let path := explicit_resource hud_name path in
  let path := explicit_scripts hud_name path in
  lower path.

Definition normalize_echo_path (hud_name : text) (_ : text) (m : caps) : text :=
  group 1 m ++ echo_path hud_name (group 2 m) ++ group 3 m.

Definition normalize_cfg_echo_paths (content hud_name : text) : text :=
  re_sub true echo_re (normalize_echo_path hud_name) content.

(** The [path] computed by [normalize_cfg_path] from group 2. *)
Definition cfg_path (file_depth : nat) (path : text) : text :=
  let path := to_slashes path in
  let path :=
    if contains (txt "/cfg/") path then
      let current_ups := count (txt "../") path in
      let needed_ups := file_depth + CFG_DEPTH_OFFSET in
      if negb (current_ups =? needed_ups)
      then ups needed_ups ++ extract_path_after_parents path
      else path
    else path in
  lower path.

Definition normalize_cfg_path (file_depth : nat) (_ : text) (m : caps) : text :=
  group 1 m ++ cfg_path file_depth (group 2 m) ++ group 3 m.

Definition normalize_cfg_paths_in_res (content : text) (file_depth : nat) : text :=
  re_sub true cfg_base_re (normalize_cfg_path file_depth) content.

Definition normalize_res_path (_ : text) (m : caps) : text :=
  group 1 m ++ lower (to_slashes (group 2 m)) ++ group 3 m.

Definition normalize_res_base_paths (content : text) : text :=
  re_sub true res_base_re normalize_res_path content.

Definition normalize_schema (_ : text) (m : caps) : text :=
  group 1 m ++ lower (to_slashes (group 2 m)).

Definition normalize_schema_declarations (content : text) : text :=
  re_sub true schema_re normalize_schema content.

(** The three passes [process_res_files] applies to one file's text. *)
Definition normalize_res_text (file_depth : nat) (content : text) : text :=
  normalize_schema_declarations
    (normalize_res_base_paths (normalize_cfg_paths_in_res content file_depth)).

(** ** The file system and the effects of the program *)

(** A resolved absolute path: the component names from the root down. *)
Abbreviation path := (list text).

Inductive node : Type :=
| Dir
| File (data : text).

Inductive exn : Type :=
| FileNotFoundError
| IsADirectoryError
| NotADirectoryError
| OSError                      (* directory not empty, invalid argument,
                                  file name too long *)
| ValueError                   (* embedded null byte *)
| RecursionError.              (* maximum recursion depth exceeded *)

(** The lines the program prints, with the numbers they report. *)
Inductive msg : Type :=
| MUsage | MUsageHelp
| MNotFound (arg : text) | MNotDir (arg : text)
| MTarget (arg : text) | MRenaming (old new : text)
| MNamesStage | MLowercased (n : nat) | MNoLowercase
| MFontsStage | MNoClientscheme | MSchemesModified (n : nat) | MNoSchemeChange
| MLogbaseStage | MNoCfgFolder
| MCfgModified (n : nat) | MNoCfgChange
| MResModified (n : nat) | MNoResChange
| MComplete | MReady (hud : path).

(** The state the program acts on.  [fontlog] is a ghost field: it records
    every call of [normalize_clientscheme_font_paths], latest first. *)
Record world : Type := World {
  files : gmap path node;
  output : list msg;
  fontlog : list path
}.

Inductive outcome (A : Type) : Type :=
| Ok (a : A)
| Raise (e : exn)              (* an uncaught Python exception *)
| Exit (code : nat)            (* [sys.exit(code)] *)
| NoFuel.                      (* the recursion bound of the model ran out *)
Arguments Ok {A} a.
Arguments Raise {A} e.
Arguments Exit {A} code.
Arguments NoFuel {A}.

(** Computations: a state transformer with an outcome.  The effects made
    before an exception stay in the state. *)
Definition M (A : Type) : Type := world -> outcome A * world.

Definition ret {A} (a : A) : M A := fun w => (Ok a, w).

Definition bind {A B} (m : M A) (k : A -> M B) : M B :=
  fun w =>
    match m w with
    | (Ok a, w') => k a w'
    | (Raise e, w') => (Raise e, w')
    | (Exit n, w') => (Exit n, w')
    | (NoFuel, w') => (NoFuel, w')
    end.

Notation "'let*' x ':=' m 'in' k" := (bind m (fun x => k))
  (at level 10, x name, m at level 100, k at level 200).
Notation "'let*' ' p ':=' m 'in' k" := (bind m (fun x => match x with p => k end))
  (at level 10, p pattern, m at level 100, k at level 200).
Notation "m1 ';;' m2" := (bind m1 (fun _ => m2))
  (at level 100, m2 at level 200, right associativity).

Definition raise {A} (e : exn) : M A := fun w => (Raise e, w).
Definition sys_exit {A} (code : nat) : M A := fun w => (Exit code, w).
Definition out_of_fuel {A} : M A := fun w => (NoFuel, w).

Definition print (m : msg) : M unit :=
  fun w => (Ok tt, World (files w) (output w ++ [m]) (fontlog w)).

Definition get_files : M (gmap path node) := fun w => (Ok (files w), w).

Definition put_files (fs : gmap path node) : M unit :=
  fun w => (Ok tt, World fs (output w) (fontlog w)).

Definition log_font_call (file : path) : M unit :=
  fun w => (Ok tt, World (files w) (output w) (file :: fontlog w)).

(** [for x in l: s = body(x, s)] *)
Fixpoint for_each {A S : Type} (l : list A) (s : S) (body : A -> S -> M S) : M S :=
  match l with
  | [] => ret s
  | x :: l' => let* s' := body x s in for_each l' s' body
  end.

(** *** Paths *)

(** [p.name] and [p.parent] *)
Definition basename (p : path) : text := List.last p [].
Definition parent (p : path) : path := removelast p.

(** [k] lies strictly below the directory [d]. *)
Definition below (d k : path) : bool :=
  bool_decide (d `prefix_of` k) && negb (bool_decide (d = k)).

(** The root is a directory; any other path is one when the map says so. *)
Definition is_dir (fs : gmap path node) (p : path) : bool :=
  match p with
  | [] => true
  | _ => match fs !! p with Some Dir => true | _ => false end
  end.

Definition path_exists (fs : gmap path node) (p : path) : bool :=
  match p with
  | [] => true
  | _ => bool_decide (is_Some (fs !! p))
  end.

(** [s.split('/')] *)
Fixpoint split_slash (s : text) : list text :=
  match s with
  | [] => [[]]
  | a :: s' =>
      if Ascii.eqb a slash then [] :: split_slash s'
      else match split_slash s' with
           | [] => [[a]]
           | w :: ws => (a :: w) :: ws
           end
  end.

Definition dot : text := txt ".".
Definition dotdot : text := txt "..".

(** Lexical resolution of the components [comps] from the directory [cur],
    as [Path.resolve] does it in the absence of symbolic links. *)
Fixpoint resolve_in (cur : path) (comps : list text) : path :=
  match comps with
  | [] => cur
  | c :: rest =>
      if bool_decide (c = []) || bool_decide (c = dot) then resolve_in cur rest
      else if bool_decide (c = dotdot) then resolve_in (parent cur) rest
      else resolve_in (cur ++ [c]) rest
  end.

(** [(dir / rel).resolve()] *)
Definition join_resolve (dir : path) (rel : text) : path :=
  match rel with
  | a :: _ => if Ascii.eqb a slash then resolve_in [] (split_slash rel)
              else resolve_in dir (split_slash rel)
  | [] => dir
  end.

(** *** Limits of the operating system *)

(** A path handed to the operating system holds no null character, no
    component longer than [NAME_MAX] and, as a text, fewer than [PATH_MAX]
    characters. *)
Definition NUL : ascii := "000"%char.
Definition NAME_MAX : nat := 255.
Definition PATH_MAX : nat := 4096.

Definition has_nul (s : text) : bool := existsb (Ascii.eqb NUL) s.
Definition has_nul_path (p : path) : bool := existsb has_nul p.

(** The length of components joined by slashes, a slash before each. *)
Definition joined_length (parts : list text) : nat :=
  foldr (fun c n => S (length c + n)) 0 parts.

(** The length of the text of a resolved absolute path, [/a/b]. *)
Definition path_text_length (p : path) : nat :=
  match p with
  | [] => 1
  | _ => joined_length p
  end.

(** The outcome of the look-up the operating system does for a path: the
    place the path names (which need not exist), an error that makes
    [Path.exists] answer no, or a name that is too long, which makes every
    operation raise [OSError]. *)
Inductive found : Type :=
| At (p : path)
| Nowhere (e : exn)
| NameTooLong.

(** The look-up, component after component: every component is searched in
    a directory that has to exist; the last one need not exist. *)
Fixpoint walk (fs : gmap path node) (cur : path) (comps : list text) : found :=
  match comps with
  | [] => At cur
  | c :: rest =>
      if is_dir fs cur then
        if bool_decide (c = dotdot) then walk fs (parent cur) rest
        else if NAME_MAX <? length c then NameTooLong
        else walk fs (cur ++ [c]) rest
      else if path_exists fs cur then Nowhere NotADirectoryError
      else Nowhere FileNotFoundError
  end.

(** [Path(arg)]: the components of the text, without the empty ones and
    the single dots, which [pathlib] drops (so a trailing slash is of no
    account); [..] is kept. *)
Definition path_parts (arg : text) : list text :=
  List.filter (fun c => negb (bool_decide (c = [])) && negb (bool_decide (c = dot)))
    (split_slash arg).

(** The length of the root of [Path(arg)]: two leading slashes are kept,
    any other number of them is one slash. *)
Definition root_length (arg : text) : nat :=
  match arg with
  | a :: b :: c :: _ =>
      if Ascii.eqb a slash then
        if Ascii.eqb b slash && negb (Ascii.eqb c slash) then 2 else 1
      else 0
  | [a; b] => if Ascii.eqb a slash then (if Ascii.eqb b slash then 2 else 1) else 0
  | [a] => if Ascii.eqb a slash then 1 else 0
  | [] => 0
  end.

(** The length of [str(Path(arg))]. *)
Definition path_str_length (arg : text) : nat :=
  match root_length arg, path_parts arg with
  | O, [] => 1
  | r, parts => r + (joined_length parts - 1)
  end.

(** The look-up of [Path(arg)] from the directory [cwd].  A null character
    makes the standard library answer that nothing is there. *)
Definition locate (fs : gmap path node) (cwd : path) (arg : text) : found :=
  if has_nul arg then Nowhere FileNotFoundError
  else if PATH_MAX <=? path_str_length arg then NameTooLong
  else walk fs (if 0 <? root_length arg then [] else cwd) (path_parts arg).

(** [p.exists()] for a resolved path. *)
Definition exists_ (p : path) : M bool :=
  fun w =>
    if has_nul_path p then (Ok false, w)
    else if PATH_MAX <=? path_text_length p then (Raise OSError, w)
    else
      match walk (files w) [] p with
      | At q => (Ok (path_exists (files w) q), w)
      | Nowhere _ => (Ok false, w)
      | NameTooLong => (Raise OSError, w)
      end.

(** *** File operations *)

(** Text mode reading translates every line ending to a newline. *)
Fixpoint universal_newlines (s : text) : text :=
  match s with
  | [] => []
  | a :: s' =>
      if Ascii.eqb a creturn then
        newline :: match s' with
                   | b :: s'' => if Ascii.eqb b newline then universal_newlines s''
                                 else universal_newlines s'
                   | [] => []
                   end
      else a :: universal_newlines s'
  end.

(** [file.read_text(encoding='utf-8', errors='ignore')] *)
Definition read_text (file : path) : M text :=
  fun w =>
    match files w !! file with
    | Some (File data) => (Ok (universal_newlines data), w)
    | Some Dir => (Raise IsADirectoryError, w)
    | None => (Raise (match file with [] => IsADirectoryError | _ => FileNotFoundError end), w)
    end.

(** [file.write_text(content, encoding='utf-8')]; a newline is written as it
    is (POSIX). *)
Definition write_text (file : path) (content : text) : M unit :=
  fun w =>
    match file, files w !! file with
    | [], _ | _, Some Dir => (Raise IsADirectoryError, w)
    | _, _ =>
        if is_dir (files w) (parent file)
        then (Ok tt, World (<[file := File content]> (files w)) (output w) (fontlog w))
        else (Raise FileNotFoundError, w)
    end.

(** Where the entry [k] is after the entry [p] has been moved to [q]. *)
Definition reroot (p q k : path) : path :=
  if bool_decide (p `prefix_of` k) then q ++ drop (length p) k else k.

Definition move (p q : path) (fs : gmap path node) : gmap path node :=
  list_to_map (prod_map (reroot p q) id <$> map_to_list (delete q fs)).

Definition has_children (fs : gmap path node) (d : path) : bool :=
  existsb (fun kv => below d (fst kv)) (map_to_list fs).

(** [os.rename(p, q)] on resolved paths (POSIX). *)
Definition os_rename (p q : path) : M unit :=
  fun w =>
    let fs := files w in
    match p, fs !! p with
    | [], _ | _, None => (Raise FileNotFoundError, w)
    | _, Some n =>
        if negb (is_dir fs (parent q)) then (Raise FileNotFoundError, w)
        else if bool_decide (p = q) then (Ok tt, w)
        else if bool_decide (p `prefix_of` q) then (Raise OSError, w)
        else
          let moved := (Ok tt, World (move p q fs) (output w) (fontlog w)) in
          match q, fs !! q, n with
          | [], _, _ => (Raise OSError, w)
          | _, None, _ => moved
          | _, Some (File _), File _ => moved
          | _, Some (File _), Dir => (Raise NotADirectoryError, w)
          | _, Some Dir, File _ => (Raise IsADirectoryError, w)
          | _, Some Dir, Dir =>
              if has_children fs q then (Raise OSError, w) else moved
          end
    end.

(** [name.endswith(suffix)] *)
Definition endswith (suffix s : text) : bool :=
  startswith (rev suffix) (rev s).

(** [dir.rglob(pattern)]: the entries below [dir] whose name satisfies the
    pattern.  The order is that of the map; the operating system gives no
    guarantee about it. *)
Definition rglob (fs : gmap path node) (dir : path) (pat : text -> bool) : list path :=
  filter (fun k => below dir k && pat (basename k)) (fst <$> map_to_list fs).

(** *** Stage 1: file names *)

(** [sorted(l, key=lambda p: len(p.parts), reverse=True)]; the sort is
    stable. *)
Fixpoint insert_by_depth (x : path) (l : list path) : list path :=
  match l with
  | [] => [x]
  | y :: l' => if length x <? length y then y :: insert_by_depth x l' else x :: l
  end.

Definition sort_by_depth (l : list path) : list path :=
  foldr insert_by_depth [] l.

(** The body of the loop of [normalize_filenames]. *)
Definition lowercase_entry (item : path) (rename_count : nat) : M nat :=
  let original_name := basename item in
  let lowercase_name := lower original_name in
  if bool_decide (original_name ≠ lowercase_name) then
    let target := parent item ++ [lowercase_name] in
    let* fs := get_files in
    if negb (path_exists fs target) then
      os_rename item target;;
      ret (S rename_count)
    else ret rename_count
  else ret rename_count.

(** [normalize_filenames] on the listing [listing] of the directory. *)
Definition normalize_filenames_on (listing : list path) : M unit :=
  print MNamesStage;;
  let all_paths := sort_by_depth listing in
  let* rename_count := for_each all_paths 0 lowercase_entry in
  if 0 <? rename_count then print (MLowercased rename_count)
  else print MNoLowercase.

Definition normalize_filenames (hud_dir : path) : M unit :=
  let* fs := get_files in
  normalize_filenames_on (rglob fs hud_dir (fun _ => true)).

(** *** Stage 2: fonts of the clientscheme files *)

Definition normalize_clientscheme_font_paths (file : path) : M bool :=
  log_font_call file;;
  let* content := read_text file in
  let original := content in
  let content := normalize_font_text content in
  if bool_decide (content ≠ original) then
    write_text file content;;
    ret true
  else ret false.

(** [process_clientscheme]; the Python set [visited] is shared by all the
    calls, so it is passed in and handed back together with the count.

    [limit] is the number of nested calls of [process_clientscheme] the
    interpreter still allows: the recursion limit of Python bounds the
    depth of the walk, and going beyond it raises [RecursionError].  (In
    which call below the deepest [process_clientscheme] the interpreter
    raises it depends on the interpreter; the model raises it on entry.)
    [fuel] is the bound that makes the definition structurally recursive;
    the walk never uses it up.

    [resolve] raises [ValueError] on a null character; [exists] is
    [exists_], which raises on a name that is too long. *)
Fixpoint process_clientscheme (fuel limit : nat) (file : path)
    (st : gset path * nat) : M (gset path * nat) :=
  match fuel, limit with
  | O, _ => out_of_fuel
  | _, O => raise RecursionError
  | S fuel', S limit' =>
      let '(visited, modified_count) := st in
      if has_nul_path file then raise ValueError
      else if bool_decide (file ∈ visited) then ret (visited, modified_count)
      else
        let* present := exists_ file in
        if negb present then ret (visited, modified_count)
        else
          let visited := {[file]} ∪ visited in
          let* changed := normalize_clientscheme_font_paths file in
          let modified_count := if changed then S modified_count else modified_count in
          let* content := read_text file in
          for_each (re_finditer false base_pattern content) (visited, modified_count)
            (fun m st =>
               let base_path := group 1 (snd m) in
               if has_nul base_path then raise ValueError
               else
                 let included_file := join_resolve (parent file) base_path in
                 process_clientscheme fuel' limit' included_file st)
  end.

(** [normalize_clientschemes]: the walk cannot nest deeper than the number
    of entries of the file system, plus one for the call that returns at
    once, which is the fuel given. *)
Definition normalize_clientschemes (limit : nat) (hud_dir : path) : M unit :=
  print MFontsStage;;
  let start_file := hud_dir ++ [txt "resource"; txt "clientscheme.res"] in
  let* present := exists_ start_file in
  if negb present then print MNoClientscheme
  else
    let* fs := get_files in
    let* '(_, modified_count) :=
      process_clientscheme (S (size fs)) limit start_file (∅, 0) in
    if 0 <? modified_count then print (MSchemesModified modified_count)
    else print MNoSchemeChange.

(** *** Stages 3 and 4: paths of the cfg and res files *)

Definition process_cfg_files (hud_dir : path) (hud_name : text) : M unit :=
  let cfg_folder := hud_dir ++ [txt "cfg"] in
  let* fs := get_files in
  if negb (path_exists fs cfg_folder) then print MNoCfgFolder
  else
    let cfg_files := rglob fs cfg_folder (endswith (txt ".cfg")) in
    let* modified_count :=
      for_each cfg_files 0 (fun file modified_count =>
        let* content := read_text file in
        let original := content in
        let content := normalize_cfg_echo_paths content hud_name in
        if bool_decide (content ≠ original) then
          write_text file content;;
          ret (S modified_count)
        else ret modified_count) in
    if 0 <? modified_count then print (MCfgModified modified_count)
    else print MNoCfgChange.

Definition process_res_files (hud_dir : path) : M unit :=
  let* fs := get_files in
  let res_files := rglob fs hud_dir (endswith (txt ".res")) in
  let* modified_count :=
    for_each res_files 0 (fun file modified_count =>
      let* content := read_text file in
      let original := content in
      let relative_path := drop (length hud_dir) file in
      let file_depth := length relative_path - 1 in
      let content := normalize_cfg_paths_in_res content file_depth in
      let content := normalize_res_base_paths content in
      let content := normalize_schema_declarations content in
      if bool_decide (content ≠ original) then
        write_text file content;;
        ret (S modified_count)
      else ret modified_count) in
  if 0 <? modified_count then print (MResModified modified_count)
  else print MNoResChange.

Definition normalize_logbase_paths (hud_dir : path) : M unit :=
  print MLogbaseStage;;
  let hud_name := basename hud_dir in
  process_cfg_files hud_dir hud_name;;
  process_res_files hud_dir.

(** *** The entry point *)

(** [main] with [sys.argv = argv], run in the directory [cwd] by an
    interpreter that allows [limit] nested calls of
    [process_clientscheme]. *)
Definition main (limit : nat) (cwd : path) (argv : list text) : M unit :=
  match argv with
  | [] | [_] =>
      print MUsage;;
      print MUsageHelp;;
      sys_exit 1
  | _ :: hud_folder_name :: _ =>
      let* fs := get_files in
      match locate fs cwd hud_folder_name with
      | NameTooLong => raise OSError
      | Nowhere _ => print (MNotFound hud_folder_name);; sys_exit 1
      | At hud_path =>
          if negb (path_exists fs hud_path) then
            print (MNotFound hud_folder_name);; sys_exit 1
          else if negb (is_dir fs hud_path) then
            print (MNotDir hud_folder_name);; sys_exit 1
          else
            print (MTarget hud_folder_name);;
            let lower_folder_name := lower hud_folder_name in
            let* hud_path :=
              if bool_decide (hud_folder_name ≠ lower_folder_name) then
                print (MRenaming hud_folder_name lower_folder_name);;
                match locate fs cwd lower_folder_name with
                | NameTooLong => raise OSError
                | Nowhere e => raise e
                | At lower_hud_path =>
                    os_rename hud_path lower_hud_path;;
                    ret lower_hud_path
                end
              else ret hud_path in
            normalize_filenames hud_path;;
            normalize_clientschemes limit hud_path;;
            normalize_logbase_paths hud_path;;
            print MComplete;;
            print (MReady hud_path)
      end
  end.

(** The exit status of the process. *)
Definition exit_status {A} (o : outcome A) : nat :=
  match o with
  | Ok _ => 0
  | Exit n => n
  | Raise _ => 1
  | NoFuel => 1
  end.


(** ** Definitions used by the properties *)

(** The character before the position reached after reading [w]. *)
Definition last_of (prev : option ascii) (w : text) : option ascii :=
  match last w with
  | Some x => Some x
  | None => prev
  end.

(** [Matches ic r prev w rest c c']: the pattern [r] can match the text [w]
    when [prev] precedes it and [rest] follows it, changing the captures
    from [c] to [c'].  This is the language of the pattern, without the
    priorities of the matcher. *)
Inductive Matches (ic : bool) : regex -> option ascii -> text -> text -> caps -> caps -> Prop :=
| M_Eps prev rest c : Matches ic Eps prev [] rest c c
| M_Chr a x prev rest c :
    chr_eq ic a x = true -> Matches ic (Chr a) prev [x] rest c c
| M_Any x prev rest c :
    Ascii.eqb x newline = false -> Matches ic Any prev [x] rest c c
| M_Space x prev rest c :
    is_space x = true -> Matches ic Space prev [x] rest c c
| M_OneOf l x prev rest c :
    chr_in ic l x = true -> Matches ic (OneOf l) prev [x] rest c c
| M_NoneOf l x prev rest c :
    chr_in ic l x = false -> Matches ic (NoneOf l) prev [x] rest c c
| M_Bol prev rest c :
    at_bol prev = true -> Matches ic Bol prev [] rest c c
| M_Seq r1 r2 prev w1 w2 rest c c1 c2 :
    Matches ic r1 prev w1 (w2 ++ rest) c c1 ->
    Matches ic r2 (last_of prev w1) w2 rest c1 c2 ->
    Matches ic (Seq r1 r2) prev (w1 ++ w2) rest c c2
| M_AltL r1 r2 prev w rest c c1 :
    Matches ic r1 prev w rest c c1 -> Matches ic (Alt r1 r2) prev w rest c c1
| M_AltR r1 r2 prev w rest c c1 :
    Matches ic r2 prev w rest c c1 -> Matches ic (Alt r1 r2) prev w rest c c1
| M_StarNil g r prev rest c : Matches ic (Star g r) prev [] rest c c
| M_StarCons g r prev w1 w2 rest c c1 c2 :
    w1 <> [] ->
    Matches ic r prev w1 (w2 ++ rest) c c1 ->
    Matches ic (Star g r) (last_of prev w1) w2 rest c1 c2 ->
    Matches ic (Star g r) prev (w1 ++ w2) rest c c2
| M_Group n r prev w rest c c1 :
    Matches ic r prev w rest c c1 ->
    Matches ic (Group n r) prev w rest c ((n, w) :: c1)
| M_NotAhead r prev rest c :
    rmatch ic unit r prev rest c (fun _ _ _ => Some tt) = None ->
    Matches ic (NotAhead r) prev [] rest c c.

(** The repetition loop of [rmatch], named. *)
Definition star_loop (ic : bool) (A : Type) (r0 : regex) (g : bool) (k : cont A) :=
  fix loop (fuel : nat) (prev : option ascii) (s : text) (c : caps)
      {struct fuel} : option A :=
    match fuel with
    | O => None
    | S fuel' =>
        if g then
          match rmatch ic A r0 prev s c
                  (fun p' s' c' =>
                     if length s' <? length s then loop fuel' p' s' c' else None)
          with
          | Some x => Some x
          | None => k prev s c
          end
        else
          match k prev s c with
          | Some x => Some x
          | None =>
              rmatch ic A r0 prev s c
                (fun p' s' c' =>
                   if length s' <? length s then loop fuel' p' s' c' else None)
          end
    end.

(** The pattern has no capture group. *)
Fixpoint groupless (r : regex) : bool :=
  match r with
  | Seq r1 r2 | Alt r1 r2 => groupless r1 && groupless r2
  | Star _ r0 | NotAhead r0 => groupless r0
  | Group _ _ => false
  | _ => true
  end.

(** [p] occurs in [s]. *)
Definition occurs (p s : text) : Prop := exists u v, s = u ++ p ++ v.

(** The head of a [#base] directive as the patterns of the res passes
    describe it: the word in any case, white space, a double quote. *)
Definition base_head (g : text) : Prop :=
  exists h ws, g = h ++ ws ++ [dquote] /\ lower h = txt "#base"
               /\ ws <> [] /\ forallb is_space ws = true.

(** The head of a [font] entry: the quoted key, white space, a double
    quote. *)
Definition font_head (g : text) : Prop :=
  exists ws, g = quoted (txt "font") ++ ws ++ [dquote]
             /\ ws <> [] /\ forallb is_space ws = true.

(** ** Sample trees *)

(** A HUD folder [myhud] under [/home] with one cfg file holding the
    given text. *)
Definition one_cfg_hud (content : text) : gmap path node :=
  list_to_map
    [ ([txt "home"], Dir);
      ([txt "home"; txt "myhud"], Dir);
      ([txt "home"; txt "myhud"; txt "cfg"], Dir);
      ([txt "home"; txt "myhud"; txt "cfg"; txt "a.cfg"], File content) ].

(** One run of the program on the folder [myhud] from [/home], on a tree,
    with room for 1000 nested calls of the walk, about what the default
    recursion limit of Python leaves (the sample trees need two). *)
Definition run_on (fs : gmap path node) : outcome unit * world :=
  main 1000 [txt "home"] [txt "hud_normalizer.py"; txt "myhud"] (World fs [] []).

(** An [echo] line of a cfg file with both words quoted. *)
Definition echo_line (p : text) : text :=
  txt "echo " ++ quoted (txt "#base") ++ txt " " ++ quoted p.

(** What a walk over the clientscheme files started with the set [visited]
    in the world [w] may end with: the same set of entries, the font pass
    called on files none of which was visited and none twice, and, if the
    walk returns, the visited set grown by exactly those files.  The fuel
    is not used up, and [RecursionError] is raised only when [deep]
    holds. *)
Definition walk_post (deep : Prop) (visited : gset path) (w : world)
    (r : outcome (gset path * nat) * world) : Prop :=
  dom (files (snd r)) = dom (files w)
  /\ exists new : list path,
       fontlog (snd r) = new ++ fontlog w /\ NoDup new
       /\ (forall f, f ∈ new -> f ∉ visited)
       /\ match fst r with
          | Ok (visited', _) => visited' = list_to_set new ∪ visited
          | NoFuel => False
          | Raise e => e = RecursionError -> deep
          | Exit _ => True
          end.

(** A HUD folder whose [clientscheme.res] includes [other.res], which
    includes [clientscheme.res] again. *)
Definition cyclic_hud : gmap path node :=
  list_to_map
    [ ([txt "home"], Dir);
      ([txt "home"; txt "myhud"], Dir);
      ([txt "home"; txt "myhud"; txt "resource"], Dir);
      ([txt "home"; txt "myhud"; txt "resource"; txt "clientscheme.res"],
       File (txt "#base " ++ quoted (txt "other.res") ++ [newline]
             ++ quoted (txt "font") ++ txt " " ++ quoted (txt "A.TTF")));
      ([txt "home"; txt "myhud"; txt "resource"; txt "other.res"],
       File (txt "#base " ++ quoted (txt "clientscheme.res") ++ [newline]
             ++ txt "#base " ++ quoted (txt "missing.res"))) ].

(** Every entry lies in a directory. *)
Definition wf_tree (fs : gmap path node) : Prop :=
  forall k, is_Some (fs !! k) -> is_dir fs (parent k) = true.

(** The entry [k] has a lowercase name, or the lowercase name is taken by
    another entry of its directory. *)
Definition settled (fs : gmap path node) (k : path) : Prop :=
  lower (basename k) = basename k
  \/ is_Some (fs !! (parent k ++ [lower (basename k)])).

(** The invariant of the loop of [normalize_filenames]: the tree is well
    formed, the entries still to do are where the listing saw them, below
    the HUD folder, and every other entry below it is settled. *)
Definition names_inv (hud_dir : path) (fs : gmap path node) (todo : list path) : Prop :=
  wf_tree fs
  /\ (forall r, r ∈ todo -> is_Some (fs !! r) /\ below hud_dir r = true)
  /\ (forall k, is_Some (fs !! k) -> below hud_dir k = true -> k ∉ todo ->
                settled fs k).

(** The same, as a check. *)
Definition wf_treeb (fs : gmap path node) : bool :=
  forallb (fun kv => is_dir fs (parent (fst kv))) (map_to_list fs).

(** The body shared by the loops of [process_cfg_files] and
    [process_res_files]: read the file, transform its text, write it back
    if it changed.  [tr] is the transformation, which may depend on the
    place of the file. *)
Definition rewrite_file (tr : path -> text -> text) (file : path)
    (modified_count : nat) : M nat :=
  let* content := read_text file in
  let original := content in
  let content := tr file content in
  if bool_decide (content ≠ original) then
    write_text file content;;
    ret (S modified_count)
  else ret modified_count.

(** What the loops may do with the file system of [w]: every entry is as
    before, or is a file that was a file before and is in [l]. *)
Definition rewrites_only (l : list path) (w w' : world) : Prop :=
  dom (files w') = dom (files w) /\ fontlog w' = fontlog w
  /\ forall f, files w' !! f = files w !! f
               \/ (f ∈ l /\ exists d d', files w !! f = Some (File d)
                                         /\ files w' !! f = Some (File d')).

(** The outcome is a return or an uncaught exception: the program was not
    ended by [sys.exit], and the recursion bound of the model was not
    reached. *)
Definition plain {A} (o : outcome A) : Prop :=
  match o with
  | Ok _ | Raise _ => True
  | Exit _ | NoFuel => False
  end.

(** What the first stage does from [w]: it never raises [RecursionError]
    and leaves no more entries than there were. *)
Definition tame {A} (w : world) (r : outcome A * world) : Prop :=
  fst r <> Raise RecursionError /\ size (files (snd r)) <= size (files w).

(** Every entry of [fs] is found in [fs'] with the same content, at a path
    that differs from its own by the case of letters at most. *)
Definition kept (fs fs' : gmap path node) : Prop :=
  forall k n, fs !! k = Some n ->
    exists k', fs' !! k' = Some n /\ map lower k' = map lower k.

(** What the loops of the cfg and res stages leave in place of the file
    content [d]: the transformed text if the transformation changes the
    text read, the old content otherwise. *)
Definition rewritten (tr : path -> text -> text) (file : path) (d : text) : text :=
  let content := universal_newlines d in
  if bool_decide (tr file content ≠ content) then tr file content else d.

(** The file [file] of the file system [fs] is changed by the loop. *)
Definition changes (tr : path -> text -> text) (fs : gmap path node)
    (file : path) : bool :=
  match fs !! file with
  | Some (File d) =>
      bool_decide (tr file (universal_newlines d) ≠ universal_newlines d)
  | _ => false
  end.

(** The file system after the loop over [l]. *)
Definition rewrite_all (tr : path -> text -> text) (l : list path)
    (fs : gmap path node) (f : path) : option node :=
  match fs !! f with
  | Some (File d) => if bool_decide (f ∈ l) then Some (File (rewritten tr f d))
                     else Some (File d)
  | o => o
  end.

(** Every path of [l] is a file of [fs], as a check. *)
Definition all_files (fs : gmap path node) (l : list path) : bool :=
  forallb (fun f => match fs !! f with Some (File _) => true | _ => false end) l.

(** * Properties *)

(** ** The matcher *)

Lemma rmatch_Star ic A g r0 prev s c k :
  rmatch ic A (Star g r0) prev s c k = star_loop ic A r0 g k (S (length s)) prev s c.
Proof. reflexivity. Qed.

Lemma last_of_app prev w1 w2 : last_of (last_of prev w1) w2 = last_of prev (w1 ++ w2).
Proof.
  unfold last_of. rewrite last_app. destruct (last w2); reflexivity.
Qed.

Lemma take_app_diff (w rest : text) : take (length (w ++ rest) - length rest) (w ++ rest) = w.
Proof.
  rewrite length_app. replace (length w + length rest - length rest) with (length w) by lia.
  by rewrite take_app_length.
Qed.

Section Soundness.
Context (ic : bool) {A : Type}.

Definition sound_at (r : regex) : Prop :=
  forall prev s c (k : cont A) x,
    rmatch ic A r prev s c k = Some x ->
    exists w rest c', s = w ++ rest /\ Matches ic r prev w rest c c'
                      /\ k (last_of prev w) rest c' = Some x.

Lemma sound_class (p : ascii -> bool) (r : regex) :
  (forall prev s c (k : cont A),
      rmatch ic A r prev s c k =
      match s with x :: s' => if p x then k (Some x) s' c else None | [] => None end) ->
  (forall x prev rest c, p x = true -> Matches ic r prev [x] rest c c) ->
  sound_at r.
Proof.
  intros Heq Hm prev s c k x. rewrite Heq. destruct s as [|a s']; [done|].
  destruct (p a) eqn:Hp; [|done]. intros Hk.
  exists [a], s', c. split; [done|]. split; [by apply Hm|done].
Qed.

Lemma rmatch_sound r : sound_at r.
Proof.
  induction r as [ | a | | | l | l | | r1 IH1 r2 IH2 | r1 IH1 r2 IH2
                 | g r0 IH | n r0 IH | r0 IH ].
  - intros prev s c k x Hk. exists [], s, c. repeat split; [constructor|done].
  - apply (sound_class (chr_eq ic a)); [done|]. intros. by constructor.
  - apply (sound_class (fun x => negb (Ascii.eqb x newline))).
    + intros prev [|x s'] c k; [done|]. simpl. by destruct (Ascii.eqb x newline).
    + intros. constructor. by apply negb_true_iff.
  - apply (sound_class is_space); [done|]. intros. by constructor.
  - apply (sound_class (chr_in ic l)); [done|]. intros. by constructor.
  - apply (sound_class (fun x => negb (chr_in ic l x))).
    + intros prev [|x s'] c k; [done|]. simpl. by destruct (chr_in ic l x).
    + intros. constructor. by apply negb_true_iff.
  - intros prev s c k x. simpl. destruct (at_bol prev) eqn:Hb; [|done]. intros Hk.
    exists [], s, c. repeat split; [by constructor|done].
  - intros prev s c k x. simpl. intros H.
    apply IH1 in H as (w1 & s1 & c1 & -> & Hm1 & H).
    apply IH2 in H as (w2 & rest & c2 & -> & Hm2 & H).
    exists (w1 ++ w2), rest, c2. rewrite <- app_assoc. split; [done|].
    split; [by econstructor|]. by rewrite <- last_of_app.
  - intros prev s c k x. simpl.
    destruct (rmatch ic A r1 prev s c k) eqn:H1.
    + intros [= ->]. apply IH1 in H1 as (w & rest & c' & -> & Hm & H).
      exists w, rest, c'. repeat split; [by apply M_AltL|done].
    + intros H2. apply IH2 in H2 as (w & rest & c' & -> & Hm & H).
      exists w, rest, c'. repeat split; [by apply M_AltR|done].
  - intros prev s c k x. rewrite rmatch_Star. generalize (S (length s)) as fuel.
    intros fuel. revert prev s c x.
    induction fuel as [|fuel IHf]; intros prev s c x; [done|].
    assert (Hmore : rmatch ic A r0 prev s c
              (fun p' s' c' => if length s' <? length s
                               then star_loop ic A r0 g k fuel p' s' c' else None) = Some x ->
            exists w rest c', s = w ++ rest /\ Matches ic (Star g r0) prev w rest c c'
                              /\ k (last_of prev w) rest c' = Some x).
    { intros H. apply IH in H as (w1 & s1 & c1 & -> & Hm1 & H).
      destruct (length s1 <? length (w1 ++ s1)) eqn:Hlt; [|done].
      apply Nat.ltb_lt in Hlt. rewrite length_app in Hlt.
      apply IHf in H as (w2 & rest & c2 & -> & Hm2 & H).
      exists (w1 ++ w2), rest, c2. rewrite <- app_assoc. split; [done|].
      split; [|by rewrite <- last_of_app].
      econstructor; [|done..]. intros ->. simpl in Hlt. lia. }
    assert (Hstop : k prev s c = Some x ->
            exists w rest c', s = w ++ rest /\ Matches ic (Star g r0) prev w rest c c'
                              /\ k (last_of prev w) rest c' = Some x).
    { intros H. exists [], s, c. repeat split; [constructor|done]. }
    simpl. destruct g.
    + destruct (rmatch ic A r0 prev s c _) eqn:H1.
      * intros [= ->]. by apply Hmore.
      * apply Hstop.
    + destruct (k prev s c) eqn:H1.
      * intros [= ->]. by apply Hstop.
      * apply Hmore.
  - intros prev s c k x. simpl. intros H.
    apply IH in H as (w & rest & c' & -> & Hm & H).
    rewrite take_app_diff in H.
    exists w, rest, ((n, w) :: c'). repeat split; [by constructor|done].
  - intros prev s c k x. simpl.
    destruct (rmatch ic unit r0 prev s c _) eqn:H1; [done|]. intros H.
    exists [], s, c. repeat split; [by constructor|done].
Qed.
End Soundness.

Lemma match_at_sound ic r prev s c rest :
  match_at ic r prev s = Some (c, rest) ->
  exists w, s = w ++ rest /\ Matches ic r prev w rest [] c.
Proof.
  unfold match_at. intros H. apply rmatch_sound in H as (w & rest' & c' & -> & Hm & [= <- <-]).
  by exists w.
Qed.

(** ** Text primitives *)

Ltac ascii_cases a :=
  destruct a as [[] [] [] [] [] [] [] []].

Lemma lower_char_idem a : lower_char (lower_char a) = lower_char a.
Proof. ascii_cases a; reflexivity. Qed.

Lemma lower_idem s : lower (lower s) = lower s.
Proof.
  unfold lower. rewrite map_map. apply map_ext. intros a. apply lower_char_idem.
Qed.

Lemma lower_app s t : lower (s ++ t) = lower s ++ lower t.
Proof. apply map_app. Qed.

Lemma lower_length s : length (lower s) = length s.
Proof. apply length_map. Qed.

Lemma lower_char_is_upper a : lower_char a = a <-> is_upper a = false.
Proof. ascii_cases a; vm_compute; split; congruence. Qed.

(** A name differs from its lowercase form exactly when it holds an
    uppercase letter. *)
Lemma lower_neq_iff s : lower s <> s <-> existsb is_upper s = true.
Proof.
  induction s as [|a s IH].
  - simpl. split; [congruence|discriminate].
  - change (lower (a :: s)) with (lower_char a :: lower s). cbn [existsb].
    rewrite orb_true_iff. destruct (is_upper a) eqn:Ha.
    + split; [auto|]. intros _ [= H _]. apply lower_char_is_upper in H. congruence.
    + apply lower_char_is_upper in Ha. rewrite Ha. split.
      * intros H. right. apply IH. intros E. apply H. by rewrite E.
      * intros [?|H]; [done|]. apply IH in H. intros [= E]. by apply H.
Qed.

Lemma startswith_spec p s : startswith p s = true <-> exists v, s = p ++ v.
Proof.
  revert s. induction p as [|a p IH]; intros s; simpl.
  - split; [intros _; by exists s|done].
  - destruct s as [|b s].
    + split; [done|]. by intros [v ?].
    + rewrite andb_true_iff, IH. split.
      * intros [Hab [v ->]]. apply Ascii.eqb_eq in Hab as ->. by exists v.
      * intros [v [= -> ->]]. split; [apply Ascii.eqb_refl|by exists v].
Qed.

Lemma startswith_app p v : startswith p (p ++ v) = true.
Proof. apply startswith_spec. by exists v. Qed.

Lemma contains_spec p s : contains p s = true <-> occurs p s.
Proof.
  unfold occurs. induction s as [|b s IH]; simpl.
  - rewrite orb_false_r, startswith_spec. split.
    + intros [v Hv]. by exists [], v.
    + intros (u & v & H). symmetry in H. apply app_eq_nil in H as [-> H].
      apply app_eq_nil in H as [-> ->]. by exists [].
  - rewrite orb_true_iff, startswith_spec, IH. split.
    + intros [[v Hv] | (u & v & ->)].
      * by exists [], v.
      * by exists (b :: u), v.
    + intros ([|a u] & v & H); simpl in H.
      * left. by exists v.
      * injection H as -> ->. right. by exists u, v.
Qed.

Lemma contains_false_not_occurs p s : contains p s = false <-> ~ occurs p s.
Proof. rewrite <- contains_spec. by destruct (contains p s). Qed.

Lemma leading_ups_unfold s :
  leading_ups s =
  if startswith (txt "../") s then S (leading_ups (drop 3 s)) else 0.
Proof.
  destruct s as [|a [|b [|c s]]].
  - reflexivity.
  - ascii_cases a; reflexivity.
  - ascii_cases a; try reflexivity. ascii_cases b; reflexivity.
  - ascii_cases a; try reflexivity. ascii_cases b; try reflexivity.
    ascii_cases c; reflexivity.
Qed.

Lemma extract_unfold s :
  extract_path_after_parents s =
  if startswith (txt "../") s then extract_path_after_parents (drop 3 s) else s.
Proof.
  destruct s as [|a [|b [|c s]]].
  - reflexivity.
  - ascii_cases a; reflexivity.
  - ascii_cases a; try reflexivity. ascii_cases b; reflexivity.
  - ascii_cases a; try reflexivity. ascii_cases b; try reflexivity.
    ascii_cases c; reflexivity.
Qed.

(** Induction along the leading [../] segments of a text. *)
Lemma ups_ind (P : text -> Prop) :
  (forall s, startswith (txt "../") s = false -> P s) ->
  (forall s, P s -> P (txt "../" ++ s)) ->
  forall s, P s.
Proof.
  intros H0 H1 s. remember (length s) as n eqn:Hn.
  revert s Hn. induction n as [n IH] using lt_wf_ind. intros s ->.
  destruct (startswith (txt "../") s) eqn:Hs; [|by apply H0].
  apply startswith_spec in Hs as [v ->]. apply H1.
  apply (IH (length v)); [|done]. rewrite length_app. simpl. lia.
Qed.

Lemma leading_ups_cons3 s : leading_ups (txt "../" ++ s) = S (leading_ups s).
Proof. reflexivity. Qed.

Lemma extract_cons3 s :
  extract_path_after_parents (txt "../" ++ s) = extract_path_after_parents s.
Proof. reflexivity. Qed.

(** [extract_path_after_parents] removes exactly the leading run. *)
Lemma extract_split s : s = ups (leading_ups s) ++ extract_path_after_parents s.
Proof.
  induction s as [s Hs | s IH] using ups_ind.
  - by rewrite leading_ups_unfold, extract_unfold, Hs.
  - rewrite leading_ups_cons3, extract_cons3. simpl. by rewrite <- IH.
Qed.

Lemma extract_no_up s : startswith (txt "../") (extract_path_after_parents s) = false.
Proof.
  induction s as [s Hs | s IH] using ups_ind.
  - by rewrite extract_unfold, Hs.
  - by rewrite extract_cons3.
Qed.

Lemma leading_ups_ups n s : leading_ups (ups n ++ s) = n + leading_ups s.
Proof. induction n as [|n IH]; [done|]. simpl ups. simpl app. change (leading_ups (txt "../" ++ (ups n ++ s)) = S n + leading_ups s). rewrite leading_ups_cons3, IH. done. Qed.

Lemma lower_ups n : lower (ups n) = ups n.
Proof. induction n as [|n IH]; [done|]. simpl. by rewrite <- IH at 2. Qed.

Lemma startswith_up_lower s :
  startswith (txt "../") (lower s) = startswith (txt "../") s.
Proof.
  destruct s as [|a [|b [|c s]]]; simpl.
  - reflexivity.
  - ascii_cases a; reflexivity.
  - ascii_cases a; try reflexivity. ascii_cases b; reflexivity.
  - ascii_cases a; try reflexivity. ascii_cases b; try reflexivity.
    ascii_cases c; reflexivity.
Qed.

Lemma leading_ups_lower s : leading_ups (lower s) = leading_ups s.
Proof.
  induction s as [s Hs | s IH] using ups_ind.
  - rewrite (leading_ups_unfold (lower s)), (leading_ups_unfold s).
    by rewrite startswith_up_lower, Hs.
  - rewrite lower_app. change (lower (txt "../")) with (txt "../").
    by rewrite !leading_ups_cons3, IH.
Qed.

Lemma leading_ups_0 s : startswith (txt "../") s = false -> leading_ups s = 0.
Proof. intros H. by rewrite leading_ups_unfold, H. Qed.

(** ** Scanning and substitution *)

Lemma Matches_groupless ic r prev w rest c c' :
  groupless r = true -> Matches ic r prev w rest c c' -> c' = c.
Proof.
  intros Hg Hm. induction Hm; simpl in Hg; try done.
  - apply andb_true_iff in Hg as [H1 H2]. rewrite IHHm2, IHHm1; done.
  - apply andb_true_iff in Hg as [H1 H2]. auto.
  - apply andb_true_iff in Hg as [H1 H2]. auto.
  - rewrite IHHm2, IHHm1; done.
Qed.

Lemma last_of_cons prev a u : last_of prev (a :: u) = last_of (Some a) u.
Proof.
  unfold last_of. destruct u as [|b u]; [done|].
  change (last (a :: b :: u)) with (last (b :: u)).
  destruct (last (b :: u)) eqn:E; [done|].
  by apply last_None in E.
Qed.

Lemma scan_cons ic r prev a s skip :
  scan ic r prev (a :: s) skip =
  match skip with
  | S n => scan ic r (Some a) s n
  | O =>
      match match_at ic r prev (a :: s) with
      | Some (c, rest) =>
          match length (a :: s) - length rest with
          | O => Skip a :: scan ic r (Some a) s 0
          | S n => Hit (take (S n) (a :: s)) c :: scan ic r (Some a) s n
          end
      | None => Skip a :: scan ic r (Some a) s 0
      end
  end.
Proof. reflexivity. Qed.

(** The pieces of a scan spell the text scanned. *)
Lemma scan_raw ic r prev s skip :
  concat (map raw (scan ic r prev s skip)) = drop skip s.
Proof.
  revert prev skip. induction s as [|a s IH]; intros prev skip.
  - by destruct skip.
  - rewrite scan_cons. destruct skip as [|n]; [|apply IH].
    destruct (match_at ic r prev (a :: s)) as [[c rest]|] eqn:Hm.
    + destruct (length (a :: s) - length rest) as [|n] eqn:Hn.
      * cbn [map raw concat]. by rewrite IH.
      * cbn [map raw concat]. rewrite IH. cbn [take app drop]. f_equal.
        apply take_drop.
    + cbn [map raw concat]. by rewrite IH.
Qed.

(** Every match reported by a scan is a match of the pattern at some
    position of the text. *)
Lemma scan_hit ic r prev s skip w c :
  Hit w c ∈ scan ic r prev s skip ->
  exists u rest, s = u ++ w ++ rest /\ w <> [] /\
    match_at ic r (last_of prev u) (w ++ rest) = Some (c, rest).
Proof.
  revert prev skip. induction s as [|a s IH]; intros prev skip.
  - simpl. by intros ?%elem_of_nil.
  - assert (Hrec : forall n, Hit w c ∈ scan ic r (Some a) s n ->
        exists u rest, a :: s = u ++ w ++ rest /\ w <> [] /\
          match_at ic r (last_of prev u) (w ++ rest) = Some (c, rest)).
    { intros n H. apply IH in H as (u & rest & -> & Hw & H).
      exists (a :: u), rest. split; [done|]. split; [done|].
      by rewrite last_of_cons. }
    rewrite scan_cons. destruct skip as [|n]; [|apply Hrec].
    destruct (match_at ic r prev (a :: s)) as [[c0 rest]|] eqn:Hm.
    + destruct (length (a :: s) - length rest) as [|n] eqn:Hn.
      * intros [?|H]%elem_of_cons; [done|]. by apply (Hrec 0).
      * intros [E|H]%elem_of_cons; [|by apply (Hrec n)].
        apply match_at_sound in Hm as Hs. destruct Hs as (w0 & Hs & _).
        assert (Hw0 : take (length (a :: s) - length rest) (a :: s) = w0).
        { rewrite Hs. apply take_app_diff. }
        rewrite Hn in Hw0. rewrite Hw0 in E. injection E as -> ->.
        exists [], rest. split; [done|]. split.
        { intros ->. rewrite Hs in Hn. cbn [app] in Hn. lia. }
        rewrite <- Hs. done.
    + intros [?|H]%elem_of_cons; [done|]. by apply (Hrec 0).
Qed.

(** A match found by a scan belongs to the language of the pattern. *)
Lemma scan_hit_Matches ic r s w c :
  Hit w c ∈ scan ic r None s 0 ->
  exists u rest, s = u ++ w ++ rest /\ w <> [] /\
    Matches ic r (last_of None u) w rest [] c.
Proof.
  intros H. apply scan_hit in H as (u & rest & -> & Hw & H).
  apply match_at_sound in H as (w' & Hs & Hm).
  apply app_inv_tail in Hs as <-. by exists u, rest.
Qed.

(** When the pattern matches nowhere, the scan copies the text. *)
Lemma scan_no_match ic r prev s :
  (forall u v, s = u ++ v -> match_at ic r (last_of prev u) v = None) ->
  scan ic r prev s 0 = map Skip s.
Proof.
  revert prev. induction s as [|a s IH]; intros prev H; [done|].
  rewrite scan_cons. pose proof (H [] (a :: s) eq_refl) as H0.
  change (last_of prev []) with prev in H0. rewrite H0. cbn [map]. f_equal.
  apply IH.
  intros u v ->. specialize (H (a :: u) v eq_refl).
  by rewrite last_of_cons in H.
Qed.

Lemma re_sub_no_match ic r repl s :
  (forall prev v, suffix v s -> match_at ic r prev v = None) ->
  re_sub ic r repl s = s.
Proof.
  intros H. unfold re_sub. rewrite scan_no_match.
  - rewrite map_map. simpl. induction s as [|a s IH]; [done|]. simpl. f_equal.
    apply IH. intros prev v [u ->]. apply H. exists (a :: u). done.
  - intros u v ->. apply H. by exists u.
Qed.

(** The shape of a match of a pattern made of three consecutive groups
    without inner groups: the groups split the match. *)
Lemma three_groups ic r1 r2 r3 prev w rest c :
  groupless r1 = true -> groupless r2 = true -> groupless r3 = true ->
  Matches ic (Seq (Group 1 r1) (Seq (Group 2 r2) (Group 3 r3))) prev w rest [] c ->
  exists w1 w2 w3,
    w = w1 ++ w2 ++ w3 /\ c = [(3, w3); (2, w2); (1, w1)] /\
    Matches ic r1 prev w1 (w2 ++ w3 ++ rest) [] [] /\
    Matches ic r2 (last_of prev w1) w2 (w3 ++ rest) [(1, w1)] [(1, w1)] /\
    Matches ic r3 (last_of (last_of prev w1) w2) w3 rest
      [(2, w2); (1, w1)] [(2, w2); (1, w1)].
Proof.
  intros G1 G2 G3 H.
  inversion H as [| | | | | | |? ? ? w1 w23 ? ? c1 ? H1 H23| | | | | |]; subst.
  inversion H23 as [| | | | | | |? ? ? w2 w3 ? ? c2 ? H2 H3| | | | | |]; subst.
  inversion H1 as [| | | | | | | | | | | |? ? ? ? ? ? c1' H1'|]; subst.
  inversion H2 as [| | | | | | | | | | | |? ? ? ? ? ? c2' H2'|]; subst.
  inversion H3 as [| | | | | | | | | | | |? ? ? ? ? ? c3' H3'|]; subst.
  pose proof (Matches_groupless _ _ _ _ _ _ _ G1 H1') as ->.
  pose proof (Matches_groupless _ _ _ _ _ _ _ G2 H2') as ->.
  pose proof (Matches_groupless _ _ _ _ _ _ _ G3 H3') as ->.
  exists w1, w2, w3. rewrite <- app_assoc in H1'. done.
Qed.

(** ** Shapes of the matches of the patterns *)

Ltac inv_matches :=
  repeat match goal with
  | H : Matches _ (Seq _ _) _ _ _ _ _ |- _ => inversion H; subst; clear H
  | H : Matches _ (Chr _) _ _ _ _ _ |- _ => inversion H; subst; clear H
  | H : Matches _ (Alt _ _) _ _ _ _ _ |- _ => inversion H; subst; clear H
  | H : Matches _ Eps _ _ _ _ _ |- _ => inversion H; subst; clear H
  | H : Matches _ Space _ _ _ _ _ |- _ => inversion H; subst; clear H
  | H : Matches _ (OneOf _) _ _ _ _ _ |- _ => inversion H; subst; clear H
  | H : Matches _ (NoneOf _) _ _ _ _ _ |- _ => inversion H; subst; clear H
  | H : Matches _ Any _ _ _ _ _ |- _ => inversion H; subst; clear H
  end.

(** What a greedy or lazy run of a class of characters matches. *)
Lemma Matches_star_class ic g r (p : ascii -> bool) prev w rest c c' :
  (forall prev x rest c c', Matches ic r prev x rest c c' ->
     exists a, x = [a] /\ p a = true) ->
  Matches ic (Star g r) prev w rest c c' -> forallb p w = true.
Proof.
  intros Hr H. remember (Star g r) as s eqn:Hs.
  induction H; try discriminate; [done|].
  injection Hs as -> ->.
  apply Hr in H0 as (a & -> & Ha). simpl. rewrite Ha. simpl. by apply IHMatches2.
Qed.

Lemma Matches_spaces ic g prev w rest c c' :
  Matches ic (Star g Space) prev w rest c c' -> forallb is_space w = true.
Proof.
  apply Matches_star_class. intros ? ? ? ? ? H. inversion H; subst. eauto.
Qed.

Lemma chr_eq_lower a x : chr_eq true a x = true -> lower_char x = lower_char a.
Proof. unfold chr_eq. intros H. by apply Ascii.eqb_eq in H. Qed.

Lemma chr_eq_dquote ic x : chr_eq ic dquote x = true -> x = dquote.
Proof.
  destruct ic; unfold chr_eq; intros H; apply Ascii.eqb_eq in H; [|done].
  revert H. ascii_cases x; vm_compute; congruence.
Qed.

Lemma Matches_base_head prev w rest c c' :
  Matches true (Seqs [Lit (txt "#base"); Plus Space; Chr dquote]) prev w rest c c' ->
  base_head w.
Proof.
  cbn. unfold Plus. intros H. inv_matches.
  match goal with H : Matches _ (Star _ _) _ _ _ _ _ |- _ =>
    apply Matches_spaces in H; rename H into Hws end.
  match goal with H : is_space _ = true |- _ => rename H into Hsp end.
  repeat match goal with H : chr_eq true _ _ = true |- _ =>
    first [apply chr_eq_dquote in H; subst | apply chr_eq_lower in H] end.
  match goal with |- base_head (?h ++ (?sp ++ ?tl) ++ ?q) =>
    exists h, (sp ++ tl) end.
  split; [done|]. split.
  { cbn. repeat match goal with H : lower_char _ = lower_char _ |- _ =>
      rewrite H; clear H end. reflexivity. }
  split; [done|]. cbn. by rewrite Hsp, Hws.
Qed.

(** ** The cfg pass on res files *)

Lemma cfg_base_hit content w c :
  Hit w c ∈ scan true cfg_base_re None content 0 ->
  exists g1 g2 g3, c = [(3, g3); (2, g2); (1, g1)] /\ w = g1 ++ g2 ++ g3
                   /\ base_head g1 /\ g3 = [dquote].
Proof.
  intros H. apply scan_hit_Matches in H as (u & rest & _ & _ & H).
  apply three_groups in H as (g1 & g2 & g3 & -> & -> & H1 & _ & H3); [|done..].
  exists g1, g2, g3. split; [done|]. split; [done|].
  split; [by eapply Matches_base_head|].
  inversion H3; subst. by match goal with H : chr_eq _ _ _ = true |- _ =>
    apply chr_eq_dquote in H as -> end.
Qed.

Lemma cfg_path_reprefixed d path :
  contains (txt "/cfg/") (to_slashes path) = true ->
  count (txt "../") (to_slashes path) <> d + 2 ->
  cfg_path d path
  = ups (d + 2) ++ lower (extract_path_after_parents (to_slashes path)).
Proof.
  intros Hc Hn. unfold cfg_path, CFG_DEPTH_OFFSET. rewrite Hc.
  apply Nat.eqb_neq in Hn. rewrite Hn. simpl negb. cbv iota.
  by rewrite lower_app, lower_ups.
Qed.

Lemma cfg_path_kept d path :
  contains (txt "/cfg/") (to_slashes path) = false
  \/ count (txt "../") (to_slashes path) = d + 2 ->
  cfg_path d path = lower (to_slashes path).
Proof.
  unfold cfg_path, CFG_DEPTH_OFFSET. intros [->| ->]; [done|].
  rewrite Nat.eqb_refl. simpl. by destruct (contains _ _).
Qed.

Lemma cfg_path_lowercase d path : lower (cfg_path d path) = cfg_path d path.
Proof. unfold cfg_path. apply lower_idem. Qed.

(** C2, as stated, fails: the path [cfg/x.txt] of a file at depth 0 holds
    [cfg] and no [../] at all, yet it is left without the two leading
    [../] segments, because it has no [/cfg/] segment. *)
Lemma cfg_base_without_slash_untouched :
  count (txt "../") (txt "cfg/x.txt") <> 0 + 2
  /\ normalize_cfg_paths_in_res (txt "#base " ++ quoted (txt "cfg/x.txt")) 0
     = txt "#base " ++ quoted (txt "cfg/x.txt").
Proof. split; [vm_compute; lia|vm_compute; reflexivity]. Qed.

Lemma render_app repl l1 l2 :
  render repl (l1 ++ l2) = render repl l1 ++ render repl l2.
Proof. unfold render. by rewrite map_app, concat_app. Qed.

Lemma render_split repl (pieces : list piece) w c :
  Hit w c ∈ pieces ->
  exists before after,
    pieces = before ++ Hit w c :: after
    /\ concat (map raw pieces) = concat (map raw before) ++ w ++ concat (map raw after)
    /\ render repl pieces = render repl before ++ repl w c ++ render repl after.
Proof.
  intros (before & after & ->)%list_elem_of_split. exists before, after.
  split; [done|]. split.
  - by rewrite map_app, concat_app.
  - by rewrite render_app.
Qed.

(** C2 (amended): the cfg pass on the text of a res file at depth [d]
    copies every character outside the [#base] directives its pattern
    matches and replaces each matched directive; a matched directive
    consists of its head, its path and the closing quote, and only the path
    is rewritten: backslashes become slashes; when the path then holds a
    [/cfg/] segment and its count of [../] differs from [d + 2], the result
    is exactly [d + 2] leading [../] segments followed by the path stripped
    of its leading [../] run; otherwise the path is not re-prefixed; in
    every case the final path is lowercase. *)
Theorem cfg_base_prefixing (d : nat) (content : text) :
  let pieces := scan true cfg_base_re None content 0 in
  concat (map raw pieces) = content
  /\ normalize_cfg_paths_in_res content d = render (normalize_cfg_path d) pieces
  /\ forall w c, Hit w c ∈ pieces ->
       w = group 1 c ++ group 2 c ++ group 3 c
       /\ base_head (group 1 c) /\ group 3 c = [dquote]
       /\ normalize_cfg_path d w c
          = group 1 c ++ cfg_path d (group 2 c) ++ group 3 c
       /\ (contains (txt "/cfg/") (to_slashes (group 2 c)) = true ->
           count (txt "../") (to_slashes (group 2 c)) <> d + 2 ->
           cfg_path d (group 2 c)
           = ups (d + 2)
             ++ lower (extract_path_after_parents (to_slashes (group 2 c)))
           /\ leading_ups (cfg_path d (group 2 c)) = d + 2)
       /\ (contains (txt "/cfg/") (to_slashes (group 2 c)) = false
           \/ count (txt "../") (to_slashes (group 2 c)) = d + 2 ->
           cfg_path d (group 2 c) = lower (to_slashes (group 2 c)))
       /\ lower (cfg_path d (group 2 c)) = cfg_path d (group 2 c).
Proof.
  intros pieces. split; [apply (scan_raw true cfg_base_re None content 0)|].
  split; [reflexivity|]. intros w c H.
  apply cfg_base_hit in H as (g1 & g2 & g3 & -> & -> & Hh & ->).
  cbn [group Nat.eqb]. repeat split; try done.
  - by apply cfg_path_reprefixed.
  - rewrite cfg_path_reprefixed by done.
    rewrite leading_ups_ups, leading_ups_lower, leading_ups_0; [lia|].
    apply extract_no_up.
  - apply cfg_path_kept.
  - apply cfg_path_lowercase.
Qed.

(** The example of the specification: depth 2, three [../] become four,
    in a text with a line before and a line after the directive. *)
Lemma cfg_base_prefixing_witness :
  let w := txt "#base " ++ quoted (txt "../../../cfg/Bar.cfg") in
  let content := txt "x" ++ [newline] ++ w ++ [newline] ++ txt "Y" in
  let c := [(3, [dquote]); (2, txt "../../../cfg/Bar.cfg");
            (1, txt "#base " ++ [dquote])] in
  Hit w c ∈ scan true cfg_base_re None content 0
  /\ cfg_path 2 (group 2 c) = txt "../../../../cfg/bar.cfg"
  /\ leading_ups (cfg_path 2 (group 2 c)) = 2 + 2
  /\ normalize_cfg_paths_in_res content 2
     = txt "x" ++ [newline]
       ++ txt "#base " ++ quoted (txt "../../../../cfg/bar.cfg")
       ++ [newline] ++ txt "Y".
Proof.
  intros w content c.
  assert (H : Hit w c ∈ scan true cfg_base_re None content 0).
  { vm_compute. do 2 apply list_elem_of_further. apply list_elem_of_here. }
  split; [exact H|].
  destruct (cfg_base_prefixing 2 content) as (_ & P & Hhit).
  destruct (Hhit w c H) as (_ & _ & _ & _ & Hre & _).
  destruct Hre as [E L]; [vm_compute; reflexivity | vm_compute; lia |].
  split; [vm_compute; reflexivity|]. split; [exact L|].
  rewrite P. vm_compute. reflexivity.
Defined.



Example cfg_total_count_example :
  normalize_cfg_paths_in_res
    (txt "#BASE " ++ quoted (txt "..\A/../cfg/X.txt") ++ txt " // y") 0
  = txt "#BASE " ++ quoted (txt "../a/../cfg/x.txt") ++ txt " // y".
Proof. vm_compute. reflexivity. Qed.

(** ** The echo pass on cfg files *)

Lemma Matches_Lit_exact l prev w rest c c' :
  Matches false (Lit l) prev w rest c c' -> w = l /\ c' = c.
Proof.
  revert prev w c c'. induction l as [|a l IH]; intros prev w c c' H.
  - inversion H; subst. done.
  - destruct l as [|b l].
    + inversion H; subst. unfold chr_eq in *.
      match goal with E : Ascii.eqb _ _ = true |- _ => apply Ascii.eqb_eq in E as -> end.
      done.
    + change (Lit (a :: b :: l)) with (Seq (Chr a) (Lit (b :: l))) in H.
      inversion H as [| | | | | | |? ? ? w1 w2 ? ? c1 ? H1 H2| | | | | |]; subst.
      apply IH in H2 as [-> ->]. inversion H1; subst. unfold chr_eq in *.
      match goal with E : Ascii.eqb _ _ = true |- _ => apply Ascii.eqb_eq in E as -> end.
      done.
Qed.

(** A repetition of the group [(\.\./)] matches nothing or ends with [../]. *)
Lemma Matches_ups_star g prev w rest c c' :
  Matches false (Star g (Group 1 (Lit (txt "../")))) prev w rest c c' ->
  w = [] \/ exists u, w = u ++ txt "../".
Proof.
  intros H. remember (Star g (Group 1 (Lit (txt "../")))) as r eqn:Hr.
  induction H; try discriminate; [by left|].
  injection Hr as -> ->. right.
  inversion H0; subst.
  match goal with E : Matches _ (Seq _ _) _ _ _ _ _ |- _ =>
    apply (Matches_Lit_exact (txt "../")) in E as [-> _] end.
  destruct (IHMatches2 eq_refl) as [->|[u ->]].
  - exists []. by rewrite app_nil_r.
  - exists (txt "../" ++ u). by rewrite app_assoc.
Qed.

(** A match of [(\.\./)+seg] ends with [../seg]. *)
Lemma Matches_ups_seg seg prev w rest c c' :
  Matches false (Seq (Plus (Group 1 (Lit (txt "../")))) (Lit seg)) prev w rest c c' ->
  exists u, w = u ++ txt "../" ++ seg.
Proof.
  unfold Plus. intros H.
  inversion H as [| | | | | | |? ? ? w1 w2 ? ? c1 ? H1 H2| | | | | |]; subst.
  apply Matches_Lit_exact in H2 as [-> _].
  inversion H1 as [| | | | | | |? ? ? w3 w4 ? ? c3 ? H3 H4| | | | | |]; subst.
  inversion H3; subst.
  match goal with E : Matches _ (Seq _ _) _ _ _ _ _ |- _ =>
    apply (Matches_Lit_exact (txt "../")) in E as [-> _] end.
  apply Matches_ups_star in H4 as [->|[u ->]].
  - exists []. by rewrite app_nil_r.
  - exists (txt "../" ++ u). by rewrite <- !app_assoc.
Qed.

Lemma occurs_suffix p v s : suffix v s -> occurs p v -> occurs p s.
Proof.
  intros [k ->] (u & t & ->). exists (k ++ u), t. by rewrite <- app_assoc.
Qed.

(** Without an occurrence of [../seg] the inner substitution changes
    nothing. *)
Lemma re_sub_ups_seg_id seg repl s :
  contains (txt "../" ++ seg) s = false ->
  re_sub false (Seq (Plus (Group 1 (Lit (txt "../")))) (Lit seg)) repl s = s.
Proof.
  intros Hc. apply re_sub_no_match. intros prev v Hv.
  destruct (match_at _ _ _ _) as [[c rest]|] eqn:Hm; [|done].
  apply match_at_sound in Hm as (w & -> & Hm).
  apply Matches_ups_seg in Hm as [u ->].
  apply contains_false_not_occurs in Hc. destruct Hc.
  apply (occurs_suffix _ _ _ Hv). exists u, rest. by rewrite <- !app_assoc.
Qed.

Lemma explicit_resource_id hud p :
  contains (txt "../resource/") p = false -> explicit_resource hud p = p.
Proof.
  intros H. unfold explicit_resource. destruct (_ && _); [|done].
  by apply (re_sub_ups_seg_id (txt "resource/")).
Qed.

Lemma explicit_scripts_id hud p :
  contains (txt "../scripts/") p = false -> explicit_scripts hud p = p.
Proof.
  intros H. unfold explicit_scripts. destruct (_ && _); [|done].
  by apply (re_sub_ups_seg_id (txt "scripts/")).
Qed.

(** For a HUD whose folder name lowercased is [myhud], the echo pass
    rewrites the line [echo Q#baseQ Q../../resource/ui/Foo.resQ] to the
    reference [../../custom/myhud/resource/ui/foo.res]; applied to its own
    output it changes nothing, the canonical segment being found by the
    guard, which skips the insertion. *)
Theorem echo_canonical_myhud (folder : text) :
  lower folder = txt "myhud" ->
  let hud_name := lower folder in
  let out := txt "../../custom/myhud/resource/ui/foo.res" in
  normalize_cfg_echo_paths (echo_line (txt "../../resource/ui/Foo.res")) hud_name
    = echo_line out
  /\ normalize_cfg_echo_paths (echo_line out) hud_name = echo_line out
  /\ contains (txt "/custom/" ++ hud_name ++ txt "/resource/") out = true
  /\ explicit_resource hud_name out = out.
Proof.
  intros ->. cbv zeta. repeat split; vm_compute; reflexivity.
Qed.

Lemma echo_canonical_myhud_witness :
  lower (txt "MyHud") = txt "myhud"
  /\ normalize_cfg_echo_paths (echo_line (txt "../../resource/ui/Foo.res"))
       (lower (txt "MyHud"))
     = echo_line (txt "../../custom/myhud/resource/ui/foo.res").
Proof.
  split; [vm_compute; reflexivity|].
  apply (echo_canonical_myhud (txt "MyHud")). vm_compute; reflexivity.
Defined.

(** ** Two runs of the program *)

(** A second run is not always without effect: a cfg file whose echo
    path spells [Resource] with a capital is lowercased by the first run
    (the test for [/resource/] is made before lowercasing, on the path as
    written), and the second run then finds [/resource/], inserts the
    canonical segment, rewrites the file and reports one modified cfg
    file. *)
Theorem second_run_rewrites_cfg :
  let a_cfg := [txt "home"; txt "myhud"; txt "cfg"; txt "a.cfg"] in
  let fs0 := one_cfg_hud (echo_line (txt "../../Resource/ui/Foo.res")) in
  let r1 := run_on fs0 in
  let r2 := run_on (files (snd r1)) in
  fst r1 = Ok tt
  /\ files (snd r1) !! a_cfg
     = Some (File (echo_line (txt "../../resource/ui/foo.res")))
  /\ fst r2 = Ok tt
  /\ files (snd r2) !! a_cfg
     = Some (File (echo_line (txt "../../custom/myhud/resource/ui/foo.res")))
  /\ MCfgModified 1 ∈ output (snd r2)
  /\ normalize_cfg_echo_paths
       (normalize_cfg_echo_paths (echo_line (txt "../../Resource/ui/Foo.res"))
          (txt "myhud")) (txt "myhud")
     <> normalize_cfg_echo_paths (echo_line (txt "../../Resource/ui/Foo.res"))
          (txt "myhud").
Proof.
  cbv zeta. repeat split; try (vm_compute; reflexivity).
  - vm_compute. repeat constructor.
  - vm_compute. discriminate.
Qed.

(** ** Leading parent segments *)

(** [extract_path_after_parents] removes exactly the leading run of [../]
    segments: the path is that run followed by the result, the result does
    not start with [../], and a second application changes nothing.  A
    [../] further inside the path stays. *)
Theorem extract_strips_leading_run (path : text) :
  path = ups (leading_ups path) ++ extract_path_after_parents path
  /\ startswith (txt "../") (extract_path_after_parents path) = false
  /\ extract_path_after_parents (extract_path_after_parents path)
     = extract_path_after_parents path
  /\ forall n rest, startswith (txt "../") rest = false ->
       extract_path_after_parents (ups n ++ rest) = rest.
Proof.
  split; [apply extract_split|]. split; [apply extract_no_up|]. split.
  - by rewrite (extract_unfold (extract_path_after_parents path)), extract_no_up.
  - intros n rest H. induction n as [|n IH]; simpl.
    + by rewrite extract_unfold, H.
    + exact IH.
Qed.

(** ** The command line *)

(** A usage error ends the program with status 1 after one message of its
    own kind and before any change of the file system: fewer than two
    arguments print the usage text; a folder whose look-up fails or ends at
    a place where nothing is, is reported as not found; an existing path
    that is no directory as not a directory.  The look-up is that of
    [Path]: a trailing slash and single dots are of no account.  An
    argument too long for the operating system is no usage error: it raises
    [OSError], with nothing printed and nothing changed. *)
Theorem main_usage_errors (limit : nat) (cwd : path) (argv : list text) (w : world) :
  (length argv < 2 ->
   main limit cwd argv w
   = (Exit 1, World (files w) (output w ++ [MUsage; MUsageHelp]) (fontlog w)))
  /\ (forall prog name rest, argv = prog :: name :: rest ->
      (exists e, locate (files w) cwd name = Nowhere e)
      \/ (exists p, locate (files w) cwd name = At p
                    /\ path_exists (files w) p = false) ->
      main limit cwd argv w
      = (Exit 1, World (files w) (output w ++ [MNotFound name]) (fontlog w)))
  /\ (forall prog name rest p, argv = prog :: name :: rest ->
      locate (files w) cwd name = At p ->
      path_exists (files w) p = true -> is_dir (files w) p = false ->
      main limit cwd argv w
      = (Exit 1, World (files w) (output w ++ [MNotDir name]) (fontlog w)))
  /\ (forall prog name rest, argv = prog :: name :: rest ->
      locate (files w) cwd name = NameTooLong ->
      main limit cwd argv w = (Raise OSError, w)).
Proof.
  split; [|split; [|split]].
  - intros H. destruct argv as [|a [|b argv]]; [| |simpl in H; lia];
      unfold main, bind, print, sys_exit; simpl; by rewrite <- app_assoc.
  - intros prog name rest -> H. unfold main, bind, get_files, print, sys_exit.
    destruct H as [[e ->]|(p & -> & ->)]; done.
  - intros prog name rest p -> E X D.
    unfold main, bind, get_files, print, sys_exit. by rewrite E, X, D.
  - intros prog name rest -> E.
    unfold main, bind, get_files, raise. by rewrite E.
Qed.

(** No argument; a folder that is not there; a file, named with a trailing
    slash; a file taken for a folder on the way. *)
Lemma main_usage_errors_witness :
  let w := World (one_cfg_hud []) [] [] in
  main 1000 [txt "home"] [txt "hud_normalizer.py"] w
    = (Exit 1, World (files w) [MUsage; MUsageHelp] [])
  /\ main 1000 [txt "home"] [txt "hud_normalizer.py"; txt "nohud"] w
    = (Exit 1, World (files w) [MNotFound (txt "nohud")] [])
  /\ main 1000 [txt "home"] [txt "hud_normalizer.py"; txt "myhud/cfg/a.cfg/"] w
    = (Exit 1, World (files w) [MNotDir (txt "myhud/cfg/a.cfg/")] [])
  /\ main 1000 [txt "home"] [txt "hud_normalizer.py"; txt "myhud/cfg/a.cfg/x"] w
    = (Exit 1, World (files w) [MNotFound (txt "myhud/cfg/a.cfg/x")] []).
Proof.
  intros w.
  destruct (main_usage_errors 1000 [txt "home"] [txt "hud_normalizer.py"] w)
    as (A & _ & _).
  destruct (main_usage_errors 1000 [txt "home"]
              [txt "hud_normalizer.py"; txt "nohud"] w) as (_ & B & _).
  destruct (main_usage_errors 1000 [txt "home"]
              [txt "hud_normalizer.py"; txt "myhud/cfg/a.cfg/"] w) as (_ & _ & C & _).
  destruct (main_usage_errors 1000 [txt "home"]
              [txt "hud_normalizer.py"; txt "myhud/cfg/a.cfg/x"] w) as (_ & D & _).
  split; [apply A; simpl; lia|]. split; [|split].
  - apply (B _ _ _ eq_refl). right. exists [txt "home"; txt "nohud"].
    split; vm_compute; reflexivity.
  - apply (C _ _ _ [txt "home"; txt "myhud"; txt "cfg"; txt "a.cfg"] eq_refl);
      vm_compute; reflexivity.
  - apply (D _ _ _ eq_refl). left. exists NotADirectoryError.
    vm_compute. reflexivity.
Defined.

(** ** The font pass on clientscheme files *)

Lemma chr_eq_exact a x : chr_eq false a x = true -> x = a.
Proof. unfold chr_eq. intros H. by apply Ascii.eqb_eq in H. Qed.

Lemma Matches_font_head prev w rest c c' :
  Matches false (Seqs [Lit (quoted (txt "font")); Plus Space; Chr dquote])
    prev w rest c c' ->
  font_head w.
Proof.
  cbn. unfold Plus. intros H. inv_matches.
  match goal with H : Matches _ (Star _ _) _ _ _ _ _ |- _ =>
    apply Matches_spaces in H; rename H into Hws end.
  match goal with H : is_space _ = true |- _ => rename H into Hsp end.
  repeat match goal with H : chr_eq false _ _ = true |- _ =>
    apply chr_eq_exact in H; subst end.
  match goal with |- font_head (?h ++ (?sp ++ ?tl) ++ ?q) => exists (sp ++ tl) end.
  split; [done|]. split; [done|]. cbn. by rewrite Hsp, Hws.
Qed.

Lemma font_hit content w c :
  Hit w c ∈ scan false font_re None content 0 ->
  exists g1 g2 g3, c = [(3, g3); (2, g2); (1, g1)] /\ w = g1 ++ g2 ++ g3
                   /\ font_head g1 /\ g3 = [dquote]
                   /\ forallb (fun a => negb (Ascii.eqb a newline)) g2 = true.
Proof.
  intros H. apply scan_hit_Matches in H as (u & rest & _ & _ & H).
  apply three_groups in H as (g1 & g2 & g3 & -> & -> & H1 & H2 & H3); [|done..].
  exists g1, g2, g3. split; [done|]. split; [done|].
  split; [by eapply Matches_font_head|]. split.
  - inversion H3; subst. by match goal with H : chr_eq _ _ _ = true |- _ =>
      apply chr_eq_dquote in H as -> end.
  - revert H2. apply Matches_star_class. intros ? ? ? ? ? H. inversion H; subst.
    eexists. split; [done|]. simpl.
    by match goal with H : Ascii.eqb _ _ = false |- _ => rewrite H end.
Qed.

(** A lazy run of any characters stops at the first place where what
    follows can match: no character it passes over could have started the
    continuation. *)
Lemma lazy_any_first A (k : cont A) (stop : ascii -> bool) :
  (forall p a s c, stop a = true -> k p (a :: s) c <> None) ->
  forall fuel p s c x,
    star_loop false A Any false k fuel p s c = Some x ->
    exists u rest, s = u ++ rest /\ forallb (fun a => negb (stop a)) u = true
                   /\ k (last_of p u) rest c = Some x.
Proof.
  intros Hk. induction fuel as [|fuel IH]; intros p s c x; [done|].
  simpl. destruct (k p s c) eqn:E.
  - intros [= ->]. by exists [], s.
  - destruct s as [|a s]; [done|]. destruct (Ascii.eqb a newline); [done|].
    destruct (length s <? length (a :: s)); [|done]. intros H.
    apply IH in H as (u & rest & -> & Hu & H).
    exists (a :: u), rest. split; [done|]. split.
    + simpl. rewrite Hu. destruct (stop a) eqn:Sa; [|done].
      by destruct (Hk p a (u ++ rest) c Sa).
    + by rewrite last_of_cons.
Qed.

(** The value of a font entry ends at the first double quote. *)
Lemma font_value_stops prev s c rest :
  match_at false font_re prev s = Some (c, rest) ->
  forallb (fun a => negb (Ascii.eqb a dquote)) (group 2 c) = true.
Proof.
  unfold match_at, font_re.
  change (Seqs [?a; ?b; ?d]) with (Seq a (Seq b d)).
  intros H.
  change (rmatch false _ (Seq ?r1 ?r2) prev s [] ?k)
    with (rmatch false _ r1 prev s [] (fun p' s' c' => rmatch false _ r2 p' s' c' k)) in H.
  apply rmatch_sound in H as (w1 & s1 & c1 & -> & _ & H).
  change (star_loop false _ Any false
            (fun p' s' c' =>
               rmatch false _ (Group 3 (Chr dquote)) p' s'
                 ((2, take (length s1 - length s') s1) :: c')
                 (fun _ s'' c'' => Some (c'', s'')))
            (S (length s1)) (last_of prev w1) s1 c1 = Some (c, rest)) in H.
  apply (lazy_any_first _ _ (fun a => Ascii.eqb dquote a)) in H
    as (u & r & -> & Hu & H).
  - rewrite take_app_diff in H. destruct r as [|x r]; cbn [rmatch chr_eq] in H;
      [discriminate H|].
    destruct (Ascii.eqb dquote x); [|discriminate H].
    injection H as <- <-. cbn [group Nat.eqb].
    clear -Hu. induction u as [|a u IH]; [done|]. cbn [forallb] in *.
    apply andb_true_iff in Hu as [Ha Hu]. apply andb_true_iff.
    split; [|by apply IH]. rewrite (Ascii.eqb_sym a dquote). exact Ha.
  - intros p a s c0 Ha. cbn [rmatch chr_eq]. cbv beta in Ha. by rewrite Ha.
Qed.

Lemma to_slashes_length s : length (to_slashes s) = length s.
Proof. apply length_map. Qed.

Lemma concat_map_length {X} (f g : X -> text) (l : list X) :
  Forall (fun p => length (f p) = length (g p)) l ->
  length (concat (map f l)) = length (concat (map g l)).
Proof.
  induction 1 as [|p l Hp _ IH]; [done|].
  cbn [map concat]. rewrite !length_app. by rewrite Hp, IH.
Qed.

(** The font pass splits the text into characters it copies and font
    entries; an entry is its head (the quoted key, white space, a double
    quote), a value without double quote or newline, and the closing double
    quote, and only the value is rewritten: backslashes become slashes and
    the result is lowercased.  The text keeps its length. *)
Theorem font_text_frame (content : text) :
  let pieces := scan false font_re None content 0 in
  concat (map raw pieces) = content
  /\ normalize_font_text content
     = concat (map (fun p => match p with
                             | Skip a => [a]
                             | Hit w c => font_repl w c
                             end) pieces)
  /\ (forall w c, Hit w c ∈ pieces ->
        exists head value,
          w = head ++ value ++ [dquote] /\ font_head head
          /\ forallb (fun a => negb (Ascii.eqb a dquote)) value = true
          /\ forallb (fun a => negb (Ascii.eqb a newline)) value = true
          /\ font_repl w c = head ++ lower (to_slashes value) ++ [dquote])
  /\ length (normalize_font_text content) = length content.
Proof.
  intros pieces.
  assert (Hhit : forall w c, Hit w c ∈ pieces ->
        exists head value,
          w = head ++ value ++ [dquote] /\ font_head head
          /\ forallb (fun a => negb (Ascii.eqb a dquote)) value = true
          /\ forallb (fun a => negb (Ascii.eqb a newline)) value = true
          /\ font_repl w c = head ++ lower (to_slashes value) ++ [dquote]).
  { intros w c H. pose proof (font_hit _ _ _ H) as (g1 & g2 & g3 & -> & -> & Hh & -> & Hn).
    apply scan_hit in H as (u & rest & _ & _ & H).
    apply font_value_stops in H. exists g1, g2. done. }
  split; [apply (scan_raw false font_re None content 0)|].
  split; [reflexivity|]. split; [exact Hhit|].
  rewrite <- (scan_raw false font_re None content 0) at 2.
  unfold normalize_font_text, re_sub. fold pieces.
  apply concat_map_length, Forall_forall. intros [a|w c] Hp; [done|].
  apply Hhit in Hp as (h & v & -> & _ & _ & _ & ->). cbn [raw].
  by rewrite !length_app, lower_length, to_slashes_length.
Qed.

(** ** The font pass on the file system *)

Lemma universal_newlines_no_cr s :
  forallb (fun a => negb (Ascii.eqb a creturn)) (universal_newlines s) = true.
Proof.
  induction s as [s IH] using (well_founded_induction
    (well_founded_ltof _ (@length ascii))). unfold ltof in IH.
  destruct s as [|a s]; [done|]. cbn [universal_newlines].
  destruct (Ascii.eqb a creturn) eqn:E.
  - cbn [forallb]. apply andb_true_iff. split; [done|].
    destruct s as [|b s]; [done|]. destruct (Ascii.eqb b newline).
    + apply IH. simpl. lia.
    + apply IH. simpl. lia.
  - cbn [forallb]. rewrite E. apply IH. simpl. lia.
Qed.

Lemma universal_newlines_id s :
  forallb (fun a => negb (Ascii.eqb a creturn)) s = true ->
  universal_newlines s = s.
Proof.
  induction s as [|a s IH]; [done|]. cbn [forallb universal_newlines].
  intros [Ha Hs]%andb_true_iff. apply negb_true_iff in Ha. rewrite Ha.
  by rewrite IH.
Qed.

(** One call of the font pass on an existing file: the text is read with
    every line ending translated to a newline; when the substitution
    changes nothing the file system is left as it is, otherwise the file
    and no other receives the new text, line endings included; nothing is
    printed. *)
Theorem font_pass_on_file (file : path) (data : text) (w : world) :
  files w !! file = Some (File data) ->
  let content := universal_newlines data in
  let r := normalize_clientscheme_font_paths file w in
  (normalize_font_text content = content ->
   fst r = Ok false /\ files (snd r) = files w)
  /\ (normalize_font_text content <> content -> file <> [] ->
      is_dir (files w) (parent file) = true ->
      fst r = Ok true
      /\ files (snd r) = <[file := File (normalize_font_text content)]> (files w))
  /\ (forall f, f <> file -> files (snd r) !! f = files w !! f)
  /\ output (snd r) = output w.
Proof.
  intros Hf content r. subst r content. destruct w as [fs out fl].
  cbn [files] in Hf.
  unfold normalize_clientscheme_font_paths, bind, log_font_call, read_text,
    write_text, ret.
  cbn [files output fontlog].
  destruct (fs !! file) as [[|d]|] eqn:Hl; try discriminate Hf.
  injection Hf as ->. set (content := universal_newlines data).
  destruct (bool_decide (normalize_font_text content ≠ content)) eqn:E.
  - apply bool_decide_eq_true in E. cbv beta. cbn [files output fontlog].
    split; [done|]. destruct file as [|x file]; [by repeat split|].
    rewrite Hl.
    destruct (is_dir fs (parent (x :: file))) eqn:D; cbn [fst snd files output].
    + split; [done|]. split; [|done].
      intros f Hne. by rewrite lookup_insert_ne.
    + by repeat split.
  - apply bool_decide_eq_false in E. apply dec_stable in E.
    cbn [fst snd files output]. by repeat split.
Qed.

(** A file with Windows line endings whose font entry changes is written
    back with newlines only. *)
Lemma font_pass_on_file_witness :
  let file := [txt "home"; txt "myhud"; txt "cfg"; txt "a.cfg"] in
  let data := quoted (txt "font") ++ txt " " ++ quoted (txt "A\B.TTF")
              ++ [creturn; newline] in
  let w := World (one_cfg_hud data) [] [] in
  files (snd (normalize_clientscheme_font_paths file w)) !! file
  = Some (File (quoted (txt "font") ++ txt " " ++ quoted (txt "a/b.ttf")
                ++ [newline])).
Proof.
  intros file data w.
  destruct (font_pass_on_file file data w) as (_ & H & _); [vm_compute; reflexivity|].
  destruct H as (_ & ->); [vm_compute; discriminate|discriminate|
                           vm_compute; reflexivity|].
  vm_compute. reflexivity.
Defined.

(** ** The walk over the clientscheme files *)

Lemma read_text_world file w : snd (read_text file w) = w.
Proof. unfold read_text. by destruct (files w !! file) as [[]|]. Qed.

Lemma read_text_no_fuel file w : fst (read_text file w) <> NoFuel.
Proof. unfold read_text. by destruct (files w !! file) as [[]|]. Qed.

Lemma read_text_ok file w s :
  fst (read_text file w) = Ok s -> exists d, files w !! file = Some (File d).
Proof. unfold read_text. destruct (files w !! file) as [[|d]|]; try done. eauto. Qed.

Lemma write_text_post file content w :
  fst (write_text file content w) <> NoFuel
  /\ output (snd (write_text file content w)) = output w
  /\ fontlog (snd (write_text file content w)) = fontlog w
  /\ ((exists d, files w !! file = Some (File d)) ->
      dom (files (snd (write_text file content w))) = dom (files w)).
Proof.
  unfold write_text. destruct file as [|x file]; [done|].
  destruct (files w !! (x :: file)) as [[|d]|] eqn:E; [done| |].
  - destruct (is_dir _ _); [|done]. repeat split; [done|]. intros _.
    cbn [snd files]. rewrite dom_insert_L.
    apply elem_of_dom_2 in E. set_solver.
  - destruct (is_dir _ _); [|done]. repeat split; [done|].
    intros [d Hd]. discriminate Hd.
Qed.

(** One call of the font pass: it is recorded, creates and deletes no entry
    and prints nothing; it returns only on a file. *)
Lemma font_call_post file w :
  let r := normalize_clientscheme_font_paths file w in
  fst r <> NoFuel
  /\ dom (files (snd r)) = dom (files w)
  /\ fontlog (snd r) = file :: fontlog w
  /\ output (snd r) = output w
  /\ (forall b, fst r = Ok b -> file ∈ dom (files w)).
Proof.
  destruct w as [fs out fl].
  unfold normalize_clientscheme_font_paths, bind, log_font_call.
  cbn [files output fontlog].
  set (w1 := World fs out (file :: fl)).
  pose proof (read_text_world file w1) as Hw.
  pose proof (read_text_no_fuel file w1) as Hn.
  pose proof (read_text_ok file w1) as Hk.
  destruct (read_text file w1) as [[s|e|n|] w2]; cbn [fst snd] in *; subst w2;
    [|by repeat split..|done].
  destruct (Hk s eq_refl) as [d Hd]. cbn [files w1] in Hd.
  destruct (bool_decide _).
  - pose proof (write_text_post file (normalize_font_text s) w1) as (W1 & W2 & W3 & W4).
    specialize (W4 (ex_intro _ d Hd)).
    destruct (write_text file (normalize_font_text s) w1) as [[[]|e|n|] w3];
      cbn [fst snd ret] in *; try done;
      (repeat split; [done..|]); intros _ _; by apply elem_of_dom_2 in Hd.
  - cbn [ret fst snd w1 files fontlog output]. repeat split; [done|].
    intros _ _. by apply elem_of_dom_2 in Hd.
Qed.

Lemma read_text_no_rec file w : fst (read_text file w) <> Raise RecursionError.
Proof.
  unfold read_text. destruct (files w !! file) as [[|d]|]; try done.
  by destruct file.
Qed.

Lemma write_text_no_rec file content w :
  fst (write_text file content w) <> Raise RecursionError.
Proof.
  unfold write_text. destruct file as [|x file]; [done|].
  destruct (files w !! (x :: file)) as [[|d]|]; [done| |];
    by destruct (is_dir _ _).
Qed.

Lemma font_pass_no_rec file w :
  fst (normalize_clientscheme_font_paths file w) <> Raise RecursionError.
Proof.
  destruct w as [fs out fl].
  unfold normalize_clientscheme_font_paths, bind, log_font_call.
  cbn [files output fontlog].
  set (w1 := World fs out (file :: fl)).
  pose proof (read_text_no_rec file w1) as H.
  destruct (read_text file w1) as [[s|e|c|] w2]; cbn [fst snd] in *;
    [|by intros [= ->]|done..].
  destruct (bool_decide _); [|done].
  pose proof (write_text_no_rec file (normalize_font_text s) w2) as H1.
  destruct (write_text _ _ w2) as [[[]|e|c|] w3]; cbn [fst snd ret] in *;
    [done|by intros [= ->]|done..].
Qed.

(** [exists] changes nothing; it answers, or raises [OSError]. *)
Lemma exists_cases p w :
  (exists b, exists_ p w = (Ok b, w)) \/ exists_ p w = (Raise OSError, w).
Proof.
  unfold exists_. destruct (has_nul_path p); [left; eauto|].
  destruct (PATH_MAX <=? path_text_length p); [by right|].
  destruct (walk (files w) [] p); [left; eauto|left; eauto|by right].
Qed.

Lemma exists_files p w w' : files w' = files w -> fst (exists_ p w') = fst (exists_ p w).
Proof.
  intros E. unfold exists_. rewrite E. destruct (has_nul_path p); [done|].
  destruct (PATH_MAX <=? path_text_length p); [done|].
  by destruct (walk (files w) [] p).
Qed.

Lemma walk_post_refl deep visited n w : walk_post deep visited w (Ok (visited, n), w).
Proof.
  split; [done|]. exists []. split; [done|]. split; [constructor|].
  split; [by intros f ?%elem_of_nil|]. cbn. set_solver.
Qed.

Lemma walk_post_raise (deep : Prop) visited w e :
  (e = RecursionError -> deep) -> walk_post deep visited w (Raise e, w).
Proof.
  intros H. split; [done|]. exists []. split; [done|]. split; [constructor|].
  split; [by intros f ?%elem_of_nil|]. exact H.
Qed.

Lemma walk_post_trans (deep deep1 : Prop) visited w v1 n1 w1 r :
  walk_post deep visited w (Ok (v1, n1), w1) -> walk_post deep1 v1 w1 r ->
  (deep1 -> deep) ->
  walk_post deep visited w r.
Proof.
  intros (D1 & new1 & L1 & N1 & F1 & E1) (D2 & new2 & L2 & N2 & F2 & E2) Hd.
  cbn [fst snd] in *. subst v1.
  split; [congruence|]. exists (new2 ++ new1).
  split; [by rewrite L2, L1, app_assoc|]. split.
  - apply NoDup_app. split; [done|]. split; [|done].
    intros f Hf Hf1. apply (F2 f Hf). set_solver.
  - split.
    + intros f [Hf|Hf]%elem_of_app; [|by apply F1].
      intros Hv. apply (F2 f Hf). set_solver.
    + destruct (fst r) as [[v2 n2]|e|n|]; [|auto|done|done]. subst v2.
      rewrite list_to_set_app_L. set_solver.
Qed.

Lemma walk_post_measure deep visited w v1 n1 w1 :
  walk_post deep visited w (Ok (v1, n1), w1) ->
  size (dom (files w1) ∖ v1) <= size (dom (files w) ∖ visited).
Proof.
  intros (D1 & new1 & _ & _ & _ & E1). cbn [fst snd] in *. subst v1.
  rewrite D1. apply subseteq_size. set_solver.
Qed.

Lemma process_clientscheme_S fuel limit file visited n :
  process_clientscheme (S fuel) (S limit) file (visited, n) =
  (if has_nul_path file then raise ValueError
   else if bool_decide (file ∈ visited) then ret (visited, n)
   else
     let* present := exists_ file in
     if negb present then ret (visited, n)
     else
       let visited := {[file]} ∪ visited in
       let* changed := normalize_clientscheme_font_paths file in
       let modified_count := if changed then S n else n in
       let* content := read_text file in
       for_each (re_finditer false base_pattern content) (visited, modified_count)
         (fun m st =>
            if has_nul (group 1 (snd m)) then raise ValueError
            else process_clientscheme fuel limit
                   (join_resolve (parent file) (group 1 (snd m))) st)).
Proof. reflexivity. Qed.

Lemma process_clientscheme_limit fuel file st :
  process_clientscheme (S fuel) 0 file st = raise RecursionError.
Proof. reflexivity. Qed.

Section Walk.
Context (fuel limit : nat).
Context (IH : forall file visited n w,
  size (dom (files w) ∖ visited) < fuel ->
  walk_post (limit <= size (dom (files w) ∖ visited)) visited w
    (process_clientscheme fuel limit file (visited, n) w)).

Lemma walk_includes {X} (bad : X -> bool) (target : X -> path) (l : list X)
    visited n w :
  size (dom (files w) ∖ visited) < fuel ->
  walk_post (limit <= size (dom (files w) ∖ visited)) visited w
    (for_each l (visited, n)
       (fun m st => if bad m then raise ValueError
                    else process_clientscheme fuel limit (target m) st) w).
Proof.
  revert visited n w. induction l as [|m l IHl]; intros visited n w Hm.
  - apply walk_post_refl.
  - cbn [for_each]. unfold bind. destruct (bad m).
    { by apply walk_post_raise. }
    pose proof (IH (target m) visited n w Hm) as H1.
    destruct (process_clientscheme fuel limit (target m) (visited, n) w)
      as [[[v1 n1]|e|k|] w1].
    + pose proof (walk_post_measure _ _ _ _ _ _ H1) as Hle.
      eapply walk_post_trans; [exact H1| |].
      * apply IHl. lia.
      * lia.
    + exact H1.
    + exact H1.
    + exact H1.
Qed.
End Walk.

Lemma walk_post_one (deep : Prop) file visited w o w1 :
  file ∉ visited -> dom (files w1) = dom (files w) ->
  fontlog w1 = file :: fontlog w ->
  match o with
  | Ok (visited', _) => visited' = {[file]} ∪ visited
  | NoFuel => False
  | Raise e => e <> RecursionError
  | Exit _ => True
  end ->
  walk_post deep visited w (o, w1).
Proof.
  intros Hv D L O. split; [done|]. exists [file]. split; [done|].
  split; [apply NoDup_singleton|]. split.
  - by intros f ->%list_elem_of_singleton.
  - cbn [fst]. destruct o as [[v' n']|e|k|]; try done. subst v'.
    cbn. set_solver.
Qed.

(** With more fuel than there are entries not yet visited, the walk ends
    without running out of fuel and as [walk_post] says; it raises
    [RecursionError] only when the limit is not above the number of
    entries not yet visited. *)
Lemma process_clientscheme_walk fuel limit file visited n w :
  size (dom (files w) ∖ visited) < fuel ->
  walk_post (limit <= size (dom (files w) ∖ visited)) visited w
    (process_clientscheme fuel limit file (visited, n) w).
Proof.
  revert limit file visited n w.
  induction fuel as [|fuel IH]; intros limit file visited n w Hm; [lia|].
  destruct limit as [|limit].
  { rewrite process_clientscheme_limit. apply walk_post_raise. lia. }
  rewrite process_clientscheme_S.
  destruct (has_nul_path file); [by apply walk_post_raise|].
  destruct (bool_decide (file ∈ visited)) eqn:Hv; [apply walk_post_refl|].
  apply bool_decide_eq_false in Hv.
  unfold bind at 1.
  destruct (exists_cases file w) as [[present ->]| ->];
    [|by apply walk_post_raise].
  destruct present; cbn [negb]; [|apply walk_post_refl].
  unfold bind at 1.
  pose proof (font_call_post file w) as (F1 & F2 & F3 & _ & F5).
  pose proof (font_pass_no_rec file w) as F6. cbv zeta in *.
  destruct (normalize_clientscheme_font_paths file w) as [[b|e|k|] w1];
    cbn [fst snd] in *; [|apply (walk_post_one _ file); try done; congruence
                         |by apply (walk_post_one _ file)|done].
  specialize (F5 b eq_refl). unfold bind at 1.
  pose proof (read_text_world file w1) as Hw.
  pose proof (read_text_no_fuel file w1) as Hn.
  pose proof (read_text_no_rec file w1) as Hr.
  destruct (read_text file w1) as [[s|e|k|] w2]; cbn [fst snd] in *; subst w2;
    [|apply (walk_post_one _ file); try done; congruence
     |by apply (walk_post_one _ file)|done].
  assert (Hlt : size (dom (files w1) ∖ ({[file]} ∪ visited))
                < size (dom (files w) ∖ visited)).
  { rewrite F2. apply subset_size. set_solver. }
  eapply (walk_post_trans _ _ _ _ ({[file]} ∪ visited) (if b then S n else n) w1).
  - by apply (walk_post_one _ file).
  - apply (walk_includes fuel limit (IH limit)). lia.
  - lia.
Qed.

Lemma normalize_clientschemes_eq limit hud_dir w :
  normalize_clientschemes limit hud_dir w =
  let start_file := hud_dir ++ [txt "resource"; txt "clientscheme.res"] in
  let w1 := World (files w) (output w ++ [MFontsStage]) (fontlog w) in
  match fst (exists_ start_file w) with
  | Ok true =>
      match process_clientscheme (S (size (files w))) limit start_file (∅, 0) w1 with
      | (Ok (_, k), w2) =>
          (Ok tt, World (files w2)
                    (output w2 ++ [if 0 <? k then MSchemesModified k
                                   else MNoSchemeChange])
                    (fontlog w2))
      | (Raise e, w2) => (Raise e, w2)
      | (Exit n, w2) => (Exit n, w2)
      | (NoFuel, w2) => (NoFuel, w2)
      end
  | Ok false =>
      (Ok tt, World (files w) (output w ++ [MFontsStage; MNoClientscheme])
                (fontlog w))
  | Raise e => (Raise e, w1)
  | Exit n => (Exit n, w1)
  | NoFuel => (NoFuel, w1)
  end.
Proof.
  cbv zeta. unfold normalize_clientschemes. unfold bind at 1.
  change (print MFontsStage w)
    with (Ok tt, World (files w) (output w ++ [MFontsStage]) (fontlog w)).
  set (w1 := World (files w) (output w ++ [MFontsStage]) (fontlog w)).
  rewrite <- (exists_files _ w w1 eq_refl). unfold bind at 1.
  destruct (exists_cases (hud_dir ++ [txt "resource"; txt "clientscheme.res"]) w1)
    as [[present ->]| ->]; [|done].
  cbn [fst]. destruct present; cbn [negb].
  - unfold bind, get_files. cbn [files w1].
    destruct (process_clientscheme _ _ _ _ _) as [[[v k]|e|k|] w2]; try done.
    by destruct (0 <? k).
  - unfold print. cbn [files output fontlog w1]. by rewrite <- app_assoc.
Qed.

(** The font stage ends for every include graph, cycles too: the walk
    never nests deeper than there are entries, so that it raises
    [RecursionError] only if the interpreter allows fewer nested calls than
    that; it calls the font pass on no file twice and creates or deletes no
    entry.  A file already visited, or one of which [exists] says that it
    is missing, is passed over without any effect; a null character in the
    path raises [ValueError] and a name too long raises [OSError], nothing
    done.  Without [resource/clientscheme.res] the stage only reports
    that. *)
Theorem clientscheme_walk (limit : nat) (hud_dir : path) (w : world) :
  let r := normalize_clientschemes limit hud_dir w in
  let start_file := hud_dir ++ [txt "resource"; txt "clientscheme.res"] in
  fst r <> NoFuel
  /\ (size (files w) < limit -> fst r <> Raise RecursionError)
  /\ dom (files (snd r)) = dom (files w)
  /\ (exists new, fontlog (snd r) = new ++ fontlog w /\ NoDup new)
  /\ (forall fuel lim file visited n,
        has_nul_path file = false ->
        file ∈ visited \/ fst (exists_ file w) = Ok false ->
        process_clientscheme (S fuel) (S lim) file (visited, n) w
        = (Ok (visited, n), w))
  /\ (forall fuel lim file visited n,
        (has_nul_path file = true ->
         process_clientscheme (S fuel) (S lim) file (visited, n) w
         = (Raise ValueError, w))
        /\ (has_nul_path file = false -> file ∉ visited ->
            fst (exists_ file w) = Raise OSError ->
            process_clientscheme (S fuel) (S lim) file (visited, n) w
            = (Raise OSError, w)))
  /\ (fst (exists_ start_file w) = Ok false ->
      r = (Ok tt, World (files w) (output w ++ [MFontsStage; MNoClientscheme])
                    (fontlog w))).
Proof.
  intros r start_file. subst r start_file.
  assert (Skip : forall fuel lim file visited n,
    has_nul_path file = false ->
    file ∈ visited \/ fst (exists_ file w) = Ok false ->
    process_clientscheme (S fuel) (S lim) file (visited, n) w
    = (Ok (visited, n), w)).
  { intros fuel lim file visited n Hn Hs. rewrite process_clientscheme_S, Hn.
    destruct (decide (file ∈ visited)) as [Hv|Hv].
    - by rewrite bool_decide_eq_true_2.
    - rewrite bool_decide_eq_false_2 by done. destruct Hs as [Hs|Hs]; [done|].
      unfold bind. destruct (exists_cases file w) as [[b E]|E];
        rewrite E in Hs |- *; cbn [fst] in Hs; [|done].
      by injection Hs as ->. }
  assert (Err : forall fuel lim file visited n,
    (has_nul_path file = true ->
     process_clientscheme (S fuel) (S lim) file (visited, n) w
     = (Raise ValueError, w))
    /\ (has_nul_path file = false -> file ∉ visited ->
        fst (exists_ file w) = Raise OSError ->
        process_clientscheme (S fuel) (S lim) file (visited, n) w
        = (Raise OSError, w))).
  { intros fuel lim file visited n. rewrite process_clientscheme_S. split.
    - by intros ->.
    - intros -> Hv Hs. rewrite bool_decide_eq_false_2 by done.
      unfold bind. destruct (exists_cases file w) as [[b E]|E];
        rewrite E in Hs |- *; cbn [fst] in Hs; done. }
  rewrite normalize_clientschemes_eq. cbv zeta.
  destruct (exists_cases (hud_dir ++ [txt "resource"; txt "clientscheme.res"]) w)
    as [[present E]|E]; rewrite E; cbn [fst].
  - destruct present.
    + set (w1 := World (files w) (output w ++ [MFontsStage]) (fontlog w)).
      pose proof (process_clientscheme_walk (S (size (files w))) limit
                    (hud_dir ++ [txt "resource"; txt "clientscheme.res"]) ∅ 0 w1)
        as (D & new & L & N & _ & O).
      { cbn [files w1]. rewrite <- size_dom.
        assert (size (dom (files w) ∖ ∅) <= size (dom (files w))); [|lia].
        apply subseteq_size. set_solver. }
      assert (Hsz : size (dom (files w1) ∖ ∅) <= size (files w)).
      { cbn [files w1]. rewrite <- size_dom. apply subseteq_size. set_solver. }
      destruct (process_clientscheme _ _ _ _ w1) as [[[v k]|e|k|] w2];
        cbn [fst snd files fontlog w1] in *; [| | |done].
      * split_and!; try done; eauto.
      * split_and!; try done; eauto.
        intros Hlim [= ->]. specialize (O eq_refl). lia.
      * split_and!; try done; eauto.
    + cbn [fst snd files fontlog]. split_and!; try done.
      exists []. split; [done|constructor].
  - cbn [fst snd files fontlog]. split_and!; try done.
    exists []. split; [done|constructor].
Qed.

(** A cycle of two files: each is handled once, the missing include is
    passed over.  An interpreter that allows one nested call only raises
    [RecursionError] at the first include. *)
Lemma clientscheme_walk_witness :
  let hud := [txt "home"; txt "myhud"] in
  let r := normalize_clientschemes 1000 hud (World cyclic_hud [] []) in
  fst r <> NoFuel
  /\ fst r <> Raise RecursionError
  /\ fst r = Ok tt
  /\ fontlog (snd r) = [hud ++ [txt "resource"; txt "other.res"];
                        hud ++ [txt "resource"; txt "clientscheme.res"]]
  /\ output (snd r) = [MFontsStage; MSchemesModified 1]
  /\ fst (normalize_clientschemes 1 hud (World cyclic_hud [] []))
     = Raise RecursionError.
Proof.
  intros hud r.
  destruct (clientscheme_walk 1000 hud (World cyclic_hud [] [])) as (A & B & _).
  split; [exact A|]. split; [apply B; vm_compute; lia|].
  vm_compute. repeat split.
Defined.

(** ** Renaming *)

Lemma parent_snoc (d : path) (x : text) : parent (d ++ [x]) = d.
Proof. apply removelast_last. Qed.

Lemma basename_snoc (d : path) (x : text) : basename (d ++ [x]) = x.
Proof. unfold basename. apply last_last. Qed.

Lemma parent_basename (p : path) : p <> [] -> p = parent p ++ [basename p].
Proof. apply app_removelast_last. Qed.

Lemma parent_app (p t : path) : t <> [] -> parent (p ++ t) = p ++ parent t.
Proof. apply removelast_app. Qed.

Lemma basename_app (p t : path) : t <> [] -> basename (p ++ t) = basename t.
Proof.
  intros Ht. rewrite (parent_basename t Ht) at 1.
  rewrite app_assoc, basename_snoc. done.
Qed.

Lemma reroot_prefix p q t : reroot p q (p ++ t) = q ++ t.
Proof.
  unfold reroot. rewrite bool_decide_eq_true_2 by by apply prefix_app_r.
  by rewrite drop_app_length.
Qed.

Lemma reroot_other p q k : ~ p `prefix_of` k -> reroot p q k = k.
Proof. intros H. unfold reroot. by rewrite bool_decide_eq_false_2. Qed.

Lemma reroot_cases p q k :
  (exists t, k = p ++ t /\ reroot p q k = q ++ t)
  \/ (~ p `prefix_of` k /\ reroot p q k = k).
Proof.
  destruct (decide (p `prefix_of` k)) as [[t ->]|H].
  - left. exists t. by rewrite reroot_prefix.
  - right. by rewrite reroot_other.
Qed.

(** Moving [p] to a free place [q] beside it: the entries at and below [p]
    are found at and below [q], the others where they were. *)
Lemma move_lookup p q fs :
  (forall k, is_Some (fs !! k) -> ~ q `prefix_of` k) ->
  forall k' n, move p q fs !! k' = Some n
               <-> exists k, k' = reroot p q k /\ fs !! k = Some n.
Proof.
  intros Hq k' n. unfold move.
  assert (Hd : delete q fs = fs).
  { apply delete_id. destruct (fs !! q) eqn:E; [|done].
    by destruct (Hq q (mk_is_Some _ _ E)). }
  rewrite Hd. rewrite <- elem_of_list_to_map.
  - rewrite list_elem_of_fmap. split.
    + intros [[k m] [[= -> ->] Hk%elem_of_map_to_list]]. by exists k.
    + intros (k & -> & Hk). exists (k, n). split; [done|].
      by apply elem_of_map_to_list.
  - rewrite <- list_fmap_compose.
    apply (NoDup_fmap_2_strong (fun kv => reroot p q (fst kv))).
    + intros [k1 n1] [k2 n2] H1%elem_of_map_to_list H2%elem_of_map_to_list E.
      cbn [fst] in E.
      assert (k1 = k2) as ->.
      { destruct (reroot_cases p q k1) as [(t1 & -> & R1)|(N1 & R1)],
                 (reroot_cases p q k2) as [(t2 & -> & R2)|(N2 & R2)];
          rewrite R1, R2 in E.
        - by apply app_inv_head in E as ->.
        - destruct (Hq k2 (mk_is_Some _ _ H2)). rewrite <- E. by apply prefix_app_r.
        - destruct (Hq k1 (mk_is_Some _ _ H1)). rewrite E. by apply prefix_app_r.
        - done. }
      congruence.
    + apply NoDup_map_to_list.
Qed.

Lemma is_dir_Some fs p : p <> [] -> is_dir fs p = true -> fs !! p = Some Dir.
Proof.
  unfold is_dir. destruct p as [|x p]; [done|]. intros _.
  by destruct (fs !! (x :: p)) as [[]|].
Qed.

Lemma is_dir_lookup fs p : fs !! p = Some Dir -> is_dir fs p = true.
Proof. unfold is_dir. destruct p; [done|]. by intros ->. Qed.

(** In a well-formed tree nothing lies below a free path. *)
Lemma wf_free_below fs q :
  wf_tree fs -> fs !! q = None -> q <> [] ->
  forall k, is_Some (fs !! k) -> ~ q `prefix_of` k.
Proof.
  intros Hwf Hq Hne k Hk [t ->]. revert Hk.
  induction t as [|x t IH] using rev_ind; intros Hk.
  - rewrite app_nil_r, Hq in Hk. by destruct Hk.
  - apply Hwf in Hk. rewrite app_assoc, parent_snoc in Hk.
    apply is_dir_Some in Hk; [|by destruct q]. apply IH. by rewrite Hk.
Qed.

Lemma below_spec d k : below d k = true <-> exists t, t <> [] /\ k = d ++ t.
Proof.
  unfold below. rewrite andb_true_iff, bool_decide_eq_true, negb_true_iff,
    bool_decide_eq_false. split.
  - intros [[t ->] Hne]. exists t. split; [|done]. intros ->.
    by rewrite app_nil_r in Hne.
  - intros (t & Ht & ->). split; [by apply prefix_app_r|].
    intros E. apply Ht. apply (app_inv_head d). by rewrite app_nil_r.
Qed.

Lemma prefix_snoc_inv {A} (p l : list A) (y : A) :
  p `prefix_of` l ++ [y] -> p `prefix_of` l \/ p = l ++ [y].
Proof.
  intros [t E]. destruct t as [|z t _] using rev_ind.
  - right. by rewrite app_nil_r in E.
  - left. rewrite app_assoc in E. apply app_inj_tail in E as [-> _].
    by apply prefix_app_r.
Qed.

Lemma prefix_parent (p k : path) : p `prefix_of` parent k -> p `prefix_of` k.
Proof.
  destruct (decide (k = [])) as [->|Hk]; [done|].
  intros H. rewrite (parent_basename k Hk). by apply prefix_app_r.
Qed.

Section Rename.
Context (fs : gmap path node) (d : path) (x : text).
Context (Hwf : wf_tree fs).
Context (Hx : x <> lower x).
Context (Hp : is_Some (fs !! (d ++ [x]))).
Context (Hq : fs !! (d ++ [lower x]) = None).

Lemma rename_lookup k' n :
  move (d ++ [x]) (d ++ [lower x]) fs !! k' = Some n
  <-> exists k, k' = reroot (d ++ [x]) (d ++ [lower x]) k /\ fs !! k = Some n.
Proof.
  apply move_lookup. apply wf_free_below; [done..|]. by destruct d.
Qed.

Lemma rename_kept k n :
  ~ (d ++ [x]) `prefix_of` k -> fs !! k = Some n ->
  move (d ++ [x]) (d ++ [lower x]) fs !! k = Some n.
Proof.
  intros Hk E. apply rename_lookup. exists k. by rewrite reroot_other.
Qed.

Lemma rename_moved t n :
  fs !! ((d ++ [x]) ++ t) = Some n ->
  move (d ++ [x]) (d ++ [lower x]) fs !! ((d ++ [lower x]) ++ t) = Some n.
Proof.
  intros E. apply rename_lookup. exists ((d ++ [x]) ++ t).
  by rewrite reroot_prefix.
Qed.

Lemma rename_wf : wf_tree (move (d ++ [x]) (d ++ [lower x]) fs).
Proof.
  intros k' [n Hk']. apply rename_lookup in Hk' as (k & -> & Hk).
  destruct (reroot_cases (d ++ [x]) (d ++ [lower x]) k) as [(t & -> & ->)|(N & ->)].
  - destruct (decide (t = [])) as [->|Ht].
    + rewrite app_nil_r, parent_snoc.
      pose proof (Hwf _ Hp) as Hd. rewrite parent_snoc in Hd.
      destruct (decide (d = [])) as [->|Hne]; [done|].
      apply is_dir_lookup, rename_kept; [|by apply is_dir_Some].
      intros Hpre%prefix_length. rewrite length_app in Hpre. simpl in Hpre. lia.
    + rewrite parent_app by done.
      pose proof (Hwf _ (mk_is_Some _ _ Hk)) as Hd. rewrite parent_app in Hd by done.
      apply is_dir_Some in Hd; [|by destruct d].
      by apply is_dir_lookup, rename_moved.
  - pose proof (Hwf _ (mk_is_Some _ _ Hk)) as Hd.
    destruct (decide (parent k = [])) as [->|Hne]; [done|].
    apply is_dir_lookup, rename_kept; [|by apply is_dir_Some].
    intros Hpre. by apply N, prefix_parent.
Qed.
End Rename.

(** The loop invariant survives the renaming of the first entry to do. *)
Lemma names_inv_move hud_dir fs p rest :
  names_inv hud_dir fs (p :: rest) -> NoDup (p :: rest) ->
  (forall r, r ∈ rest -> length r <= length p) ->
  basename p <> lower (basename p) ->
  fs !! (parent p ++ [lower (basename p)]) = None ->
  names_inv hud_dir (move p (parent p ++ [lower (basename p)]) fs) rest.
Proof.
  intros (Hwf & Htodo & Hdone) Hnd Hlen Hx Hq.
  destruct (Htodo p) as [Hp Hb]; [by left|].
  assert (Hne : p <> []).
  { apply below_spec in Hb as (t & Ht & ->). by destruct hud_dir, t. }
  set (d := parent p) in *. set (x := basename p) in *.
  assert (Ep : p = d ++ [x]) by by apply parent_basename.
  clearbody d x. subst p.
  apply NoDup_cons in Hnd as [Hnp _].
  assert (Hrest : forall r, r ∈ rest -> ~ (d ++ [x]) `prefix_of` r).
  { intros r Hr Hpre. apply Hnp.
    rewrite (prefix_length_eq _ _ Hpre (Hlen r Hr)). done. }
  split; [by apply rename_wf|]. split.
  - intros r Hr. destruct (Htodo r) as [[n Hn] Hbr]; [by right|].
    split; [|done]. exists n. apply rename_kept; auto.
  - intros k' [n Hk'] Hbk Hnot.
    apply rename_lookup in Hk' as (k & -> & Hk); [|done..].
    destruct (reroot_cases (d ++ [x]) (d ++ [lower x]) k)
      as [(t & -> & Hr)|(N & Hr)]; rewrite Hr in *.
    + destruct (decide (t = [])) as [->|Ht].
      { left. by rewrite app_nil_r, basename_snoc, lower_idem. }
      assert (Hs : settled fs ((d ++ [x]) ++ t)).
      { apply Hdone; [done| |].
        - apply below_spec in Hb as (u & Hu & ->). apply below_spec.
          exists (u ++ t). split; [by destruct u|]. by rewrite app_assoc.
        - intros [E|Hin]%elem_of_cons.
          + apply Ht. apply (app_inv_head (d ++ [x])). by rewrite app_nil_r.
          + apply Hlen in Hin. rewrite !length_app in Hin. simpl in Hin.
            destruct t; [done|]. simpl in Hin. lia. }
      unfold settled in *. rewrite !basename_app, !parent_app in * by done.
      destruct Hs as [Hs|[m Hm]]; [by left|]. right. exists m.
      rewrite <- app_assoc in Hm |- *. by apply rename_moved.
    + assert (Hs : settled fs k).
      { apply Hdone; [done|done|].
        intros [->|Hin]%elem_of_cons; [by apply N|by apply Hnot]. }
      destruct Hs as [Hs|[m Hm]]; [by left|]. right. exists m.
      apply rename_kept; auto.
      intros [Hpre| E]%prefix_snoc_inv.
      * by apply N, prefix_parent.
      * apply app_inj_tail in E as [_ E]. apply Hx. by rewrite E, lower_idem.
Qed.

Lemma snoc_not_prefix (d : path) (x y : text) :
  x <> y -> ~ (d ++ [x]) `prefix_of` (d ++ [y]).
Proof.
  intros Hxy Hpre. apply prefix_length_eq in Hpre; [|by rewrite !length_app].
  by apply app_inj_tail in Hpre as [_ ?].
Qed.

(** Renaming an entry to a free name in an existing directory succeeds. *)
Lemma os_rename_free p q w :
  p <> [] -> is_Some (files w !! p) -> q <> [] -> files w !! q = None ->
  is_dir (files w) (parent q) = true -> ~ p `prefix_of` q ->
  os_rename p q w = (Ok tt, World (move p q (files w)) (output w) (fontlog w)).
Proof.
  intros Hp [n Hn] Hq Hfree Hd Hpre. unfold os_rename.
  destruct p as [|a p]; [done|]. rewrite Hn, Hd. cbn [negb].
  rewrite bool_decide_eq_false_2 by (intros <-; by apply Hpre).
  rewrite bool_decide_eq_false_2 by done.
  destruct q as [|b q]; [done|]. by rewrite Hfree.
Qed.

Lemma path_exists_snoc fs (d : path) (x : text) :
  path_exists fs (d ++ [x]) = bool_decide (is_Some (fs !! (d ++ [x]))).
Proof. unfold path_exists. by destruct d. Qed.

(** One turn of the loop of [normalize_filenames] keeps the invariant and
    does not fail. *)
Lemma lowercase_entry_step hud_dir p rest n w :
  names_inv hud_dir (files w) (p :: rest) -> NoDup (p :: rest) ->
  (forall r, r ∈ rest -> length r <= length p) ->
  exists n' w', lowercase_entry p n w = (Ok n', w')
                /\ names_inv hud_dir (files w') rest
                /\ output w' = output w /\ fontlog w' = fontlog w.
Proof.
  intros Hinv Hnd Hlen. pose proof Hinv as (Hwf & Htodo & Hdone).
  destruct (Htodo p) as [Hp Hb]; [by left|].
  assert (Hne : p <> []).
  { apply below_spec in Hb as (t & Ht & ->). by destruct hud_dir, t. }
  assert (Hstay : settled (files w) p -> names_inv hud_dir (files w) rest).
  { intros Hs. split; [done|]. split.
    - intros r Hr. apply Htodo. by right.
    - intros k Hk Hbk Hnot. destruct (decide (k = p)) as [->|Hkp]; [done|].
      apply Hdone; [done..|]. by intros [?|?]%elem_of_cons. }
  unfold lowercase_entry.
  destruct (decide (basename p = lower (basename p))) as [E|E].
  - rewrite bool_decide_eq_false_2 by (intros H; by apply H).
    exists n, w. split; [done|]. split; [|done]. apply Hstay. by left.
  - rewrite bool_decide_eq_true_2 by done. unfold bind, get_files.
    rewrite path_exists_snoc.
    destruct (decide (is_Some (files w !! (parent p ++ [lower (basename p)]))))
      as [T|T].
    + rewrite bool_decide_eq_true_2 by done. cbn [negb].
      exists n, w. split; [done|]. split; [|done]. apply Hstay. by right.
    + rewrite bool_decide_eq_false_2 by done. cbn [negb].
      assert (Hfree : files w !! (parent p ++ [lower (basename p)]) = None).
      { by apply eq_None_not_Some. }
      assert (Hnp : ~ p `prefix_of` parent p ++ [lower (basename p)]).
      { rewrite (parent_basename p Hne) at 1. by apply snoc_not_prefix. }
      assert (Hdir : is_dir (files w) (parent (parent p ++ [lower (basename p)])) = true).
      { rewrite parent_snoc. by apply Hwf. }
      assert (Hqne : parent p ++ [lower (basename p)] <> []) by by destruct (parent p).
      rewrite (os_rename_free p _ w Hne Hp Hqne Hfree Hdir Hnp).
      eexists _, _. split; [reflexivity|]. cbn [files output fontlog].
      split; [|done]. by apply names_inv_move.
Qed.

(** ** The lowercasing stage *)

Lemma insert_by_depth_perm x l : insert_by_depth x l ≡ₚ x :: l.
Proof.
  induction l as [|y l IH]; [done|]. cbn [insert_by_depth].
  destruct (length x <? length y); [|done].
  by rewrite IH, Permutation_swap.
Qed.

Lemma sort_by_depth_perm l : sort_by_depth l ≡ₚ l.
Proof.
  induction l as [|x l IH]; [done|]. cbn [sort_by_depth foldr].
  fold (sort_by_depth l). by rewrite insert_by_depth_perm, IH.
Qed.

Lemma insert_by_depth_sorted x l :
  StronglySorted (fun a b : path => length b <= length a) l ->
  StronglySorted (fun a b : path => length b <= length a) (insert_by_depth x l).
Proof.
  induction 1 as [|y l Hs IH Hy]; [repeat constructor|].
  cbn [insert_by_depth]. destruct (length x <? length y) eqn:E.
  - apply Nat.ltb_lt in E. constructor; [done|].
    rewrite insert_by_depth_perm. constructor; [lia|done].
  - apply Nat.ltb_ge in E. constructor; [by constructor|].
    constructor; [done|]. eapply Forall_impl; [exact Hy|]. simpl. lia.
Qed.

Lemma sort_by_depth_sorted l :
  StronglySorted (fun a b : path => length b <= length a) (sort_by_depth l).
Proof.
  induction l as [|x l IH]; [constructor|].
  cbn [sort_by_depth foldr]. by apply insert_by_depth_sorted.
Qed.

(** The loop of [normalize_filenames] over a listing sorted deepest
    first. *)
Lemma lowercase_loop hud_dir l n w :
  names_inv hud_dir (files w) l -> NoDup l ->
  StronglySorted (fun a b : path => length b <= length a) l ->
  exists n' w', for_each l n lowercase_entry w = (Ok n', w')
                /\ names_inv hud_dir (files w') []
                /\ output w' = output w /\ fontlog w' = fontlog w.
Proof.
  revert n w. induction l as [|p l IH]; intros n w Hinv Hnd Hs.
  - by exists n, w.
  - apply StronglySorted_inv in Hs as [Hs Hp].
    destruct (lowercase_entry_step hud_dir p l n w Hinv Hnd)
      as (n1 & w1 & E1 & Hinv1 & O1 & F1).
    { intros r Hr. by apply (proj1 (Forall_forall _ _) Hp). }
    apply NoDup_cons in Hnd as [_ Hnd].
    destruct (IH n1 w1 Hinv1 Hnd Hs) as (n2 & w2 & E2 & Hinv2 & O2 & F2).
    exists n2, w2. cbn [for_each]. unfold bind. rewrite E1.
    split; [done|]. split; [done|]. split; congruence.
Qed.

Lemma rglob_all fs hud_dir k :
  k ∈ rglob fs hud_dir (fun _ => true) <-> is_Some (fs !! k) /\ below hud_dir k = true.
Proof.
  unfold rglob. rewrite list_elem_of_filter, list_elem_of_fmap. split.
  - intros [Hb [[k' n] [-> Hk%elem_of_map_to_list]]]. split; [by eexists|].
    rewrite andb_true_r in Hb. by apply Is_true_true.
  - intros [[n Hn] Hb]. split; [by rewrite Hb|].
    exists (k, n). split; [done|]. by apply elem_of_map_to_list.
Qed.

Lemma rglob_NoDup fs hud_dir pat : NoDup (rglob fs hud_dir pat).
Proof. unfold rglob. apply NoDup_filter, NoDup_fst_map_to_list. Qed.

(** On a tree in which every entry lies in a directory, the lowercasing
    stage does not fail, and afterwards every entry below the HUD folder
    has a lowercase name or finds its lowercase name taken by another entry
    of its directory; the tree is still well formed. *)
Theorem lowercasing_settles (hud_dir : path) (w : world) :
  wf_tree (files w) ->
  exists w', normalize_filenames hud_dir w = (Ok tt, w')
    /\ wf_tree (files w')
    /\ (forall k, is_Some (files w' !! k) -> below hud_dir k = true ->
                  settled (files w') k)
    /\ fontlog w' = fontlog w.
Proof.
  intros Hwf. unfold normalize_filenames, normalize_filenames_on.
  unfold bind at 1. unfold get_files. unfold bind at 1. unfold print at 1.
  set (listing := sort_by_depth (rglob (files w) hud_dir (fun _ => true))).
  set (w0 := World (files w) (output w ++ [MNamesStage]) (fontlog w)).
  destruct (lowercase_loop hud_dir listing 0 w0) as (n & w1 & E & Hinv & _ & F).
  - split; [done|]. split.
    + intros r Hr. apply rglob_all. unfold listing in Hr.
      by rewrite sort_by_depth_perm in Hr.
    + intros k Hk Hb Hnot. destruct Hnot. unfold listing.
      rewrite sort_by_depth_perm. by apply rglob_all.
  - unfold listing. rewrite sort_by_depth_perm. apply rglob_NoDup.
  - apply sort_by_depth_sorted.
  - unfold bind. rewrite E. destruct Hinv as (Hwf1 & _ & Hdone).
    assert (P : forall m, exists w', print m w1 = (Ok tt, w')
              /\ wf_tree (files w')
              /\ (forall k, is_Some (files w' !! k) -> below hud_dir k = true ->
                            settled (files w') k)
              /\ fontlog w' = fontlog w).
    { intros m. eexists. split; [reflexivity|]. cbn [files fontlog].
      split; [done|]. split; [|done]. intros k Hk Hb. apply Hdone; [done..|].
      by intros ?%elem_of_nil. }
    destruct (0 <? n); apply P.
Qed.

Lemma wf_treeb_spec fs : wf_treeb fs = true -> wf_tree fs.
Proof.
  unfold wf_treeb. rewrite forallb_forall. intros H k [n Hn].
  apply (H (k, n)). by apply list_elem_of_In, elem_of_map_to_list.
Qed.

(** Two entries that differ by case only: the capitalised one keeps its
    name, the lowercase one blocks it. *)
Lemma lowercasing_settles_witness :
  let fs : gmap path node :=
    list_to_map [ ([txt "hud"], Dir); ([txt "hud"; txt "Foo.txt"], File []);
                  ([txt "hud"; txt "foo.txt"], File []);
                  ([txt "hud"; txt "Bar"], Dir);
                  ([txt "hud"; txt "Bar"; txt "Baz.res"], File []) ] in
  let r := normalize_filenames [txt "hud"] (World fs [] []) in
  fst r = Ok tt
  /\ is_Some (files (snd r) !! [txt "hud"; txt "Foo.txt"])
  /\ is_Some (files (snd r) !! [txt "hud"; txt "bar"; txt "baz.res"])
  /\ output (snd r) = [MNamesStage; MLowercased 2].
Proof.
  intros fs r.
  destruct (lowercasing_settles [txt "hud"] (World fs [] [])) as (w' & E & _).
  - apply wf_treeb_spec. vm_compute. reflexivity.
  - subst r. rewrite E. split; [done|].
    assert (E2 : snd (normalize_filenames [txt "hud"] (World fs [] [])) = w')
      by by rewrite E.
    rewrite <- E2. vm_compute. repeat split; by eexists.
Defined.

(** The entries are handled deepest first: the order of the loop is a
    rearrangement of the listing in which no entry comes before a longer
    path. *)
Theorem sort_by_depth_deepest_first (l : list path) :
  sort_by_depth l ≡ₚ l
  /\ StronglySorted (fun a b : path => length b <= length a) (sort_by_depth l).
Proof. split; [apply sort_by_depth_perm|apply sort_by_depth_sorted]. Qed.

Lemma lowercase_loop_noop l n w :
  Forall (fun k => lower (basename k) = basename k) l ->
  for_each l n lowercase_entry w = (Ok n, w).
Proof.
  induction 1 as [|k l Hk _ IH]; [done|].
  cbn [for_each]. unfold bind, lowercase_entry.
  rewrite bool_decide_eq_false_2 by (intros H; by apply H).
  exact IH.
Qed.

(** When every name below the HUD folder is lowercase already, the
    lowercasing stage changes nothing and says so. *)
Theorem lowercasing_noop (hud_dir : path) (w : world) :
  (forall k, is_Some (files w !! k) -> below hud_dir k = true ->
             lower (basename k) = basename k) ->
  normalize_filenames hud_dir w
  = (Ok tt, World (files w) (output w ++ [MNamesStage; MNoLowercase]) (fontlog w)).
Proof.
  intros H. unfold normalize_filenames, normalize_filenames_on.
  unfold bind at 1. unfold get_files. unfold bind at 1. unfold print at 1.
  unfold bind. rewrite lowercase_loop_noop.
  - unfold print. cbn [files output fontlog Nat.ltb Nat.leb]. by rewrite <- app_assoc.
  - apply Forall_forall. intros k Hk. rewrite sort_by_depth_perm in Hk.
    apply rglob_all in Hk as [Hk Hb]. by apply H.
Qed.

Lemma lowercasing_noop_witness :
  normalize_filenames [txt "home"; txt "myhud"] (World cyclic_hud [] [])
  = (Ok tt, World cyclic_hud [MNamesStage; MNoLowercase] []).
Proof.
  apply (lowercasing_noop [txt "home"; txt "myhud"] (World cyclic_hud [] [])).
  intros k [n Hn] _. cbn [files] in Hn.
  apply elem_of_list_to_map_2 in Hn.
  repeat (apply elem_of_cons in Hn as [[= -> _]|Hn]; [vm_compute; reflexivity|]).
  by apply elem_of_nil in Hn.
Defined.

(** ** The cfg and res stages on the file system *)

Lemma write_text_cases file content w :
  write_text file content w
  = (Ok tt, World (<[file := File content]> (files w)) (output w) (fontlog w))
  \/ exists e, write_text file content w = (Raise e, w).
Proof.
  unfold write_text. destruct file as [|x file]; [right; eauto|].
  destruct (files w !! (x :: file)) as [[|d]|]; [right; eauto| |];
    (destruct (is_dir _ _); [by left|right; eauto]).
Qed.

Lemma rewrites_only_refl l w : rewrites_only l w w.
Proof. split; [done|]. split; [done|]. intros f. by left. Qed.

Lemma rewrites_only_trans l w w1 w2 :
  rewrites_only l w w1 -> rewrites_only l w1 w2 -> rewrites_only l w w2.
Proof.
  intros (D1 & F1 & H1) (D2 & F2 & H2).
  split; [congruence|]. split; [congruence|]. intros f.
  destruct (H1 f) as [E1|(I1 & d1 & d1' & A1 & B1)],
           (H2 f) as [E2|(I2 & d2 & d2' & A2 & B2)].
  - left. congruence.
  - right. split; [done|]. exists d2, d2'. split; congruence.
  - right. split; [done|]. exists d1, d1'. split; congruence.
  - right. split; [done|]. exists d1, d2'. split; congruence.
Qed.

Lemma rewrites_only_mono l l' w w' :
  (forall f, f ∈ l -> f ∈ l') -> rewrites_only l w w' -> rewrites_only l' w w'.
Proof.
  intros Hl (D & F & H). split; [done|]. split; [done|]. intros f.
  destruct (H f) as [E|(I & R)]; [by left|right; auto].
Qed.

(** One file of the loop: it is the only entry that can change; nothing is
    printed. *)
Lemma rewrite_file_post tr file n w :
  let r := rewrite_file tr file n w in
  fst r <> NoFuel /\ (forall c, fst r <> Exit c)
  /\ rewrites_only [file] w (snd r) /\ output (snd r) = output w.
Proof.
  unfold rewrite_file, bind.
  pose proof (read_text_world file w) as Hw.
  pose proof (read_text_ok file w) as Hk.
  pose proof (read_text_no_fuel file w) as Hn.
  unfold read_text in *.
  destruct (files w !! file) as [[|d]|] eqn:E; cbn [fst snd] in *;
    try (split_and!; [done|done|apply rewrites_only_refl|done]).
  destruct (bool_decide _); [|split_and!; [done|done|apply rewrites_only_refl|done]].
  destruct (write_text_cases file (tr file (universal_newlines d)) w)
    as [->|[e ->]]; cbn [fst snd ret];
    [|split_and!; [done|done|apply rewrites_only_refl|done]].
  split_and!; [done|done| |done].
  split; [|split; [done|]]; cbn [files].
  - rewrite dom_insert_L. apply elem_of_dom_2 in E. set_solver.
  - intros f. destruct (decide (f = file)) as [->|Hf].
    + right. split; [by apply list_elem_of_singleton|]. exists d, (tr file (universal_newlines d)).
      split; [done|]. by rewrite lookup_insert_eq.
    + left. by rewrite lookup_insert_ne.
Qed.

Lemma rewrite_loop_post tr l n w :
  let r := for_each l n (rewrite_file tr) w in
  fst r <> NoFuel /\ (forall c, fst r <> Exit c)
  /\ rewrites_only l w (snd r) /\ output (snd r) = output w.
Proof.
  revert n w. induction l as [|file l IH]; intros n w.
  - cbn. split_and!; [done|done|apply rewrites_only_refl|done].
  - cbn [for_each]. unfold bind.
    pose proof (rewrite_file_post tr file n w) as (A1 & A2 & A3 & A4).
    cbv zeta in *.
    destruct (rewrite_file tr file n w) as [[n1|e|c|] w1]; cbn [fst snd] in *.
    + pose proof (IH n1 w1) as (B1 & B2 & B3 & B4). cbv zeta in *.
      split_and!; [done|done| |congruence].
      eapply rewrites_only_trans.
      * eapply rewrites_only_mono; [|exact A3].
        intros f ->%list_elem_of_singleton. by left.
      * eapply rewrites_only_mono; [|exact B3]. intros f Hf. by right.
    + split_and!; [done|done| |done].
      eapply rewrites_only_mono; [|exact A3].
      intros f ->%list_elem_of_singleton. by left.
    + by destruct (A2 c).
    + done.
Qed.

Lemma rglob_spec fs dir pat k :
  k ∈ rglob fs dir pat
  <-> is_Some (fs !! k) /\ below dir k = true /\ pat (basename k) = true.
Proof.
  unfold rglob. rewrite list_elem_of_filter, list_elem_of_fmap. split.
  - intros [Hb [[k' n] [-> Hk%elem_of_map_to_list]]].
    apply Is_true_true, andb_true_iff in Hb as [? ?]. split; [by eexists|done].
  - intros ([n Hn] & Hb & Hp). split; [by rewrite Hb, Hp|].
    exists (k, n). split; [done|]. by apply elem_of_map_to_list.
Qed.

Lemma process_cfg_files_eq hud_dir hud_name :
  process_cfg_files hud_dir hud_name =
  (let* fs := get_files in
   if negb (path_exists fs (hud_dir ++ [txt "cfg"])) then print MNoCfgFolder
   else
     let* modified_count :=
       for_each (rglob fs (hud_dir ++ [txt "cfg"]) (endswith (txt ".cfg"))) 0
         (rewrite_file (fun _ content => normalize_cfg_echo_paths content hud_name)) in
     if 0 <? modified_count then print (MCfgModified modified_count)
     else print MNoCfgChange).
Proof. reflexivity. Qed.

Lemma process_res_files_eq hud_dir :
  process_res_files hud_dir =
  (let* fs := get_files in
   let* modified_count :=
     for_each (rglob fs hud_dir (endswith (txt ".res"))) 0
       (rewrite_file (fun file content =>
          normalize_schema_declarations
            (normalize_res_base_paths
               (normalize_cfg_paths_in_res content
                  (length (drop (length hud_dir) file) - 1))))) in
   if 0 <? modified_count then print (MResModified modified_count)
   else print MNoResChange).
Proof. reflexivity. Qed.

Lemma print_post m w :
  print m w = (Ok tt, World (files w) (output w ++ [m]) (fontlog w)).
Proof. reflexivity. Qed.

Lemma cfg_stage_post hud_dir hud_name w :
  let r := process_cfg_files hud_dir hud_name w in
  fst r <> NoFuel /\ (forall c, fst r <> Exit c)
  /\ rewrites_only (rglob (files w) (hud_dir ++ [txt "cfg"]) (endswith (txt ".cfg")))
       w (snd r).
Proof.
  rewrite process_cfg_files_eq. unfold bind at 1. unfold get_files.
  destruct (negb _).
  - rewrite print_post. cbn [fst snd]. split_and!; try done.
    split; [done|]. split; [done|]. intros f. by left.
  - unfold bind.
    pose proof (rewrite_loop_post
      (fun _ content => normalize_cfg_echo_paths content hud_name)
      (rglob (files w) (hud_dir ++ [txt "cfg"]) (endswith (txt ".cfg"))) 0 w)
      as (A1 & A2 & A3 & _). cbv zeta in *.
    destruct (for_each _ _ _ w) as [[n|e|c|] w1]; cbn [fst snd] in *;
      [|by split_and!|by destruct (A2 c)|done].
    destruct A3 as (D & F & H).
    destruct (0 <? n); rewrite print_post; cbn [fst snd]; by split_and!.
Qed.

Lemma res_stage_post hud_dir w :
  let r := process_res_files hud_dir w in
  fst r <> NoFuel /\ (forall c, fst r <> Exit c)
  /\ rewrites_only (rglob (files w) hud_dir (endswith (txt ".res"))) w (snd r).
Proof.
  rewrite process_res_files_eq. unfold bind at 1. unfold get_files. unfold bind.
  match goal with |- context [for_each ?l 0 (rewrite_file ?tr) w] =>
    pose proof (rewrite_loop_post tr l 0 w) as (A1 & A2 & A3 & _) end.
  cbv zeta in *.
  destruct (for_each _ _ _ w) as [[n|e|c|] w1]; cbn [fst snd] in *;
    [|by split_and!|by destruct (A2 c)|done].
  destruct A3 as (D & F & H).
  destruct (0 <? n); rewrite print_post; cbn [fst snd]; by split_and!.
Qed.

Lemma rglob_dom fs fs' dir pat k :
  dom fs' = dom fs -> k ∈ rglob fs' dir pat -> k ∈ rglob fs dir pat.
Proof.
  intros D. rewrite !rglob_spec. intros (Hk & ? & ?). split; [|done].
  apply elem_of_dom. rewrite <- D. by apply elem_of_dom.
Qed.

Lemma normalize_logbase_paths_eq hud_dir w :
  normalize_logbase_paths hud_dir w =
  match process_cfg_files hud_dir (basename hud_dir)
          (World (files w) (output w ++ [MLogbaseStage]) (fontlog w)) with
  | (Ok _, w1) => process_res_files hud_dir w1
  | (Raise e, w1) => (Raise e, w1)
  | (Exit n, w1) => (Exit n, w1)
  | (NoFuel, w1) => (NoFuel, w1)
  end.
Proof. reflexivity. Qed.

(** The cfg and res stages create and delete nothing and never end the
    program themselves; an entry they change is a file before and after,
    and it is a [.cfg] file below the [cfg] folder or a [.res] file below
    the HUD folder. *)
Theorem logbase_stage_frame (hud_dir : path) (w : world) :
  let r := normalize_logbase_paths hud_dir w in
  fst r <> NoFuel /\ (forall c, fst r <> Exit c)
  /\ dom (files (snd r)) = dom (files w)
  /\ fontlog (snd r) = fontlog w
  /\ forall f,
       files (snd r) !! f = files w !! f
       \/ ((below (hud_dir ++ [txt "cfg"]) f = true
            /\ endswith (txt ".cfg") (basename f) = true
            \/ below hud_dir f = true
               /\ endswith (txt ".res") (basename f) = true)
           /\ exists d d', files w !! f = Some (File d)
                           /\ files (snd r) !! f = Some (File d')).
Proof.
  rewrite normalize_logbase_paths_eq.
  set (w0 := World (files w) (output w ++ [MLogbaseStage]) (fontlog w)).
  pose proof (cfg_stage_post hud_dir (basename hud_dir) w0) as (A1 & A2 & A3).
  cbv zeta in *.
  assert (Hfin : forall l (o : outcome unit) w2,
    o <> NoFuel -> (forall c, o <> Exit c) ->
    rewrites_only l w0 w2 ->
    (forall f, f ∈ l ->
       below (hud_dir ++ [txt "cfg"]) f = true
       /\ endswith (txt ".cfg") (basename f) = true
       \/ below hud_dir f = true /\ endswith (txt ".res") (basename f) = true) ->
    o <> NoFuel /\ (forall c, o <> Exit c)
    /\ dom (files w2) = dom (files w) /\ fontlog w2 = fontlog w
    /\ forall f, files w2 !! f = files w !! f
         \/ ((below (hud_dir ++ [txt "cfg"]) f = true
              /\ endswith (txt ".cfg") (basename f) = true
              \/ below hud_dir f = true
                 /\ endswith (txt ".res") (basename f) = true)
             /\ exists d d', files w !! f = Some (File d)
                             /\ files w2 !! f = Some (File d'))).
  { intros l o w2 O1 O2 (D & F & H) Hl. split_and!; try done.
    intros f. destruct (H f) as [E|(I & R)]; [by left|right]. split; auto. }
  destruct (process_cfg_files _ _ w0) as [[[]|e|c|] w1]; cbn [fst snd] in *.
  - pose proof (res_stage_post hud_dir w1) as (B1 & B2 & B3). cbv zeta in *.
    apply (Hfin (rglob (files w0) (hud_dir ++ [txt "cfg"]) (endswith (txt ".cfg"))
                 ++ rglob (files w0) hud_dir (endswith (txt ".res")))); [done..| |].
    + eapply rewrites_only_trans.
      * eapply rewrites_only_mono; [|exact A3]. intros f Hf.
        apply elem_of_app. by left.
      * eapply rewrites_only_mono; [|exact B3]. intros f Hf.
        apply elem_of_app. right. eapply rglob_dom; [|exact Hf].
        by destruct A3 as (D & _).
    + intros f [Hf|Hf]%elem_of_app; apply rglob_spec in Hf as (_ & ? & ?); auto.
  - eapply Hfin; [done..|exact A3|].
    intros f Hf. apply rglob_spec in Hf as (_ & ? & ?); auto.
  - by destruct (A2 c).
  - done.
Qed.

(** ** The res-base and schema passes *)

Lemma Matches_Lit_ci l prev w rest c c' :
  Matches true (Lit l) prev w rest c c' -> lower w = lower l /\ c' = c.
Proof.
  revert prev w c c'. induction l as [|a l IH]; intros prev w c c' H.
  - inversion H; subst. done.
  - destruct l as [|b l].
    + inversion H; subst.
      match goal with E : chr_eq true _ _ = true |- _ =>
        apply chr_eq_lower in E; rename E into Ex end.
      unfold lower. cbn [map]. by rewrite Ex.
    + change (Lit (a :: b :: l)) with (Seq (Chr a) (Lit (b :: l))) in H.
      inversion H as [| | | | | | |? ? ? w1 w2 ? ? c1 ? H1 H2| | | | | |]; subst.
      apply IH in H2 as [E2 ->]. inversion H1; subst.
      match goal with E : chr_eq true _ _ = true |- _ =>
        apply chr_eq_lower in E; rename E into Ex end.
      split; [|done]. unfold lower in *. cbn [app map]. by rewrite E2, Ex.
Qed.

(** The look-ahead [(?!cfg)] succeeds only where the text does not go on
    with [cfg] in any case. *)
Lemma not_ahead_cfg prev s c :
  rmatch true unit (Lit (txt "cfg")) prev s c (fun _ _ _ => Some tt) = None ->
  startswith (txt "cfg") (lower s) = false.
Proof.
  destruct s as [|x [|y [|z s]]]; cbn [rmatch Lit txt list_ascii_of_string lower map startswith chr_eq];
    unfold chr_eq; cbn [lower_char].
  all: change (lower_char "c"%char) with "c"%char;
       change (lower_char "f"%char) with "f"%char;
       change (lower_char "g"%char) with "g"%char.
  all: repeat match goal with
       | |- context [Ascii.eqb ?a ?b] => destruct (Ascii.eqb a b)
       end; done.
Qed.

Lemma startswith_app_l p s t : startswith p s = true -> startswith p (s ++ t) = true.
Proof.
  intros [v ->]%startswith_spec. rewrite <- app_assoc. apply startswith_app.
Qed.

Lemma contains_drop p s :
  contains p s = true <-> exists i, startswith p (drop i s) = true.
Proof.
  split.
  - intros (u & v & ->)%contains_spec. exists (length u).
    rewrite drop_app_length. apply startswith_app.
  - intros [i H]. apply contains_spec. apply startswith_spec in H as [v Hv].
    exists (take i s), v. by rewrite <- Hv, take_drop.
Qed.

(** What a run of [(?!cfg)[^DQ]] matches: at none of its places the text
    goes on with [cfg]. *)
Lemma Matches_guarded_run g prev w rest c c' :
  Matches true (Star g (Seq (NotAhead (Lit (txt "cfg"))) (NoneOf [dquote])))
    prev w rest c c' ->
  forall i, i < length w ->
    startswith (txt "cfg") (lower (drop i (w ++ rest))) = false.
Proof.
  intros H. remember (Star g (Seq (NotAhead (Lit (txt "cfg"))) (NoneOf [dquote])))
    as r eqn:Hr.
  induction H as [| | | | | | | | | | |g' r' prev w1 w2 rest c c1 c2 Hne H1 _ H2 IH| |];
    try discriminate; [simpl; lia|].
  injection Hr as -> ->. specialize (IH eq_refl).
  inversion H1 as [| | | | | | |? ? ? u1 u2 ? ? ? ? Hn Hc| | | | | |]; subst.
  inversion Hn; subst. inversion Hc; subst.
  match goal with E : rmatch _ _ _ _ _ _ _ = None |- _ =>
    apply not_ahead_cfg in E; rename E into Ha end.
  intros [|i] Hi.
  - by rewrite <- app_assoc.
  - cbn [app drop]. apply IH. simpl in Hi. lia.
Qed.

Lemma lower_drop i s : lower (drop i s) = drop i (lower s).
Proof. unfold lower. by rewrite fmap_drop. Qed.

Lemma res_base_hit content w c :
  Hit w c ∈ scan true res_base_re None content 0 ->
  exists g1 g2 g3, c = [(3, g3); (2, g2); (1, g1)] /\ w = g1 ++ g2 ++ g3
    /\ base_head g1 /\ g3 = [dquote]
    /\ (exists stem ext, g2 = stem ++ ext /\ stem <> [] /\ lower ext = txt ".res")
    /\ contains (txt "cfg") (lower g2) = false.
Proof.
  intros H. apply scan_hit_Matches in H as (u & rest & _ & _ & H).
  apply three_groups in H as (g1 & g2 & g3 & -> & -> & H1 & H2 & H3); [|done..].
  exists g1, g2, g3. split; [done|]. split; [done|].
  split; [by eapply Matches_base_head|]. split.
  { inversion H3; subst. by match goal with H : chr_eq _ _ _ = true |- _ =>
      apply chr_eq_dquote in H as -> end. }
  cbn [Seqs] in H2. unfold Plus in H2.
  inversion H2 as [| | | | | | |? ? ? stem ext ? ? ? ? Hs He| | | | | |]; subst.
  apply (Matches_Lit_ci (txt ".res")) in He as [He _].
  inversion Hs as [| | | | | | |? ? ? s1 s2 ? ? ? ? Hs1 Hs2| | | | | |]; subst.
  assert (Hne : s1 <> []).
  { inversion Hs1 as [| | | | | | |? ? ? a1 a2 ? ? ? ? Ha1 Ha2| | | | | |]; subst.
    inversion Ha1; subst. inversion Ha2; subst. done. }
  assert (Hrun : Matches true
            (Star true (Seq (NotAhead (Lit (txt "cfg"))) (NoneOf [dquote])))
            (last_of (last_of None u) g1) (s1 ++ s2) (ext ++ g3 ++ rest)
            [(1, g1)] [(1, g1)]).
  { assert (c0 = [(1, g1)]) as -> by (eapply Matches_groupless; [|exact Hs1]; done).
    assert (c1 = [(1, g1)]) as -> by (eapply Matches_groupless; [|exact Hs2]; done).
    by econstructor. }
  split.
  { exists (s1 ++ s2), ext. split; [done|]. split; [by destruct s1|done]. }
  destruct (contains (txt "cfg") (lower ((s1 ++ s2) ++ ext))) eqn:C; [|done].
  exfalso. apply contains_drop in C as [i Hi].
  destruct (decide (i < length (s1 ++ s2))) as [Hlt|Hge].
  - pose proof (Matches_guarded_run _ _ _ _ _ _ Hrun i Hlt) as Hno.
    rewrite <- lower_drop in Hi.
    rewrite app_assoc, drop_app_le, lower_app in Hno
      by (rewrite length_app; lia).
    by rewrite (startswith_app_l _ _ _ Hi) in Hno.
  - rewrite lower_app, He, drop_app_ge in Hi by (rewrite lower_length; lia).
    rewrite lower_length in Hi.
    destruct (i - length (s1 ++ s2)) as [|[|[|[|[|j]]]]]; vm_compute in Hi;
      discriminate Hi.
Qed.

(** The res-base pass copies every character outside the directives it
    matches; a matched directive is its head ([#base] in any case, white
    space, a double quote), a path that ends in [.res] in any case and holds
    [cfg] in no case, and the closing double quote; only the path is
    rewritten, to its slash-converted lowercase form.  The text keeps its
    length. *)
Theorem res_base_frame (content : text) :
  let pieces := scan true res_base_re None content 0 in
  concat (map raw pieces) = content
  /\ normalize_res_base_paths content
     = concat (map (fun p => match p with
                             | Skip a => [a]
                             | Hit w c => normalize_res_path w c
                             end) pieces)
  /\ (forall w c, Hit w c ∈ pieces ->
        exists head path,
          w = head ++ path ++ [dquote] /\ base_head head
          /\ (exists stem ext, path = stem ++ ext /\ stem <> []
                               /\ lower ext = txt ".res")
          /\ contains (txt "cfg") (lower path) = false
          /\ normalize_res_path w c = head ++ lower (to_slashes path) ++ [dquote])
  /\ length (normalize_res_base_paths content) = length content.
Proof.
  intros pieces.
  assert (Hhit : forall w c, Hit w c ∈ pieces ->
        exists head path,
          w = head ++ path ++ [dquote] /\ base_head head
          /\ (exists stem ext, path = stem ++ ext /\ stem <> []
                               /\ lower ext = txt ".res")
          /\ contains (txt "cfg") (lower path) = false
          /\ normalize_res_path w c = head ++ lower (to_slashes path) ++ [dquote]).
  { intros w c H.
    apply res_base_hit in H as (g1 & g2 & g3 & -> & -> & Hh & -> & Hs & Hc).
    by exists g1, g2. }
  split; [apply (scan_raw true res_base_re None content 0)|].
  split; [reflexivity|]. split; [exact Hhit|].
  rewrite <- (scan_raw true res_base_re None content 0) at 2.
  unfold normalize_res_base_paths, re_sub. fold pieces.
  apply concat_map_length, Forall_forall. intros [a|w c] Hp; [done|].
  apply Hhit in Hp as (h & v & -> & _ & _ & _ & ->). cbn [raw].
  by rewrite !length_app, lower_length, to_slashes_length.
Qed.

Lemma chr_eq_slash x : chr_eq true slash x = true -> x = slash.
Proof.
  unfold chr_eq. intros H. apply Ascii.eqb_eq in H.
  revert H. ascii_cases x; vm_compute; congruence.
Qed.

Lemma chr_eq_backslash x : chr_eq true backslash x = true -> x = backslash.
Proof.
  unfold chr_eq. intros H. apply Ascii.eqb_eq in H.
  revert H. ascii_cases x; vm_compute; congruence.
Qed.

Lemma chr_in_dquote_false ic a :
  chr_in ic [dquote] a = false -> negb (Ascii.eqb a dquote) = true.
Proof.
  intros H. destruct (Ascii.eqb a dquote) eqn:E; [|done].
  apply Ascii.eqb_eq in E as ->. destruct ic; vm_compute in H; discriminate H.
Qed.

Lemma Matches_not_dquote_run ic g prev w rest c c' :
  Matches ic (Star g (NoneOf [dquote])) prev w rest c c' ->
  forallb (fun a => negb (Ascii.eqb a dquote)) w = true.
Proof.
  apply Matches_star_class. intros ? ? ? ? ? H. inversion H; subst.
  eexists. split; [done|]. by eapply chr_in_dquote_false.
Qed.

Lemma schema_hit content w c :
  Hit w c ∈ scan true schema_re None content 0 ->
  exists g2, c = [(2, g2); (1, [dquote])] /\ w = dquote :: g2
    /\ (exists word sep rest, g2 = word ++ sep :: rest
          /\ (lower word = txt "resource" \/ lower word = txt "scripts")
          /\ (sep = slash \/ sep = backslash) /\ rest <> []
          /\ forallb (fun a => negb (Ascii.eqb a dquote)) rest = true).
Proof.
  intros H. apply scan_hit_Matches in H as (u & rest & _ & _ & H).
  unfold schema_re in H. cbn [Seqs] in H.
  inversion H as [| | | | | | |? ? ? w1 w2 ? ? ? ? H1 H2| | | | | |]; subst.
  inversion H1 as [| | | | | | | | | | | |? ? ? ? ? ? ? Hq|]; subst.
  inversion Hq; subst.
  match goal with E : chr_eq _ _ _ = true |- _ => apply chr_eq_dquote in E as -> end.
  inversion H2 as [| | | | | | | | | | | |? ? ? ? ? ? ? Hp|]; subst.
  exists w2.
  assert (c1 = [(1, [dquote])]) as -> by (eapply Matches_groupless; [|exact Hp]; done).
  split; [done|]. split; [done|]. clear H H1 H2 Hq.
  unfold Plus in Hp.
  inversion Hp as [| | | | | | |? ? ? word tl ? ? ? ? Hw Ht| | | | | |]; subst.
  inversion Ht as [| | | | | | |? ? ? sp rs ? ? ? ? Hsep Hrs| | | | | |]; subst.
  inversion Hsep as [| | | |? sep ? ? ? Hin| | | | | | | | |]; subst.
  inversion Hrs as [| | | | | | |? ? ? r1 r2 ? ? ? ? Hr1 Hr2| | | | | |]; subst.
  inversion Hr1 as [| | | | |? a ? ? ? Ha| | | | | | | |]; subst.
  exists word, sep, ([a] ++ r2). split; [done|]. split.
  { inversion Hw as [| | | | | | | |? ? ? ? ? ? ? Hl|? ? ? ? ? ? ? Hl| | | |]; subst.
    - left. by apply (Matches_Lit_ci (txt "resource")) in Hl as [-> _].
    - right. by apply (Matches_Lit_ci (txt "scripts")) in Hl as [-> _]. }
  split.
  { unfold chr_in in Hin. cbn [existsb] in Hin.
    apply orb_true_iff in Hin as [Hin|Hin]; [left; by apply chr_eq_slash|].
    apply orb_true_iff in Hin as [Hin|Hin]; [right; by apply chr_eq_backslash|done]. }
  split; [done|]. cbn [app forallb].
  apply chr_in_dquote_false in Ha. rewrite Ha.
  by apply Matches_not_dquote_run in Hr2.
Qed.

(** The schema pass copies every character outside its matches; a match
    is a double quote followed by [resource] or [scripts] in any case, a
    slash or backslash, and at least one more character, none of them a
    double quote; what follows the quote is rewritten to its
    slash-converted lowercase form.  The text keeps its length. *)
Theorem schema_frame (content : text) :
  let pieces := scan true schema_re None content 0 in
  concat (map raw pieces) = content
  /\ normalize_schema_declarations content
     = concat (map (fun p => match p with
                             | Skip a => [a]
                             | Hit w c => normalize_schema w c
                             end) pieces)
  /\ (forall w c, Hit w c ∈ pieces ->
        exists word sep rest,
          w = dquote :: word ++ sep :: rest
          /\ (lower word = txt "resource" \/ lower word = txt "scripts")
          /\ (sep = slash \/ sep = backslash) /\ rest <> []
          /\ forallb (fun a => negb (Ascii.eqb a dquote)) rest = true
          /\ normalize_schema w c
             = dquote :: lower (to_slashes (word ++ sep :: rest)))
  /\ length (normalize_schema_declarations content) = length content.
Proof.
  intros pieces.
  assert (Hhit : forall w c, Hit w c ∈ pieces ->
        exists word sep rest,
          w = dquote :: word ++ sep :: rest
          /\ (lower word = txt "resource" \/ lower word = txt "scripts")
          /\ (sep = slash \/ sep = backslash) /\ rest <> []
          /\ forallb (fun a => negb (Ascii.eqb a dquote)) rest = true
          /\ normalize_schema w c
             = dquote :: lower (to_slashes (word ++ sep :: rest))).
  { intros w c H.
    apply schema_hit in H as (g2 & -> & -> & word & sep & rest & -> & Hw & Hs & Hr & Hq).
    exists word, sep, rest. by split_and!. }
  split; [apply (scan_raw true schema_re None content 0)|].
  split; [reflexivity|]. split; [exact Hhit|].
  rewrite <- (scan_raw true schema_re None content 0) at 2.
  unfold normalize_schema_declarations, re_sub. fold pieces.
  apply concat_map_length, Forall_forall. intros [a|w c] Hp; [done|].
  apply Hhit in Hp as (word & sep & rest & -> & _ & _ & _ & _ & ->). cbn [raw].
  cbn [length]. by rewrite lower_length, to_slashes_length.
Qed.

(** ** Running the cfg pass twice *)

Lemma to_slashes_app s t : to_slashes (s ++ t) = to_slashes s ++ to_slashes t.
Proof. apply map_app. Qed.

Lemma to_slashes_idem s : to_slashes (to_slashes s) = to_slashes s.
Proof.
  unfold to_slashes. rewrite map_map. apply map_ext. intros a.
  destruct (Ascii.eqb a backslash) eqn:E; [done|]. by rewrite E.
Qed.

Lemma to_slashes_ups n : to_slashes (ups n) = ups n.
Proof.
  induction n as [|n IH]; [done|]. change (ups (S n)) with (txt "../" ++ ups n).
  by rewrite to_slashes_app, IH.
Qed.

Lemma lower_to_slashes s : lower (to_slashes s) = to_slashes (lower s).
Proof.
  unfold lower, to_slashes. rewrite !map_map. apply map_ext. intros a.
  ascii_cases a; reflexivity.
Qed.

Lemma extract_ups n rest :
  startswith (txt "../") rest = false ->
  extract_path_after_parents (ups n ++ rest) = rest.
Proof.
  intros H. induction n as [|n IH]; [|exact IH].
  cbn [ups app]. by rewrite extract_unfold, H.
Qed.

Lemma to_slashes_extract s :
  to_slashes s = s ->
  to_slashes (extract_path_after_parents s) = extract_path_after_parents s.
Proof.
  intros H. pose proof (extract_split s) as E.
  set (e := extract_path_after_parents s) in *.
  set (k := leading_ups s) in *. clearbody e k. subst s.
  rewrite to_slashes_app, to_slashes_ups in H. by apply app_inv_head in H.
Qed.

(** On a lowercase path the rewriting of the cfg pass reaches a fixed
    point at once: applied to its own result it changes nothing. *)
Theorem cfg_path_idempotent (d : nat) (path : text) :
  lower path = path ->
  cfg_path d (cfg_path d path) = cfg_path d path.
Proof.
  intros Hl.
  assert (Hs : lower (to_slashes path) = to_slashes path)
    by by rewrite lower_to_slashes, Hl.
  assert (Hfix : forall r, to_slashes r = r -> lower r = r ->
            lower (ups (d + 2) ++ extract_path_after_parents r) = r ->
            cfg_path d r = r).
  { intros r Ht Hr He. unfold cfg_path, CFG_DEPTH_OFFSET. rewrite Ht.
    destruct (contains _ r); [|done]. by destruct (negb _). }
  destruct (contains (txt "/cfg/") (to_slashes path)) eqn:C.
  - destruct (decide (count (txt "../") (to_slashes path) = d + 2)) as [E|E].
    + rewrite (cfg_path_kept d path) by by right. rewrite Hs.
      unfold cfg_path, CFG_DEPTH_OFFSET. rewrite to_slashes_idem, C, E.
      by rewrite Nat.eqb_refl.
    + rewrite (cfg_path_reprefixed d path C E).
      set (e := extract_path_after_parents (to_slashes path)).
      assert (He : startswith (txt "../") (lower e) = false)
        by (rewrite startswith_up_lower; apply extract_no_up).
      apply Hfix.
      * rewrite to_slashes_app, to_slashes_ups, <- lower_to_slashes.
        unfold e. by rewrite to_slashes_extract by apply to_slashes_idem.
      * by rewrite lower_app, lower_ups, lower_idem.
      * rewrite extract_ups by done. by rewrite lower_app, lower_ups, lower_idem.
  - rewrite (cfg_path_kept d path) by by left. rewrite Hs.
    unfold cfg_path. by rewrite to_slashes_idem, C.
Qed.

(** A lowercase path at depth 0 with one [../] too few; and a path in
    capitals, for which the second application differs from the first. *)
Lemma cfg_path_idempotent_witness :
  cfg_path 0 (cfg_path 0 (txt "../cfg/x.txt")) = txt "../../cfg/x.txt"
  /\ cfg_path 0 (txt "../CFG/x.txt") = txt "../cfg/x.txt"
  /\ cfg_path 0 (cfg_path 0 (txt "../CFG/x.txt")) = txt "../../cfg/x.txt".
Proof.
  split; [|split; vm_compute; reflexivity].
  rewrite (cfg_path_idempotent 0 (txt "../cfg/x.txt")) by (vm_compute; reflexivity).
  vm_compute. reflexivity.
Defined.

(** ** Inserting the canonical segment *)

Lemma rmatch_Lit_here A l prev s c (k : cont A) :
  rmatch false A (Lit l) prev (l ++ s) c k = k (last_of prev l) s c.
Proof.
  revert prev. induction l as [|a l IH]; intros prev; [done|].
  destruct l as [|b l].
  - cbn [Lit rmatch app chr_eq]. by rewrite Ascii.eqb_refl.
  - change (Lit (a :: b :: l)) with (Seq (Chr a) (Lit (b :: l))).
    cbn [rmatch app chr_eq]. rewrite Ascii.eqb_refl.
    change (b :: l ++ s) with ((b :: l) ++ s). rewrite IH.
    by rewrite (last_of_cons prev a (b :: l)).
Qed.

Lemma rmatch_Lit_fail A l prev s c (k : cont A) :
  l <> [] -> startswith l s = false ->
  rmatch false A (Lit l) prev s c k = None.
Proof.
  revert prev s. induction l as [|a l IH]; intros prev s Hl H; [done|].
  destruct s as [|x s]; [by destruct l|]. cbn [startswith] in H.
  destruct l as [|b l].
  - cbn [Lit rmatch chr_eq]. cbn [startswith] in H. rewrite andb_true_r in H.
    by rewrite H.
  - change (Lit (a :: b :: l)) with (Seq (Chr a) (Lit (b :: l))).
    cbn [rmatch chr_eq]. destruct (Ascii.eqb a x); [|done].
    apply IH; [done|exact H].
Qed.

(** A greedy run of [(\.\./)] over leading [../] segments, followed by
    something that matches after the last of them. *)
Lemma ups_star_some (k : cont (caps * text)) (s t : text) :
  startswith (txt "../") s = false ->
  (forall p c, exists c', k p s c = Some (c', t)) ->
  forall n fuel prev c, n < fuel ->
    exists c', star_loop false _ (Group 1 (Lit (txt "../"))) true k fuel prev
                 (ups n ++ s) c = Some (c', t).
Proof.
  intros Hs Hk. induction n as [|n IH]; intros fuel prev c Hf;
    (destruct fuel as [|fuel]; [lia|]).
  - cbn [ups app star_loop]. cbn [rmatch].
    rewrite rmatch_Lit_fail by done. apply Hk.
  - change (ups (S n) ++ s) with (txt "../" ++ (ups n ++ s)).
    cbn [star_loop]. cbn [rmatch]. rewrite rmatch_Lit_here.
    assert (Hlt : length (ups n ++ s) <? length (txt "../" ++ ups n ++ s) = true).
    { apply Nat.ltb_lt. rewrite (length_app (txt "../")). simpl. lia. }
    rewrite Hlt. destruct (IH fuel (last_of prev (txt "../"))
      ((1, take (length (txt "../" ++ ups n ++ s) - length (ups n ++ s))
              (txt "../" ++ ups n ++ s)) :: c)) as [c' ->]; [lia|].
    by exists c'.
Qed.

Lemma length_ups n : length (ups n) = 3 * n.
Proof. induction n as [|n IH]; [done|]. cbn [ups length]. lia. Qed.

Lemma scan_skip ic r prev u t :
  scan ic r prev (u ++ t) (length u) = scan ic r (last_of prev u) t 0.
Proof.
  revert prev. induction u as [|a u IH]; intros prev; [done|].
  cbn [app length]. rewrite scan_cons, IH. by rewrite last_of_cons.
Qed.

(** A match at the front of the text is the first piece of the scan. *)
Lemma scan_hit_here ic r prev w t c :
  w <> [] -> match_at ic r prev (w ++ t) = Some (c, t) ->
  scan ic r prev (w ++ t) 0 = Hit w c :: scan ic r (last_of prev w) t 0.
Proof.
  intros Hw H. destruct w as [|a w]; [done|].
  change ((a :: w) ++ t) with (a :: w ++ t) in *. rewrite scan_cons, H.
  replace (length (a :: w ++ t) - length t) with (S (length w))
    by (cbn [length]; rewrite length_app; lia).
  rewrite scan_skip, last_of_cons. f_equal. f_equal.
  change (a :: w ++ t) with ((a :: w) ++ t).
  by rewrite (take_app_length' (a :: w) t).
Qed.

Lemma rmatch_Seq ic A r1 r2 prev s c (k : cont A) :
  rmatch ic A (Seq r1 r2) prev s c k
  = rmatch ic A r1 prev s c (fun p' s' c' => rmatch ic A r2 p' s' c' k).
Proof. reflexivity. Qed.

Lemma rmatch_Group ic A n r0 prev s c (k : cont A) :
  rmatch ic A (Group n r0) prev s c k
  = rmatch ic A r0 prev s c
      (fun p' s' c' => k p' s' ((n, take (length s - length s') s) :: c')).
Proof. reflexivity. Qed.

Lemma match_ups_seg seg prev n t :
  startswith (txt "../") (seg ++ t) = false ->
  exists c, match_at false (Seq (Plus (Group 1 (Lit (txt "../")))) (Lit seg)) prev
              ((ups (S n) ++ seg) ++ t) = Some (c, t).
Proof.
  intros Hs. unfold match_at, Plus.
  rewrite <- app_assoc. change (ups (S n) ++ seg ++ t) with (txt "../" ++ (ups n ++ seg ++ t)).
  rewrite !rmatch_Seq, rmatch_Group, rmatch_Lit_here, rmatch_Star.
  apply ups_star_some; [done| |rewrite length_app, length_ups; lia].
  intros p c. rewrite rmatch_Lit_here. by eexists.
Qed.

Lemma no_match_ups_seg seg s :
  contains (txt "../" ++ seg) s = false ->
  forall prev v, suffix v s ->
    match_at false (Seq (Plus (Group 1 (Lit (txt "../")))) (Lit seg)) prev v = None.
Proof.
  intros Hc prev v Hv.
  destruct (match_at _ _ _ _) as [[c rest]|] eqn:Hm; [|done].
  apply match_at_sound in Hm as (w & -> & Hm).
  apply Matches_ups_seg in Hm as [u ->].
  apply contains_false_not_occurs in Hc. destruct Hc.
  apply (occurs_suffix _ _ _ Hv). exists u, rest. by rewrite <- !app_assoc.
Qed.

(** The inner substitution on a path that starts with a run of [../]
    right before the segment: the whole run and the segment are replaced. *)
Lemma re_sub_ups_seg seg repl n t :
  seg <> [] -> startswith (txt "../") (seg ++ t) = false ->
  contains (txt "../" ++ seg) t = false ->
  re_sub false (Seq (Plus (Group 1 (Lit (txt "../")))) (Lit seg)) (fun _ _ => repl)
    (ups (S n) ++ seg ++ t) = repl ++ t.
Proof.
  intros Hseg Hs Hc. unfold re_sub. rewrite app_assoc.
  destruct (match_ups_seg seg None n t Hs) as [c Hm].
  assert (Hw : ups (S n) ++ seg <> []) by done.
  rewrite (scan_hit_here false _ None (ups (S n) ++ seg) t c Hw Hm).
  cbn [map concat]. f_equal.
  rewrite scan_no_match.
  - rewrite map_map. cbn. clear. induction t as [|a t IH]; [done|].
    cbn [map concat app]. by rewrite IH.
  - intros u v ->. apply (no_match_ups_seg seg (u ++ v) Hc). by exists u.
Qed.

Lemma ups_snoc n : ups (S n) = ups n ++ txt "../".
Proof.
  induction n as [|n IH]; [done|].
  change (ups (S (S n))) with (txt "../" ++ ups (S n)). rewrite IH at 1. done.
Qed.

Lemma contains_after_ups seg n t :
  contains ("/"%char :: seg) (ups (S n) ++ seg ++ t) = true.
Proof.
  apply contains_spec. exists (ups n ++ txt ".."), t.
  rewrite ups_snoc, <- !app_assoc. done.
Qed.

(** For a HUD name without backslash, a path that starts with a run of
    [../] right before [resource/] (respectively [scripts/]) and does not
    hold the canonical segment gets the whole run replaced by
    [../../custom/<hud_name>/], whatever the length of the run; what follows
    the segment is kept when it holds no further [../resource/]
    (respectively [../scripts/]). *)
Theorem echo_inserts_canonical (hud_name t : text) (n : nat) :
  plain_name hud_name ->
  (contains (txt "/custom/" ++ hud_name ++ txt "/resource/")
     (ups (S n) ++ txt "resource/" ++ t) = false ->
   contains (txt "../resource/") t = false ->
   explicit_resource hud_name (ups (S n) ++ txt "resource/" ++ t)
   = txt "../../custom/" ++ hud_name ++ txt "/resource/" ++ t)
  /\ (contains (txt "/custom/" ++ hud_name ++ txt "/scripts/")
        (ups (S n) ++ txt "scripts/" ++ t) = false ->
      contains (txt "../scripts/") t = false ->
      explicit_scripts hud_name (ups (S n) ++ txt "scripts/" ++ t)
      = txt "../../custom/" ++ hud_name ++ txt "/scripts/" ++ t).
Proof.
  intros _. split; intros Hg Ht.
  - unfold explicit_resource.
    pose proof (contains_after_ups (txt "resource/") n t) as Hc.
    change ("/"%char :: txt "resource/") with (txt "/resource/") in Hc.
    rewrite Hc, Hg. cbn [negb andb].
    unfold ups_resource_re. rewrite re_sub_ups_seg; [|done|done|done].
    by rewrite <- !app_assoc.
  - unfold explicit_scripts.
    pose proof (contains_after_ups (txt "scripts/") n t) as Hc.
    change ("/"%char :: txt "scripts/") with (txt "/scripts/") in Hc.
    rewrite Hc, Hg. cbn [negb andb].
    unfold ups_scripts_re. rewrite re_sub_ups_seg; [|done|done|done].
    by rewrite <- !app_assoc.
Qed.

(** Three levels up to [resource/], in a HUD called [myhud]. *)
Lemma echo_inserts_canonical_witness :
  plain_name (txt "myhud")
  /\ explicit_resource (txt "myhud") (txt "../../../resource/ui/Foo.res")
     = txt "../../custom/myhud/resource/ui/Foo.res".
Proof.
  assert (P : plain_name (txt "myhud")) by reflexivity.
  split; [exact P|].
  destruct (echo_inserts_canonical (txt "myhud") (txt "ui/Foo.res") 2 P) as [H _].
  apply H; vm_compute; reflexivity.
Defined.

(** ** How the program ends *)

Lemma bind_ok {A B} (m : M A) (k : A -> M B) w b w2 :
  bind m k w = (Ok b, w2) ->
  exists a w1, m w = (Ok a, w1) /\ k a w1 = (Ok b, w2).
Proof. unfold bind. destruct (m w) as [[a|e|c|] w1]; try done. eauto. Qed.

Lemma bind_exit {A B} (m : M A) (k : A -> M B) w c w2 :
  bind m k w = (Exit c, w2) ->
  m w = (Exit c, w2) \/ exists a w1, m w = (Ok a, w1) /\ k a w1 = (Exit c, w2).
Proof.
  unfold bind. destruct (m w) as [[a|e|c'|] w1]; try done; [eauto|].
  intros [= -> ->]. by left.
Qed.

Lemma bind_no_fuel {A B} (m : M A) (k : A -> M B) w w2 :
  bind m k w = (NoFuel, w2) ->
  m w = (NoFuel, w2) \/ exists a w1, m w = (Ok a, w1) /\ k a w1 = (NoFuel, w2).
Proof.
  unfold bind. destruct (m w) as [[a|e|c'|] w1]; try done; [eauto|].
  intros [= ->]. by left.
Qed.

(** The outcome is a return or an uncaught exception. *)
Lemma for_each_plain {A S} (l : list A) (body : A -> S -> M S) :
  (forall x s w, plain (fst (body x s w))) ->
  forall s w, plain (fst (for_each l s body w)).
Proof.
  intros Hb. induction l as [|x l IH]; intros s w; [done|].
  cbn [for_each]. unfold bind. specialize (Hb x s w).
  destruct (body x s w) as [[s1|e|c|] w1]; [apply IH|done..].
Qed.

Lemma os_rename_plain p q w : plain (fst (os_rename p q w)).
Proof.
  unfold os_rename. destruct p as [|a p]; [done|].
  destruct (files w !! (a :: p)) as [n|]; [|done].
  destruct (negb _); [done|]. destruct (bool_decide _); [done|].
  destruct (bool_decide _); [done|]. destruct q as [|b q]; [done|].
  destruct (files w !! (b :: q)) as [[|d]|], n; try done.
  by destruct (has_children _ _).
Qed.

Lemma lowercase_entry_plain item n w : plain (fst (lowercase_entry item n w)).
Proof.
  unfold lowercase_entry. destruct (bool_decide _); [|done].
  unfold bind, get_files. destruct (negb _); [|done].
  pose proof (os_rename_plain item (parent item ++ [lower (basename item)]) w) as H.
  by destruct (os_rename _ _ w) as [[[]|e|c|] w1].
Qed.

Lemma normalize_filenames_plain hud_dir w :
  plain (fst (normalize_filenames hud_dir w)).
Proof.
  unfold normalize_filenames, normalize_filenames_on.
  unfold bind at 1. unfold get_files. unfold bind at 1. rewrite print_post.
  unfold bind.
  match goal with |- context [for_each ?l 0 lowercase_entry ?w0] =>
    pose proof (for_each_plain l lowercase_entry lowercase_entry_plain 0 w0) as H;
    destruct (for_each l 0 lowercase_entry w0) as [[n|e|c|] w1] end; try done.
  by destruct (0 <? n).
Qed.

Lemma for_each_no_exit {A S} (l : list A) (body : A -> S -> M S) :
  (forall x s w c, fst (body x s w) <> Exit c) ->
  forall s w c, fst (for_each l s body w) <> Exit c.
Proof.
  intros Hb. induction l as [|x l IH]; intros s w c; [done|].
  cbn [for_each]. unfold bind. specialize (Hb x s w).
  destruct (body x s w) as [[s1|e|c'|] w1]; [apply IH|done| |done].
  by destruct (Hb c').
Qed.

Lemma read_text_plain file w : plain (fst (read_text file w)).
Proof. unfold read_text. by destruct (files w !! file) as [[|d]|]. Qed.

Lemma write_text_plain file content w : plain (fst (write_text file content w)).
Proof. by destruct (write_text_cases file content w) as [->|[e ->]]. Qed.

Lemma font_pass_plain file w :
  plain (fst (normalize_clientscheme_font_paths file w)).
Proof.
  unfold normalize_clientscheme_font_paths, bind, log_font_call.
  match goal with |- context [read_text file ?w0] =>
    pose proof (read_text_plain file w0) as H;
    destruct (read_text file w0) as [[s|e|c|] w1] end; try done.
  destruct (bool_decide _); [|done].
  pose proof (write_text_plain file (normalize_font_text s) w1) as H1.
  by destruct (write_text _ _ w1) as [[[]|e|c|] w2].
Qed.

Lemma process_clientscheme_no_exit fuel limit file st w c :
  fst (process_clientscheme fuel limit file st w) <> Exit c.
Proof.
  revert limit file st w c.
  induction fuel as [|fuel IH]; intros limit file [visited n] w c; [done|].
  destruct limit as [|limit]; [done|].
  rewrite process_clientscheme_S.
  destruct (has_nul_path file); [done|].
  destruct (bool_decide _); [done|]. unfold bind at 1.
  destruct (exists_cases file w) as [[b ->]| ->]; [|done].
  destruct b; cbn [negb]; [|done]. unfold bind at 1.
  pose proof (font_pass_plain file w) as H1.
  destruct (normalize_clientscheme_font_paths file w) as [[b|e|c1|] w1]; try done.
  unfold bind at 1. pose proof (read_text_plain file w1) as H2.
  destruct (read_text file w1) as [[s|e|c2|] w2]; try done.
  apply for_each_no_exit. intros x s0 w0 c0.
  destruct (has_nul _); [done|apply IH].
Qed.

Lemma normalize_clientschemes_plain limit hud_dir w :
  plain (fst (normalize_clientschemes limit hud_dir w)).
Proof.
  rewrite normalize_clientschemes_eq. cbv zeta.
  destruct (exists_cases (hud_dir ++ [txt "resource"; txt "clientscheme.res"]) w)
    as [[present ->]| ->]; [|done].
  cbn [fst]. destruct present; [|done].
  match goal with |- context [process_clientscheme ?f ?l ?p ?st ?w1] =>
    pose proof (process_clientscheme_no_exit f l p st w1) as HE;
    pose proof (process_clientscheme_walk f l p ∅ 0 w1) as HW end.
  destruct HW as (_ & new & _ & _ & _ & HW).
  { cbn [files]. rewrite <- size_dom.
    assert (size (dom (files w) ∖ ∅) <= size (dom (files w))); [|lia].
    apply subseteq_size. set_solver. }
  destruct (process_clientscheme _ _ _ _ _) as [[[v k]|e|c|] w2]; try done.
  by destruct (HE c).
Qed.

(** The walk nests no deeper than there are entries. *)
Lemma normalize_clientschemes_shallow limit hud_dir w :
  size (files w) < limit ->
  fst (normalize_clientschemes limit hud_dir w) <> Raise RecursionError.
Proof.
  intros Hlim. rewrite normalize_clientschemes_eq. cbv zeta.
  destruct (exists_cases (hud_dir ++ [txt "resource"; txt "clientscheme.res"]) w)
    as [[present ->]| ->]; [|done].
  cbn [fst]. destruct present; [|done].
  match goal with |- context [process_clientscheme ?f ?l ?p ?st ?w1] =>
    pose proof (process_clientscheme_walk f l p ∅ 0 w1) as HW end.
  destruct HW as (_ & new & _ & _ & _ & HW).
  { cbn [files]. rewrite <- size_dom.
    assert (size (dom (files w) ∖ ∅) <= size (dom (files w))); [|lia].
    apply subseteq_size. set_solver. }
  assert (Hsz : size (dom (files w) ∖ ∅) <= size (files w)).
  { rewrite <- size_dom. apply subseteq_size. set_solver. }
  destruct (process_clientscheme _ _ _ _ _) as [[[v k]|e|c|] w2];
    cbn [fst snd files] in *; try done.
  intros [= ->]. specialize (HW eq_refl). lia.
Qed.

Lemma normalize_logbase_paths_plain hud_dir w :
  plain (fst (normalize_logbase_paths hud_dir w)).
Proof.
  rewrite normalize_logbase_paths_eq.
  match goal with |- context [process_cfg_files ?d ?n ?w0] =>
    pose proof (cfg_stage_post d n w0) as (A1 & A2 & _) end. cbv zeta in *.
  destruct (process_cfg_files _ _ _) as [[[]|e|c|] w1]; cbn [fst] in *;
    [|done|by destruct (A2 c)|done].
  pose proof (res_stage_post hud_dir w1) as (B1 & B2 & _). cbv zeta in *.
  destruct (process_res_files hud_dir w1) as [[[]|e|c|] w2]; cbn [fst] in *;
    [done|done|by destruct (B2 c)|done].
Qed.

(** *** No [RecursionError] outside the walk, and no new entries before it *)

Lemma bind_no_rec {A B} (m : M A) (k : A -> M B) w :
  fst (m w) <> Raise RecursionError ->
  (forall a w1, fst (k a w1) <> Raise RecursionError) ->
  fst (bind m k w) <> Raise RecursionError.
Proof.
  intros Hm Hk. unfold bind.
  destruct (m w) as [[a|e|c|] w1]; cbn [fst] in *; [apply Hk| |done..].
  intros [= ->]. by apply Hm.
Qed.

Lemma for_each_no_rec {A S} (l : list A) (body : A -> S -> M S) :
  (forall x s w, fst (body x s w) <> Raise RecursionError) ->
  forall s w, fst (for_each l s body w) <> Raise RecursionError.
Proof.
  intros Hb. induction l as [|x l IH]; intros s w; [done|].
  cbn [for_each]. apply bind_no_rec; [apply Hb|]. intros a w1. apply IH.
Qed.

Lemma rewrite_file_no_rec tr file n w :
  fst (rewrite_file tr file n w) <> Raise RecursionError.
Proof.
  unfold rewrite_file. apply bind_no_rec; [apply read_text_no_rec|].
  intros s w1. cbv zeta. destruct (bool_decide _); [|done].
  apply bind_no_rec; [apply write_text_no_rec|done].
Qed.

Lemma print_no_rec m w : fst (print m w) <> Raise RecursionError.
Proof. done. Qed.

Lemma process_cfg_files_no_rec hud_dir hud_name w :
  fst (process_cfg_files hud_dir hud_name w) <> Raise RecursionError.
Proof.
  rewrite process_cfg_files_eq. apply bind_no_rec; [done|]. intros fs w1.
  destruct (negb _); [done|].
  apply bind_no_rec; [apply for_each_no_rec; intros; apply rewrite_file_no_rec|].
  intros n w2. by destruct (0 <? n).
Qed.

Lemma process_res_files_no_rec hud_dir w :
  fst (process_res_files hud_dir w) <> Raise RecursionError.
Proof.
  rewrite process_res_files_eq. apply bind_no_rec; [done|]. intros fs w1.
  apply bind_no_rec; [apply for_each_no_rec; intros; apply rewrite_file_no_rec|].
  intros n w2. by destruct (0 <? n).
Qed.

Lemma normalize_logbase_paths_no_rec hud_dir w :
  fst (normalize_logbase_paths hud_dir w) <> Raise RecursionError.
Proof.
  unfold normalize_logbase_paths. apply bind_no_rec; [done|]. intros [] w1.
  cbv zeta. apply bind_no_rec; [apply process_cfg_files_no_rec|].
  intros [] w2. apply process_res_files_no_rec.
Qed.

Lemma size_list_to_map_le (l : list (path * node)) :
  size (list_to_map l : gmap path node) <= length l.
Proof.
  induction l as [|[k v] l IH]; [cbn; by rewrite map_size_empty|].
  rewrite list_to_map_cons, map_size_insert. cbn [length].
  destruct (_ !! k); cbn; lia.
Qed.

Lemma move_size p q fs : size (move p q fs) <= size fs.
Proof.
  unfold move. etrans; [apply size_list_to_map_le|].
  rewrite length_fmap, length_map_to_list.
  apply map_subseteq_size, delete_subseteq.
Qed.

Lemma tame_bind {A B} (m : M A) (k : A -> M B) w :
  tame w (m w) -> (forall a w1, tame w1 (k a w1)) -> tame w (bind m k w).
Proof.
  intros [Hm Hs] Hk. unfold bind.
  destruct (m w) as [[a|e|c|] w1]; cbn [fst snd] in *.
  - destruct (Hk a w1) as [K1 K2]. split; [done|lia].
  - split; [|done]. intros [= ->]. by apply Hm.
  - by split.
  - by split.
Qed.

Lemma tame_for_each {A S} (l : list A) (body : A -> S -> M S) :
  (forall x s w, tame w (body x s w)) ->
  forall s w, tame w (for_each l s body w).
Proof.
  intros Hb. induction l as [|x l IH]; intros s w; [by split|].
  cbn [for_each]. apply tame_bind; [apply Hb|]. intros a w1. apply IH.
Qed.

Lemma os_rename_tame p q w : tame w (os_rename p q w).
Proof.
  unfold os_rename. destruct p as [|a p]; [by split|].
  destruct (files w !! (a :: p)) as [n|]; [|by split].
  destruct (negb _); [by split|]. destruct (bool_decide _); [by split|].
  destruct (bool_decide _); [by split|]. destruct q as [|b q]; [by split|].
  assert (Hm : tame w (Ok (), World (move (a :: p) (b :: q) (files w))
                                (output w) (fontlog w))).
  { split; [done|]. apply move_size. }
  destruct (files w !! (b :: q)) as [[|d]|], n; try done; try by split.
  by destruct (has_children _ _); [split|].
Qed.

Lemma lowercase_entry_tame item n w : tame w (lowercase_entry item n w).
Proof.
  unfold lowercase_entry. destruct (bool_decide _); [|by split].
  apply tame_bind; [by split|]. intros fs w1.
  destruct (negb _); [|by split].
  apply tame_bind; [apply os_rename_tame|]. by split.
Qed.

Lemma normalize_filenames_tame hud_dir w : tame w (normalize_filenames hud_dir w).
Proof.
  unfold normalize_filenames, normalize_filenames_on.
  apply tame_bind; [by split|]. intros fs w1.
  apply tame_bind; [by split|]. intros [] w2. cbv zeta.
  apply tame_bind; [apply tame_for_each, lowercase_entry_tame|].
  intros n w3. by destruct (0 <? n).
Qed.

Lemma walk_nowhere fs cur comps e :
  walk fs cur comps = Nowhere e -> e <> RecursionError.
Proof.
  revert cur. induction comps as [|c rest IH]; intros cur; [done|].
  cbn [walk]. destruct (is_dir fs cur).
  - destruct (bool_decide _); [apply IH|]. destruct (_ <? _); [done|apply IH].
  - destruct (path_exists fs cur); by intros [= <-].
Qed.

Lemma locate_nowhere fs cwd arg e :
  locate fs cwd arg = Nowhere e -> e <> RecursionError.
Proof.
  unfold locate. destruct (has_nul arg); [by intros [= <-]|].
  destruct (_ <=? _); [done|]. apply walk_nowhere.
Qed.

Lemma stages_end limit hud_path w :
  let r := (normalize_filenames hud_path;;
            normalize_clientschemes limit hud_path;;
            normalize_logbase_paths hud_path;;
            print MComplete;;
            print (MReady hud_path)) w in
  plain (fst r)
  /\ (size (files w) < limit -> fst r <> Raise RecursionError)
  /\ (fst r = Ok tt ->
      exists out, output (snd r) = out ++ [MComplete; MReady hud_path]).
Proof.
  unfold bind.
  pose proof (normalize_filenames_plain hud_path w) as H1.
  pose proof (normalize_filenames_tame hud_path w) as [T1 T2].
  destruct (normalize_filenames hud_path w) as [[[]|e|c|] w1];
    cbn [fst snd] in *; try done.
  pose proof (normalize_clientschemes_plain limit hud_path w1) as H2.
  pose proof (normalize_clientschemes_shallow limit hud_path w1) as S2.
  destruct (normalize_clientschemes limit hud_path w1) as [[[]|e|c|] w2];
    cbn [fst snd] in *; try done.
  2:{ split_and!; [done| |done]. intros Hl. apply S2. lia. }
  pose proof (normalize_logbase_paths_plain hud_path w2) as H3.
  pose proof (normalize_logbase_paths_no_rec hud_path w2) as S3.
  destruct (normalize_logbase_paths hud_path w2) as [[[]|e|c|] w3];
    cbn [fst snd] in *; try done.
  rewrite !print_post. cbn [fst snd output]. split_and!; [done..|]. intros _.
  exists (output w3). by rewrite <- app_assoc.
Qed.

(** The ways [main] ends, whatever the interpreter's limit.  It raises
    [RecursionError] only if the limit is not above the number of entries
    of the file system; it leaves through [sys.exit] only with status 1 and
    the file system untouched; and when it returns, the last two lines
    printed are the completion summary, naming the resolved path of the
    lowercased HUD folder name.  (The model itself always gives an outcome:
    its own bound is never reached.) *)
Theorem main_outcomes (limit : nat) (cwd : path) (argv : list text) (w : world) :
  let r := main limit cwd argv w in
  fst r <> NoFuel
  /\ (size (files w) < limit -> fst r <> Raise RecursionError)
  /\ (forall c, fst r = Exit c -> c = 1 /\ files (snd r) = files w)
  /\ (fst r = Ok tt ->
      exists prog name rest out hud_path,
        argv = prog :: name :: rest
        /\ locate (files w) cwd (lower name) = At hud_path
        /\ output (snd r) = out ++ [MComplete; MReady hud_path]).
Proof.
  set (good := fun r : outcome unit * world =>
    fst r <> NoFuel
    /\ (size (files w) < limit -> fst r <> Raise RecursionError)
    /\ (forall c, fst r = Exit c -> c = 1 /\ files (snd r) = files w)
    /\ (fst r = Ok tt ->
        exists prog name rest out hud_path,
          argv = prog :: name :: rest
          /\ locate (files w) cwd (lower name) = At hud_path
          /\ output (snd r) = out ++ [MComplete; MReady hud_path])).
  assert (Hu : forall w1, files w1 = files w -> good (Exit 1, w1)).
  { intros w1 Hf. unfold good. cbn [fst snd]. split_and!; [done|done| |done].
    by intros c [= <-]. }
  assert (He : forall e w1, e <> RecursionError -> good (Raise e, w1)).
  { intros e w1 Hne. unfold good. cbn [fst snd]. split_and!; [done| |done|done].
    intros _ [= ->]. done. }
  assert (Hs : forall prog name rest hud_path w0,
    argv = prog :: name :: rest ->
    locate (files w) cwd (lower name) = At hud_path ->
    size (files w0) <= size (files w) ->
    good ((normalize_filenames hud_path;;
           normalize_clientschemes limit hud_path;;
           normalize_logbase_paths hud_path;;
           print MComplete;;
           print (MReady hud_path)) w0)).
  { intros prog name rest hud_path w0 Ha Hl Hsz.
    pose proof (stages_end limit hud_path w0) as H. cbv zeta in H. revert H.
    match goal with |- _ -> good ?x => destruct x as [[[]|e|c|] w1] end;
      intros (P & Q & R); unfold good; cbn [fst snd] in *; try done.
    - split_and!; [done|done|done|]. intros _.
      destruct (R eq_refl) as [out Ho]. by exists prog, name, rest, out, hud_path.
    - split_and!; [done| |done|done]. intros Hlim. apply Q. lia. }
  intros r. change (good r).
  assert (Hr : r = main limit cwd argv w) by reflexivity. clearbody r.
  unfold main in Hr. destruct argv as [|prog [|name rest]].
  - subst r. by apply Hu.
  - subst r. by apply Hu.
  - unfold bind at 1 in Hr. unfold get_files in Hr.
    destruct (locate (files w) cwd name) as [hud_path|e|] eqn:Hloc;
      [|subst r; by apply Hu|subst r; by apply He].
    destruct (negb (path_exists (files w) hud_path));
      [subst r; by apply Hu|].
    destruct (negb (is_dir (files w) hud_path));
      [subst r; by apply Hu|].
    unfold bind at 1 in Hr. rewrite print_post in Hr. unfold bind at 1 in Hr.
    destruct (bool_decide (name ≠ lower name)) eqn:Hlow.
    + unfold bind at 1 in Hr. rewrite print_post in Hr.
      destruct (locate (files w) cwd (lower name)) as [lower_hud_path|e|] eqn:Hl2.
      * unfold bind at 1 in Hr.
        match type of Hr with context [os_rename ?p ?q ?w0] =>
          pose proof (os_rename_plain p q w0) as Hn;
          pose proof (os_rename_tame p q w0) as [Hn1 Hn2];
          destruct (os_rename p q w0) as [[[]|e|c|] w1] end;
          cbn [fst snd files] in *; try done.
        -- unfold ret at 1 in Hr. subst r. by eapply Hs.
        -- subst r. apply He. intros ->. by apply Hn1.
      * subst r. apply He. by eapply locate_nowhere.
      * subst r. by apply He.
    + unfold ret at 1 in Hr. subst r. eapply Hs; [done| |done].
      apply bool_decide_eq_false in Hlow. apply dec_stable in Hlow.
      by rewrite <- Hlow.
Qed.

(** ** What the lowercasing stage keeps *)

Lemma kept_refl fs : kept fs fs.
Proof. intros k n H. by exists k. Qed.

Lemma kept_trans fs1 fs2 fs3 : kept fs1 fs2 -> kept fs2 fs3 -> kept fs1 fs3.
Proof.
  intros H1 H2 k n Hk. destruct (H1 k n Hk) as (k1 & Hk1 & E1).
  destruct (H2 k1 n Hk1) as (k2 & Hk2 & E2). exists k2. split; [done|congruence].
Qed.

Lemma reroot_lower d x k :
  map lower (reroot (d ++ [x]) (d ++ [lower x]) k) = map lower k.
Proof.
  destruct (reroot_cases (d ++ [x]) (d ++ [lower x]) k) as [(t & -> & ->)|(_ & ->)];
    [|done].
  rewrite !map_app. cbn [map]. by rewrite lower_idem.
Qed.

Lemma move_kept fs d x :
  wf_tree fs -> fs !! (d ++ [lower x]) = None ->
  kept fs (move (d ++ [x]) (d ++ [lower x]) fs)
  /\ kept (move (d ++ [x]) (d ++ [lower x]) fs) fs.
Proof.
  intros Hwf Hq.
  assert (ML := move_lookup (d ++ [x]) (d ++ [lower x]) fs
                  (wf_free_below fs _ Hwf Hq ltac:(by destruct d))).
  split.
  - intros k n Hk. exists (reroot (d ++ [x]) (d ++ [lower x]) k).
    split; [apply ML; by exists k|apply reroot_lower].
  - intros k' n Hk'. apply ML in Hk' as (k & -> & Hk). exists k.
    split; [done|]. by rewrite reroot_lower.
Qed.

(** One turn of the loop either changes nothing or moves the entry to its
    free lowercase name. *)
Lemma lowercase_entry_cases hud_dir p rest n w :
  names_inv hud_dir (files w) (p :: rest) ->
  lowercase_entry p n w = (Ok n, w)
  \/ (files w !! (parent p ++ [lower (basename p)]) = None
      /\ lowercase_entry p n w
         = (Ok (S n), World (move p (parent p ++ [lower (basename p)]) (files w))
                        (output w) (fontlog w))).
Proof.
  intros (Hwf & Htodo & _). destruct (Htodo p) as [Hp Hb]; [by left|].
  assert (Hne : p <> []).
  { apply below_spec in Hb as (t & Ht & ->). by destruct hud_dir, t. }
  unfold lowercase_entry.
  destruct (decide (basename p = lower (basename p))) as [E|E].
  - rewrite bool_decide_eq_false_2 by (intros H; by apply H). by left.
  - rewrite bool_decide_eq_true_2 by done. unfold bind, get_files.
    rewrite path_exists_snoc.
    destruct (decide (is_Some (files w !! (parent p ++ [lower (basename p)]))))
      as [T|T].
    + rewrite bool_decide_eq_true_2 by done. by left.
    + rewrite bool_decide_eq_false_2 by done. cbn [negb]. right.
      assert (Hfree : files w !! (parent p ++ [lower (basename p)]) = None)
        by by apply eq_None_not_Some.
      assert (Hnp : ~ p `prefix_of` parent p ++ [lower (basename p)]).
      { rewrite (parent_basename p Hne) at 1. by apply snoc_not_prefix. }
      assert (Hdir : is_dir (files w) (parent (parent p ++ [lower (basename p)])) = true).
      { rewrite parent_snoc. by apply Hwf. }
      assert (Hqne : parent p ++ [lower (basename p)] <> []) by by destruct (parent p).
      by rewrite (os_rename_free p _ w Hne Hp Hqne Hfree Hdir Hnp).
Qed.

Lemma lowercase_entry_kept hud_dir p rest n w :
  names_inv hud_dir (files w) (p :: rest) ->
  kept (files w) (files (snd (lowercase_entry p n w)))
  /\ kept (files (snd (lowercase_entry p n w))) (files w).
Proof.
  intros Hinv.
  destruct (lowercase_entry_cases hud_dir p rest n w Hinv) as [E|[Hfree E]];
    rewrite E; cbn [snd files]; [split; apply kept_refl|].
  destruct Hinv as (Hwf & Htodo & _).
  destruct (Htodo p) as [_ Hb]; [by left|].
  assert (Hne : p <> []).
  { apply below_spec in Hb as (t & Ht & ->). by destruct hud_dir, t. }
  pose proof (move_kept (files w) (parent p) (basename p) Hwf Hfree) as K.
  by rewrite <- (parent_basename p Hne) in K.
Qed.

Lemma lowercase_loop_kept hud_dir l n w :
  names_inv hud_dir (files w) l -> NoDup l ->
  StronglySorted (fun a b : path => length b <= length a) l ->
  kept (files w) (files (snd (for_each l n lowercase_entry w)))
  /\ kept (files (snd (for_each l n lowercase_entry w))) (files w).
Proof.
  revert n w. induction l as [|p l IH]; intros n w Hinv Hnd Hs.
  - split; apply kept_refl.
  - pose proof Hs as Hs0. apply StronglySorted_inv in Hs as [Hs Hp].
    destruct (lowercase_entry_step hud_dir p l n w Hinv Hnd)
      as (n1 & w1 & E1 & Hinv1 & _).
    { intros r Hr. by apply (proj1 (Forall_forall _ _) Hp). }
    pose proof Hnd as Hnd0. apply NoDup_cons in Hnd as [_ Hnd].
    destruct (IH n1 w1 Hinv1 Hnd Hs) as [K1 K2].
    cbn [for_each]. unfold bind. rewrite E1.
    pose proof (lowercase_entry_kept hud_dir p l n w Hinv) as K0.
    rewrite E1 in K0. cbn [snd] in K0.
    destruct K0 as [K01 K02]. split; eapply kept_trans; eauto.
Qed.

Lemma normalize_filenames_eq hud_dir w :
  normalize_filenames hud_dir w =
  match for_each (sort_by_depth (rglob (files w) hud_dir (fun _ => true))) 0
          lowercase_entry
          (World (files w) (output w ++ [MNamesStage]) (fontlog w)) with
  | (Ok n, w1) =>
      (Ok tt, World (files w1)
                (output w1 ++ [if 0 <? n then MLowercased n else MNoLowercase])
                (fontlog w1))
  | (Raise e, w1) => (Raise e, w1)
  | (Exit c, w1) => (Exit c, w1)
  | (NoFuel, w1) => (NoFuel, w1)
  end.
Proof.
  unfold normalize_filenames, normalize_filenames_on, bind, get_files.
  rewrite print_post.
  destruct (for_each _ _ _ _) as [[n|e|c|] w1]; try done.
  by destruct (0 <? n).
Qed.

(** On a tree in which every entry lies in a directory, the lowercasing
    stage loses and invents nothing: every entry is found afterwards with
    the same content at a path that differs from its old one by the case of
    letters at most, and every entry found afterwards comes from such an
    entry. *)
Theorem lowercasing_keeps (hud_dir : path) (w : world) :
  wf_tree (files w) ->
  let w' := snd (normalize_filenames hud_dir w) in
  kept (files w) (files w') /\ kept (files w') (files w).
Proof.
  intros Hwf. cbv zeta. rewrite normalize_filenames_eq.
  set (listing := sort_by_depth (rglob (files w) hud_dir (fun _ => true))).
  set (w0 := World (files w) (output w ++ [MNamesStage]) (fontlog w)).
  destruct (lowercase_loop_kept hud_dir listing 0 w0) as [K1 K2].
  - split; [done|]. split.
    + intros r Hr. apply rglob_all. unfold listing in Hr.
      by rewrite sort_by_depth_perm in Hr.
    + intros k Hk Hb Hnot. destruct Hnot. unfold listing.
      rewrite sort_by_depth_perm. by apply rglob_all.
  - unfold listing. rewrite sort_by_depth_perm. apply rglob_NoDup.
  - apply sort_by_depth_sorted.
  - destruct (for_each listing 0 lowercase_entry w0) as [[n|e|c|] w1];
      cbn [fst snd files] in *; by split.
Qed.

(** The content of a file in a capitalised folder is found below the
    lowercased folder. *)
Lemma lowercasing_keeps_witness :
  let fs : gmap path node :=
    list_to_map [ ([txt "hud"], Dir); ([txt "hud"; txt "Bar"], Dir);
                  ([txt "hud"; txt "Bar"; txt "Baz.res"], File (txt "x")) ] in
  let w' := snd (normalize_filenames [txt "hud"] (World fs [] [])) in
  kept fs (files w')
  /\ files w' !! [txt "hud"; txt "bar"; txt "baz.res"] = Some (File (txt "x")).
Proof.
  intros fs w'. split.
  - apply (lowercasing_keeps [txt "hud"] (World fs [] [])).
    apply wf_treeb_spec. vm_compute. reflexivity.
  - vm_compute. reflexivity.
Defined.

(** ** The cfg and res stages, exactly *)

Lemma rewrite_file_exact tr file d n w :
  files w !! file = Some (File d) -> file <> [] ->
  is_dir (files w) (parent file) = true ->
  rewrite_file tr file n w
  = (Ok (if changes tr (files w) file then S n else n),
     World (<[file := File (rewritten tr file d)]> (files w)) (output w) (fontlog w)).
Proof.
  intros Hf Hne Hd. destruct w as [fs out fl]. cbn [files output fontlog] in *.
  unfold rewrite_file, bind, read_text, changes, rewritten. cbn [files].
  rewrite Hf. cbv zeta.
  destruct (bool_decide (tr file (universal_newlines d) ≠ universal_newlines d)).
  - unfold write_text. cbn [files output fontlog].
    destruct file as [|x file]; [done|]. by rewrite Hf, Hd.
  - unfold ret. f_equal. f_equal. symmetry. by apply insert_id.
Qed.

Lemma rewrite_loop_exact tr l n w :
  NoDup l ->
  (forall f, f ∈ l -> f <> [] /\ is_dir (files w) (parent f) = true
                      /\ exists d, files w !! f = Some (File d)) ->
  exists w', for_each l n (rewrite_file tr) w
             = (Ok (n + length (List.filter (changes tr (files w)) l)), w')
    /\ output w' = output w /\ fontlog w' = fontlog w
    /\ forall f, files w' !! f = rewrite_all tr l (files w) f.
Proof.
  revert n w. induction l as [|f0 l IH]; intros n w Hnd Hl.
  - exists w. cbn [for_each List.filter length]. rewrite Nat.add_0_r.
    split_and!; [done..|].
    intros f. unfold rewrite_all. by destruct (files w !! f) as [[|d]|].
  - apply NoDup_cons in Hnd as [Hn0 Hnd].
    destruct (Hl f0) as (Hne & Hd & d & Hf); [by left|].
    cbn [for_each]. unfold bind. rewrite (rewrite_file_exact tr f0 d n w Hf Hne Hd).
    set (w1 := World (<[f0 := File (rewritten tr f0 d)]> (files w)) (output w) (fontlog w)).
    assert (Hsame : forall f, f <> f0 -> files w1 !! f = files w !! f).
    { intros f Hff. cbn [w1 files]. by rewrite lookup_insert_ne. }
    destruct (IH (if changes tr (files w) f0 then S n else n) w1 Hnd)
      as (w' & E & O & F & H).
    { intros f Hin. destruct (Hl f) as (Hfne & Hfd & d' & Hf'); [by right|].
      assert (Hff : f <> f0) by (intros ->; done).
      split; [done|]. split; [|exists d'; by rewrite Hsame].
      destruct (decide (parent f = [])) as [->|Hp]; [done|].
      apply is_dir_lookup. rewrite Hsame.
      - by apply is_dir_Some.
      - intros Ep. apply is_dir_Some in Hfd; [|done]. congruence. }
    exists w'. split_and!; try done.
    + rewrite E. f_equal. f_equal. cbn [List.filter length].
      rewrite (List.filter_ext_in (changes tr (files w1)) (changes tr (files w))).
      * destruct (changes tr (files w) f0); cbn [length]; lia.
      * intros f Hin%list_elem_of_In. unfold changes. rewrite Hsame; [done|].
        intros ->. done.
    + intros f. rewrite H. unfold rewrite_all.
      destruct (decide (f = f0)) as [->|Hff].
      * cbn [w1 files]. rewrite lookup_insert_eq, Hf.
        rewrite bool_decide_eq_false_2 by done.
        by rewrite bool_decide_eq_true_2 by by left.
      * rewrite Hsame by done. destruct (files w !! f) as [[|d']|]; try done.
        destruct (decide (f ∈ l)) as [Hin|Hin].
        -- rewrite !bool_decide_eq_true_2; [done|by right|done].
        -- rewrite !bool_decide_eq_false_2; [done| |done].
           by intros [?|?]%elem_of_cons.
Qed.

Lemma rglob_ready fs dir pat :
  wf_tree fs ->
  (forall f, f ∈ rglob fs dir pat -> exists d, fs !! f = Some (File d)) ->
  forall f, f ∈ rglob fs dir pat ->
    f <> [] /\ is_dir fs (parent f) = true /\ exists d, fs !! f = Some (File d).
Proof.
  intros Hwf Hfile f Hf. pose proof Hf as (Hk & Hb & _)%rglob_spec.
  split; [|split; [by apply Hwf|by apply Hfile]].
  apply below_spec in Hb as (t & Ht & ->). by destruct dir, t.
Qed.

(** The res stage on a well-formed tree in which no directory below the
    HUD folder has a name ending in [.res]: it returns, every [.res] file
    below the HUD folder whose text the three passes change is replaced by
    that text, computed at the depth of the file (the number of folders
    between the HUD folder and the file), nothing else changes, and the
    number reported is the number of files changed. *)
Theorem res_stage_exact (hud_dir : path) (w : world) :
  wf_tree (files w) ->
  (forall f, f ∈ rglob (files w) hud_dir (endswith (txt ".res")) ->
             exists d, files w !! f = Some (File d)) ->
  let tr := fun file content =>
    normalize_res_text (length (drop (length hud_dir) file) - 1) content in
  let l := rglob (files w) hud_dir (endswith (txt ".res")) in
  let k := length (List.filter (changes tr (files w)) l) in
  exists w', process_res_files hud_dir w = (Ok tt, w')
    /\ output w' = output w ++ [if 0 <? k then MResModified k else MNoResChange]
    /\ fontlog w' = fontlog w
    /\ forall f, files w' !! f = rewrite_all tr l (files w) f.
Proof.
  intros Hwf Hfile tr l k. rewrite process_res_files_eq.
  unfold bind at 1. unfold get_files. unfold bind.
  destruct (rewrite_loop_exact tr l 0 w (rglob_NoDup _ _ _)
              (rglob_ready _ _ _ Hwf Hfile)) as (w1 & E & O & F & H).
  fold l. change (for_each l 0 (rewrite_file _) w) with (for_each l 0 (rewrite_file tr) w).
  rewrite E. cbn [Nat.add]. fold k.
  destruct (0 <? k); rewrite print_post; eexists; (split; [reflexivity|]);
    cbn [files output fontlog]; by rewrite O.
Qed.

(** The cfg stage under the same conditions, for a HUD name without
    backslash: without a [cfg] folder it only says so; otherwise every
    [.cfg] file below it whose text the echo pass changes is replaced by
    that text, nothing else changes, and the number reported is the number
    of files changed. *)
Theorem cfg_stage_exact (hud_dir : path) (hud_name : text) (w : world) :
  plain_name hud_name ->
  wf_tree (files w) ->
  (forall f, f ∈ rglob (files w) (hud_dir ++ [txt "cfg"]) (endswith (txt ".cfg")) ->
             exists d, files w !! f = Some (File d)) ->
  let tr := fun (_ : path) content => normalize_cfg_echo_paths content hud_name in
  let l := rglob (files w) (hud_dir ++ [txt "cfg"]) (endswith (txt ".cfg")) in
  let k := length (List.filter (changes tr (files w)) l) in
  exists w', process_cfg_files hud_dir hud_name w = (Ok tt, w')
    /\ fontlog w' = fontlog w
    /\ if path_exists (files w) (hud_dir ++ [txt "cfg"]) then
         output w' = output w ++ [if 0 <? k then MCfgModified k else MNoCfgChange]
         /\ forall f, files w' !! f = rewrite_all tr l (files w) f
       else output w' = output w ++ [MNoCfgFolder] /\ files w' = files w.
Proof.
  intros _ Hwf Hfile tr l k. rewrite process_cfg_files_eq.
  unfold bind at 1. unfold get_files.
  destruct (path_exists (files w) (hud_dir ++ [txt "cfg"])); cbn [negb].
  - unfold bind.
    destruct (rewrite_loop_exact tr l 0 w (rglob_NoDup _ _ _)
                (rglob_ready _ _ _ Hwf Hfile)) as (w1 & E & O & F & H).
    fold l. change (for_each l 0 (rewrite_file _) w) with (for_each l 0 (rewrite_file tr) w).
    rewrite E. cbn [Nat.add]. fold k.
    destruct (0 <? k); rewrite print_post; eexists; (split; [reflexivity|]);
      cbn [files output fontlog]; by rewrite O.
  - rewrite print_post. eexists. split; [reflexivity|]. done.
Qed.

Lemma all_files_spec fs l :
  all_files fs l = true -> forall f, f ∈ l -> exists d, fs !! f = Some (File d).
Proof.
  unfold all_files. rewrite forallb_forall. intros H f Hf%list_elem_of_In.
  specialize (H f Hf). destruct (fs !! f) as [[|d]|]; try done. by exists d.
Qed.

(** The two clientscheme files of the sample HUD lie one folder below it;
    neither needs a change. *)
Lemma res_stage_exact_witness :
  exists w', process_res_files [txt "home"; txt "myhud"] (World cyclic_hud [] [])
             = (Ok tt, w')
             /\ output w' = [MNoResChange].
Proof.
  destruct (res_stage_exact [txt "home"; txt "myhud"] (World cyclic_hud [] []))
    as (w' & E & O & _).
  - apply wf_treeb_spec. vm_compute. reflexivity.
  - apply all_files_spec. vm_compute. reflexivity.
  - exists w'. split; [exact E|]. rewrite O. vm_compute. reflexivity.
Defined.

(** One cfg file with an echo line that needs the canonical segment. *)
Lemma cfg_stage_exact_witness :
  let fs := one_cfg_hud (echo_line (txt "../../resource/ui/Foo.res")) in
  exists w', process_cfg_files [txt "home"; txt "myhud"] (txt "myhud") (World fs [] [])
             = (Ok tt, w')
             /\ output w' = [MCfgModified 1]
             /\ files w' !! [txt "home"; txt "myhud"; txt "cfg"; txt "a.cfg"]
                = Some (File (echo_line (txt "../../custom/myhud/resource/ui/foo.res"))).
Proof.
  intros fs.
  destruct (cfg_stage_exact [txt "home"; txt "myhud"] (txt "myhud") (World fs [] []))
    as (w' & E & _ & H).
  - reflexivity.
  - apply wf_treeb_spec. vm_compute. reflexivity.
  - apply all_files_spec. vm_compute. reflexivity.
  - exists w'. split; [exact E|].
    replace (path_exists (files (World fs [] [])) ([txt "home"; txt "myhud"] ++ [txt "cfg"]))
      with true in H by (vm_compute; reflexivity).
    destruct H as [O H]. split; [rewrite O; vm_compute; reflexivity|].
    rewrite H. vm_compute. reflexivity.
Defined.

(** ** The echo pass, piece by piece *)

Lemma Matches_any_run ic g prev w rest c c' :
  Matches ic (Star g Any) prev w rest c c' ->
  forallb (fun a => negb (Ascii.eqb a newline)) w = true.
Proof.
  apply Matches_star_class. intros ? ? ? ? ? H. inversion H; subst.
  eexists. split; [done|].
  by match goal with E : Ascii.eqb _ _ = false |- _ => rewrite E end.
Qed.

Lemma echo_hit content w c :
  Hit w c ∈ scan true echo_re None content 0 ->
  exists g1 g2 g3, c = [(3, g3); (2, g2); (1, g1)] /\ w = g1 ++ g2 ++ g3
    /\ (exists e tl, g1 = e ++ tl /\ lower e = txt "echo")
    /\ (exists stem ext, g2 = stem ++ "."%char :: ext
          /\ (lower ext = txt "res" \/ lower ext = txt "vmt")
          /\ forallb (fun a => negb (Ascii.eqb a newline)) stem = true)
    /\ forallb (fun a => negb (Ascii.eqb a newline)) g3 = true.
Proof.
  intros H. apply scan_hit_Matches in H as (u & rest & _ & _ & H).
  apply three_groups in H as (g1 & g2 & g3 & -> & -> & H1 & H2 & H3); [|done..].
  exists g1, g2, g3. split; [done|]. split; [done|]. split; [|split].
  - cbn [Seqs] in H1.
    inversion H1 as [| | | | | | |? ? ? e tl ? ? ? ? He _| | | | | |]; subst.
    exists e, tl. split; [done|].
    by apply (Matches_Lit_ci (txt "echo")) in He as [-> _].
  - cbn [Seqs] in H2.
    inversion H2 as [| | | | | | |? ? ? stem tl ? ? ? ? Hs Ht| | | | | |]; subst.
    inversion Ht as [| | | | | | |? ? ? dt ext ? ? ? ? Hd He| | | | | |]; subst.
    inversion Hd as [|? x ? ? ? Hx| | | | | | | | | | | |]; subst.
    assert (x = "."%char) as ->.
    { unfold chr_eq in Hx. apply Ascii.eqb_eq in Hx.
      revert Hx. ascii_cases x; vm_compute; congruence. }
    exists stem, ext. split; [done|]. split; [|by eapply Matches_any_run].
    inversion He as [| | | | | | | |? ? ? ? ? ? ? Hl|? ? ? ? ? ? ? Hl| | | |]; subst.
    + left. by apply (Matches_Lit_ci (txt "res")) in Hl as [-> _].
    + right. by apply (Matches_Lit_ci (txt "vmt")) in Hl as [-> _].
  - inversion H3 as [| | | | | | |? ? ? q tl ? ? ? ? Hq Ht| | | | | |]; subst.
    rewrite forallb_app. apply andb_true_iff. split; [|by eapply Matches_any_run].
    unfold Opt in Hq.
    inversion Hq as [| | | | | | | |? ? ? ? ? ? ? Hl|? ? ? ? ? ? ? Hl| | | |]; subst.
    + inversion Hl as [| | | |? x ? ? ? Hin| | | | | | | | |]; subst.
      cbn [forallb]. rewrite andb_true_r.
      destruct (Ascii.eqb x newline) eqn:E; [|done].
      apply Ascii.eqb_eq in E as ->. vm_compute in Hin. discriminate Hin.
    + by inversion Hl.
Qed.

(** The echo pass copies every character outside the lines it matches; a
    match begins with [echo] in any case, its path ends in [.res] or [.vmt]
    in any case, and neither the path nor what follows it holds a newline;
    the text before the path and the text after it are kept, the path is
    replaced by its rewriting. *)
Theorem echo_frame (hud_name content : text) :
  let pieces := scan true echo_re None content 0 in
  concat (map raw pieces) = content
  /\ normalize_cfg_echo_paths content hud_name
     = concat (map (fun p => match p with
                             | Skip a => [a]
                             | Hit w c => normalize_echo_path hud_name w c
                             end) pieces)
  /\ forall w c, Hit w c ∈ pieces ->
       exists head path tail,
         w = head ++ path ++ tail
         /\ (exists e tl, head = e ++ tl /\ lower e = txt "echo")
         /\ (exists stem ext, path = stem ++ "."%char :: ext
               /\ (lower ext = txt "res" \/ lower ext = txt "vmt")
               /\ forallb (fun a => negb (Ascii.eqb a newline)) stem = true)
         /\ forallb (fun a => negb (Ascii.eqb a newline)) tail = true
         /\ normalize_echo_path hud_name w c
            = head ++ echo_path hud_name path ++ tail.
Proof.
  intros pieces. split; [apply (scan_raw true echo_re None content 0)|].
  split; [reflexivity|]. intros w c H.
  apply echo_hit in H as (g1 & g2 & g3 & -> & -> & H1 & H2 & H3).
  by exists g1, g2, g3.
Qed.

(** ** The echo pass without a run of parent segments *)

(** In the echo pass run for a HUD name without backslash, a matched line
    consists of its head, its path and its tail; a path in which no [../]
    stands immediately before [resource/] (respectively [scripts/]) gets no
    canonical segment from the resource (respectively scripts) rewriting,
    which is then the identity; when neither word is preceded by [../] the
    path is only slash-converted and lowercased, and the pass returns the
    text with the line, so rewritten, at the place where it matched. *)
Theorem echo_no_insertion_without_ups (hud_name content w : text) (c : caps) :
  plain_name hud_name ->
  Hit w c ∈ scan true echo_re None content 0 ->
  let p := to_slashes (group 2 c) in
  w = group 1 c ++ group 2 c ++ group 3 c
  /\ normalize_echo_path hud_name w c
     = group 1 c ++ echo_path hud_name (group 2 c) ++ group 3 c
  /\ echo_path hud_name (group 2 c)
     = lower (explicit_scripts hud_name (explicit_resource hud_name p))
  /\ (contains (txt "../resource/") p = false -> explicit_resource hud_name p = p)
  /\ (forall q, contains (txt "../scripts/") q = false ->
                explicit_scripts hud_name q = q)
  /\ (contains (txt "../resource/") p = false ->
      contains (txt "../scripts/") p = false ->
      echo_path hud_name (group 2 c) = lower p
      /\ exists before after,
           scan true echo_re None content 0 = before ++ Hit w c :: after
           /\ content = concat (map raw before) ++ w ++ concat (map raw after)
           /\ normalize_cfg_echo_paths content hud_name
              = render (normalize_echo_path hud_name) before
                ++ (group 1 c ++ lower p ++ group 3 c)
                ++ render (normalize_echo_path hud_name) after).
Proof.
  intros _ H p. split.
  { apply echo_hit in H as (g1 & g2 & g3 & -> & -> & _). done. }
  split; [reflexivity|]. split; [reflexivity|].
  split; [apply explicit_resource_id|].
  split; [intros q; apply explicit_scripts_id|].
  intros R S.
  assert (E : echo_path hud_name (group 2 c) = lower p).
  { unfold echo_path. fold p.
    by rewrite (explicit_resource_id _ _ R), (explicit_scripts_id _ _ S). }
  split; [exact E|].
  destruct (render_split (normalize_echo_path hud_name) _ w c H)
    as (before & after & Hs & Hr & Ho).
  exists before, after. split; [exact Hs|]. split.
  - rewrite <- Hr. symmetry. apply (scan_raw true echo_re None content 0).
  - rewrite <- E. exact Ho.
Qed.

(** The example of the claim, after a line the pass leaves alone:
    [sub/resource/X.res] holds [/resource/] and no canonical segment, and is
    only lowercased. *)
Lemma echo_no_insertion_without_ups_witness :
  let line := txt "echo #base sub/resource/X.res" in
  let content := txt "// A" ++ newline :: line in
  let c := [(3, []); (2, txt "sub/resource/X.res"); (1, txt "echo #base ")] in
  plain_name (txt "myhud")
  /\ Hit line c ∈ scan true echo_re None content 0
  /\ contains (txt "/resource/") (to_slashes (group 2 c)) = true
  /\ contains (txt "/custom/myhud/resource/") (to_slashes (group 2 c)) = false
  /\ normalize_echo_path (txt "myhud") line c
     = txt "echo #base sub/resource/x.res"
  /\ normalize_cfg_echo_paths content (txt "myhud")
     = txt "// A" ++ newline :: txt "echo #base sub/resource/x.res".
Proof.
  intros line content c.
  assert (P : plain_name (txt "myhud")) by reflexivity.
  assert (H : Hit line c ∈ scan true echo_re None content 0).
  { vm_compute. do 5 apply list_elem_of_further. apply list_elem_of_here. }
  destruct (echo_no_insertion_without_ups (txt "myhud") content line c P H)
    as (_ & E & _ & _ & _ & L).
  destruct L as [L _]; [vm_compute; reflexivity..|].
  split; [exact P|]. split; [exact H|]. split; [vm_compute; reflexivity|].
  split; [vm_compute; reflexivity|].
  split; [rewrite E, L; vm_compute; reflexivity|].
  vm_compute. reflexivity.
Defined.
